(** * crustlserver: the per-connection TLS multiplexing loop

    A shallow embedding of [examples/crustlserver/main.c]: the raw I/O
    callbacks, the plaintext accumulator, the read cycle, the terminator
    scan, the fixed reply, the connection loop and the accept loop.

    The C functions mutate a [conndata_t] through a pointer and talk to the
    operating system and to the TLS engine.  Here they are computations in a
    state monad over the connection data and a [World]; the operating system
    is a set of oracles (one outcome per successive call), the TLS engine is
    a record of operations over an abstract engine state. *)

From Stdlib Require Import String Ascii.
From Stdlib Require Import ZArith List Bool Lia.
Import ListNotations.
Open Scope Z_scope.

(** ** Machine integers *)

(** [size_t] is a 64-bit unsigned integer; arithmetic wraps. *)
Definition SIZE_MODULUS : Z := 2 ^ 64.
Definition size_t_wrap (z : Z) : Z := z mod SIZE_MODULUS.
Definition size_sub (a b : Z) : Z := size_t_wrap (a - b).
Definition size_add (a b : Z) : Z := size_t_wrap (a + b).
Definition size_mul (a b : Z) : Z := size_t_wrap (a * b).

(** Conversion of a [size_t] to [int] (32-bit two's complement), as in the
    call [write_all(STDOUT_FILENO, buf, n)]. *)
Definition int_of_size_t (z : Z) : Z := (z + 2 ^ 31) mod 2 ^ 32 - 2 ^ 31.

(** Conversion of an [ssize_t] result to [size_t], as in
    [n = read(conn->fd, buf, sizeof(buf))] with [size_t n]. *)
Definition size_t_of_ssize_t (z : Z) : Z := size_t_wrap z.

(** ** Constants of the C library and of [crustls.h] *)

(** [EAGAIN] and [EWOULDBLOCK] have the same value on Linux (11); under
    [_WIN32] the source defines both as [WSAEWOULDBLOCK]. *)
Definition EAGAIN : Z := 11.
Definition EWOULDBLOCK : Z := 11.
Definition STDOUT_FILENO : Z := 1.

Inductive rustls_result : Type :=
| RUSTLS_RESULT_OK
| RUSTLS_RESULT_ALERT_CLOSE_NOTIFY
| RUSTLS_RESULT_OTHER (code : Z).

Definition rustls_result_eqb (a b : rustls_result) : bool :=
  match a, b with
  | RUSTLS_RESULT_OK, RUSTLS_RESULT_OK => true
  | RUSTLS_RESULT_ALERT_CLOSE_NOTIFY, RUSTLS_RESULT_ALERT_CLOSE_NOTIFY => true
  | RUSTLS_RESULT_OTHER x, RUSTLS_RESULT_OTHER y => x =? y
  | _, _ => false
  end.

Inductive crustls_demo_result : Type :=
| CRUSTLS_DEMO_OK
| CRUSTLS_DEMO_ERROR
| CRUSTLS_DEMO_AGAIN
| CRUSTLS_DEMO_EOF
| CRUSTLS_DEMO_CLOSE_NOTIFY.

Definition demo_result_eqb (a b : crustls_demo_result) : bool :=
  match a, b with
  | CRUSTLS_DEMO_OK, CRUSTLS_DEMO_OK
  | CRUSTLS_DEMO_ERROR, CRUSTLS_DEMO_ERROR
  | CRUSTLS_DEMO_AGAIN, CRUSTLS_DEMO_AGAIN
  | CRUSTLS_DEMO_EOF, CRUSTLS_DEMO_EOF
  | CRUSTLS_DEMO_CLOSE_NOTIFY, CRUSTLS_DEMO_CLOSE_NOTIFY => true
  | _, _ => false
  end.

Inductive exchange_state : Type :=
| READING_REQUEST
| SENT_RESPONSE.

(** ** Bytes and C strings *)

(** A byte is a [Z] in [0, 256). *)
Definition bytes_of_string (s : string) : list Z :=
  map (fun c => Z.of_nat (nat_of_ascii c)) (list_ascii_of_string s).

Definition CR : Z := 13.
Definition LF : Z := 10.

(** The literal ["\r\n\r\n"]. *)
Definition double_crlf : list Z := [CR; LF; CR; LF].

(** The literal
    ["HTTP/1.1 200 OK\r\nContent-Length: 6\r\n\r\nhello\n"]. *)
Definition response : list Z :=
  bytes_of_string "HTTP/1.1 200 OK"%string ++ [CR; LF] ++
  bytes_of_string "Content-Length: 6"%string ++ double_crlf ++
  bytes_of_string "hello"%string ++ [LF].

(** [starts_with needle mem]: the bytes of [needle] are found at the start
    of the memory [mem].  [needle] holds no NUL, so a match never runs past
    the terminator of the C string in [mem]. *)
Fixpoint starts_with (needle mem : list Z) : bool :=
  match needle, mem with
  | [], _ => true
  | _ :: _, [] => false
  | c :: needle', m :: mem' => (c =? m) && starts_with needle' mem'
  end.

(** [strstr(haystack, needle) != NULL] for a non-empty [needle] without
    NUL: every start position of the C string is tried, from the first byte
    up to (excluding) the first NUL.  [mem] is the memory from the pointer
    on; running off its end without meeting a NUL is a read outside the
    allocation, which the callers exclude by a bounds check of their own. *)
Fixpoint strstr_found (mem needle : list Z) : bool :=
  match mem with
  | [] => false
  | c :: mem' =>
      if c =? 0 then false
      else if starts_with needle mem then true
      else strstr_found mem' needle
  end.

(** [strlen]. *)
Definition strlen (s : list Z) : Z := Z.of_nat (length s).

(** ** The outside world *)

Inductive read_outcome : Type :=
| ReadFails (e : Z)            (* -1, errno set to [e] *)
| ReadGives (bytes : list Z).  (* that many bytes; [[]] is end of file *)

Inductive write_outcome : Type :=
| WriteFails (e : Z)           (* -1, errno set to [e] *)
| WriteTakes (m : Z).          (* that many bytes accepted *)

Inductive select_outcome : Type :=
| SelectFails (e : Z)
| SelectReady (readable writable : bool).

(** Lines written to the diagnostic stream. *)
Inductive diag : Type :=
| DiagOutOfMemory
| DiagReceivedCloseNotify
| DiagErrorInRead
| DiagPerrorStdout
| DiagEarlyEofStdout
| DiagReadAgain
| DiagReadErrno (err : Z)
| DiagReadBytes (n : Z)
| DiagProcessNewPackets (r : rustls_result)
| DiagDoReadReturning (r : crustls_demo_result)
| DiagReadAfterCloseNotify (n : Z)
| DiagFailedResponse (n : Z)
| DiagAccepted (fd : Z)
| DiagPerrorSelect
| DiagNoFds
| DiagWantsRead
| DiagWantsWrite
| DiagErrorWriteTls (err : Z)
| DiagEofWriteTls
| DiagWritingResponse
| DiagPerrorAccept
| DiagPerrorGetFlags
| DiagPerrorSetNonblocking
| DiagMakingSession (r : rustls_result)
| DiagPthreadCreate (ret : Z).

(** What the process does to the outside, newest event first. *)
Inductive event : Type :=
| EvStderr (d : diag)
| EvStdout (bytes : list Z)
| EvSocketWrite (fd : Z) (bytes : list Z)
| EvNanosleep
| EvClose (fd : Z)
| EvEngineWrite (bytes : list Z)
| EvConnectionNew (id : nat)
| EvServerConfigFree
| EvConnectionFree (id : option nat).

(** Each oracle is the sequence of outcomes of the successive calls of one
    primitive; a call takes the head and leaves the tail. *)
Record World : Type := mkWorld {
  errno : Z;
  socket_reads : nat -> read_outcome;
  socket_writes : nat -> write_outcome;
  stdout_writes : nat -> write_outcome;
  selects : nat -> select_outcome;
  reallocs : nat -> option (list Z);
  trace : list event
}.

Definition tail_of {A : Type} (f : nat -> A) : nat -> A := fun i => f (S i).

Definition set_errno (e : Z) (w : World) : World :=
  mkWorld e (socket_reads w) (socket_writes w) (stdout_writes w)
          (selects w) (reallocs w) (trace w).
Definition next_socket_read (w : World) : World :=
  mkWorld (errno w) (tail_of (socket_reads w)) (socket_writes w)
          (stdout_writes w) (selects w) (reallocs w) (trace w).
Definition next_socket_write (w : World) : World :=
  mkWorld (errno w) (socket_reads w) (tail_of (socket_writes w))
          (stdout_writes w) (selects w) (reallocs w) (trace w).
Definition next_stdout_write (w : World) : World :=
  mkWorld (errno w) (socket_reads w) (socket_writes w)
          (tail_of (stdout_writes w)) (selects w) (reallocs w) (trace w).
Definition next_select (w : World) : World :=
  mkWorld (errno w) (socket_reads w) (socket_writes w) (stdout_writes w)
          (tail_of (selects w)) (reallocs w) (trace w).
Definition next_realloc (w : World) : World :=
  mkWorld (errno w) (socket_reads w) (socket_writes w) (stdout_writes w)
          (selects w) (tail_of (reallocs w)) (trace w).
Definition emit (e : event) (w : World) : World :=
  mkWorld (errno w) (socket_reads w) (socket_writes w) (stdout_writes w)
          (selects w) (reallocs w) (e :: trace w).

(** ** The TLS engine, as the program sees it *)

(** What a raw I/O callback hands back to the engine: its return value (0
    or an errno) and, when it stored one, the count written to [*out_n]
    (for [read_cb] together with the bytes put in the engine's buffer). *)
Definition read_cb_result : Type := (Z * option (list Z))%type.
Definition write_cb_result : Type := (Z * option Z)%type.

(** The engine is an opaque capability: a state [E] and the operations of
    [crustls.h] the server uses.  [read_tls] and [write_tls] call the
    callback they are given at most once: [*_request] says whether and with
    what buffer, [*_finish] gives the [rustls_io_result], the count left in
    [*out_n] and the next engine state from what the callback returned.
    [rustls_connection_read] is given the size of the destination and
    returns the bytes it puts there; [rustls_connection_write] is given the
    plaintext and returns the count left in [*out_n]. *)
Record rustls_engine (E : Type) : Type := mkEngine {
  rustls_connection_wants_read : E -> bool;
  rustls_connection_wants_write : E -> bool;
  read_tls_request : E -> option Z;
  read_tls_finish : E -> option read_cb_result -> (Z * Z) * E;
  rustls_connection_process_new_packets : E -> rustls_result * E;
  rustls_connection_read : E -> Z -> (rustls_result * list Z) * E;
  rustls_connection_write : E -> list Z -> (rustls_result * Z) * E;
  write_tls_request : E -> option (list Z);
  write_tls_finish : E -> option write_cb_result -> (Z * Z) * E
}.

Arguments rustls_connection_wants_read {E}.
Arguments rustls_connection_wants_write {E}.
Arguments read_tls_request {E}.
Arguments read_tls_finish {E}.
Arguments rustls_connection_process_new_packets {E}.
Arguments rustls_connection_read {E}.
Arguments rustls_connection_write {E}.
Arguments write_tls_request {E}.
Arguments write_tls_finish {E}.

(** ** Connection data *)

(** [data_from_client] is the heap block itself: its length is the size of
    the allocation, which the program tracks separately in
    [data_capacity]. *)
Record conndata_t (E : Type) : Type := mkConn {
  fd : Z;
  rconn : E;
  data_from_client : list Z;
  data_len : Z;
  data_capacity : Z
}.

Arguments mkConn {E}.
Arguments fd {E}.
Arguments rconn {E}.
Arguments data_from_client {E}.
Arguments data_len {E}.
Arguments data_capacity {E}.

Record State (E : Type) : Type := mkState {
  conn : conndata_t E;
  world : World
}.

Arguments mkState {E}.
Arguments conn {E}.
Arguments world {E}.

(** ** Memory *)

(** Storing [bytes] at offset [off] of a block; [None] when the store
    leaves the block. *)
Definition store_bytes (mem : list Z) (off : nat) (bytes : list Z)
  : option (list Z) :=
  if (off + length bytes <=? length mem)%nat
  then Some (firstn off mem ++ bytes ++ skipn (off + length bytes) mem)
  else None.

(** The memory from offset [off] on. *)
Definition load_from (mem : list Z) (off : nat) : list Z := skipn off mem.

(** A block of [size] bytes that starts with the old contents; what lies
    beyond them is whatever the allocator left there ([junk]). *)
Definition resized (mem : list Z) (size : Z) (junk : list Z) : list Z :=
  firstn (Z.to_nat size) (mem ++ junk ++ repeat 0 (Z.to_nat size)).

(** ** The monad of the program *)

Inductive outcome (A : Type) : Type :=
| Returns (a : A)
| Aborts        (* abort() *)
| Faults        (* a store outside the allocation *)
| OutOfFuel.    (* the bound on loop iterations of the model was reached *)

Arguments Returns {A}.
Arguments Aborts {A}.
Arguments Faults {A}.
Arguments OutOfFuel {A}.

Definition M (S A : Type) : Type := S -> outcome A * S.

Definition ret {S A : Type} (a : A) : M S A := fun s => (Returns a, s).

Definition bind {S A B : Type} (m : M S A) (k : A -> M S B) : M S B :=
  fun s =>
    match m s with
    | (Returns a, s') => k a s'
    | (Aborts, s') => (Aborts, s')
    | (Faults, s') => (Faults, s')
    | (OutOfFuel, s') => (OutOfFuel, s')
    end.

Declare Scope prog_scope.
Delimit Scope prog_scope with prog.
Notation "x <- m ;; k" := (bind m (fun x => k))
  (at level 61, m at next level, right associativity) : prog_scope.
Notation "' p <- m ;; k" := (bind m (fun x => let 'p := x in k))
  (at level 61, p pattern, m at next level, right associativity) : prog_scope.
Notation "m ;; k" := (bind m (fun _ => k))
  (at level 61, right associativity) : prog_scope.
Open Scope prog_scope.

Definition abort {S A : Type} : M S A := fun s => (Aborts, s).
Definition fault {S A : Type} : M S A := fun s => (Faults, s).
Definition out_of_fuel {S A : Type} : M S A := fun s => (OutOfFuel, s).

(** A computation on the [World] alone, run inside a larger state. *)
Definition on_world {E : Type} (f : World -> World) : M (State E) unit :=
  fun s => (Returns tt, mkState (conn s) (f (world s))).

Definition get_conn {E : Type} : M (State E) (conndata_t E) :=
  fun s => (Returns (conn s), s).
Definition get_world {E : Type} : M (State E) World :=
  fun s => (Returns (world s), s).

Definition fprintf_stderr {E : Type} (d : diag) : M (State E) unit :=
  fun s => (Returns tt, mkState (conn s) (emit (EvStderr d) (world s))).
Definition perror {E : Type} (d : diag) : M (State E) unit := fprintf_stderr d.

Definition set_rconn {E : Type} (e : E) : M (State E) unit :=
  fun s =>
    let c := conn s in
    (Returns tt,
     mkState (mkConn (fd c) e (data_from_client c) (data_len c)
                     (data_capacity c)) (world s)).
Definition set_data_from_client {E : Type} (p : list Z) : M (State E) unit :=
  fun s =>
    let c := conn s in
    (Returns tt,
     mkState (mkConn (fd c) (rconn c) p (data_len c) (data_capacity c))
             (world s)).
Definition set_data_len {E : Type} (n : Z) : M (State E) unit :=
  fun s =>
    let c := conn s in
    (Returns tt,
     mkState (mkConn (fd c) (rconn c) (data_from_client c) n
                     (data_capacity c)) (world s)).

(** ** System calls *)

(** [read(fd, buf, len)] on the connection's socket: the result and the
    bytes stored in [buf]. *)
Definition sys_read {E : Type} (fd len : Z) : M (State E) (Z * list Z) :=
  fun s =>
    let w := world s in
    match socket_reads w 0%nat with
    | ReadFails e =>
        (Returns (-1, []), mkState (conn s) (set_errno e (next_socket_read w)))
    | ReadGives bytes =>
        let got := firstn (Z.to_nat len) bytes in
        (Returns (Z.of_nat (length got), got),
         mkState (conn s) (next_socket_read w))
    end.

(** [write(fd, buf, n)]: on standard output or on the socket. *)
Definition sys_write {E : Type} (fd : Z) (buf : list Z) (n : Z) : M (State E) Z :=
  fun s =>
    let w := world s in
    let to_stdout := fd =? STDOUT_FILENO in
    let w' := if to_stdout then next_stdout_write w else next_socket_write w in
    match (if to_stdout then stdout_writes w else socket_writes w) 0%nat with
    | WriteFails e => (Returns (-1), mkState (conn s) (set_errno e w'))
    | WriteTakes m =>
        let m' := Z.max 0 (Z.min m n) in
        let taken := firstn (Z.to_nat m') buf in
        (Returns m',
         mkState (conn s)
                 (emit (if to_stdout then EvStdout taken
                        else EvSocketWrite fd taken) w'))
    end.

(** [realloc(p, size)]: [None] is the null pointer. *)
Definition realloc {E : Type} (mem : list Z) (size : Z)
  : M (State E) (option (list Z)) :=
  fun s =>
    let w := world s in
    (Returns (option_map (resized mem size) (reallocs w 0%nat)),
     mkState (conn s) (next_realloc w)).

Definition close {E : Type} (fd : Z) : M (State E) unit :=
  fun s => (Returns tt, mkState (conn s) (emit (EvClose fd) (world s))).

Definition nanosleep {E : Type} : M (State E) unit :=
  fun s => (Returns tt, mkState (conn s) (emit EvNanosleep (world s))).

(** [select] over the interest sets built from the engine's wishes: the
    count of ready descriptors (or -1) and whether [sockfd] is left set in
    [read_fds] and in [write_fds]. *)
Definition select {E : Type} (want_read want_write : bool)
  : M (State E) (Z * bool * bool) :=
  fun s =>
    let w := world s in
    match selects w 0%nat with
    | SelectFails e =>
        (Returns (-1, false, false),
         mkState (conn s) (set_errno e (next_select w)))
    | SelectReady r wr =>
        let r' := want_read && r in
        let w' := want_write && wr in
        (Returns (Z.b2z r' + Z.b2z w', r', w'),
         mkState (conn s) (next_select w))
    end.

(** ** The program *)

Section Program.

Context {E : Type}.
Variable eng : rustls_engine E.

Local Abbreviation prog := (M (State E)).

(** [read_cb]: one [read] on the connection's socket. *)
Definition read_cb (len : Z) : prog read_cb_result :=
  c <- get_conn;;
  '(n, bytes) <- sys_read (fd c) len;;
  if n <? 0 then
    w <- get_world;;
    ret (errno w, None)
  else ret (0, Some bytes).

(** [write_cb]: one [write] on the connection's socket. *)
Definition write_cb (buf : list Z) (len : Z) : prog write_cb_result :=
  c <- get_conn;;
  n <- sys_write (fd c) buf len;;
  if n <? 0 then
    w <- get_world;;
    ret (errno w, None)
  else ret (0, Some n).

(** [rustls_connection_read_tls(rconn, read_cb, conn, &n)]: the
    [rustls_io_result] and [n]. *)
Definition rustls_connection_read_tls : prog (Z * Z) :=
  c <- get_conn;;
  cb <- match read_tls_request eng (rconn c) with
        | None => ret None
        | Some len => r <- read_cb len;; ret (Some r)
        end;;
  let '(res, e') := read_tls_finish eng (rconn c) cb in
  set_rconn e';;
  ret res.

(** [rustls_connection_write_tls(rconn, write_cb, conn, &n)]. *)
Definition rustls_connection_write_tls : prog (Z * Z) :=
  c <- get_conn;;
  cb <- match write_tls_request eng (rconn c) with
        | None => ret None
        | Some buf => r <- write_cb buf (strlen buf);; ret (Some r)
        end;;
  let '(res, e') := write_tls_finish eng (rconn c) cb in
  set_rconn e';;
  ret res.

(** [write_all(fd, buf, n)].  The loop runs at most [n] times, since every
    round takes at least one byte off [n]; [k] counts the rounds left.
    [buf] is not advanced after a short write, as in the source. *)
Fixpoint write_all_loop (k : nat) (fd : Z) (buf : list Z) (n : Z)
  : prog Z :=
  if n >? 0 then
    match k with
    | O => out_of_fuel
    | S k' =>
        m <- sys_write fd buf n;;
        if m <? 0 then
          perror DiagPerrorStdout;;
          ret 1
        else if m =? 0 then
          fprintf_stderr DiagEarlyEofStdout;;
          ret 1
        else write_all_loop k' fd buf (n - m)
    end
  else ret 0.

Definition write_all (fd : Z) (buf : list Z) (n : Z) : prog Z :=
  write_all_loop (Z.to_nat n) fd buf n.

(** One round of the [for(;;)] of [copy_plaintext_to_buffer]; [again] is
    the next round.  The engine cannot put more than [avail] bytes into a
    destination of [avail] bytes, so the bytes it returns are cut at
    [avail]. *)
Definition copy_plaintext_round (again : prog crustls_demo_result)
  : prog crustls_demo_result :=
  c <- get_conn;;
  let off := Z.to_nat (data_len c) in
  let avail := size_sub (size_sub (data_capacity c) (data_len c)) 1 in
  let '((result, bytes), e') := rustls_connection_read eng (rconn c) avail in
  let bytes := firstn (Z.to_nat avail) bytes in
  let n := Z.of_nat (length bytes) in
  set_rconn e';;
  match store_bytes (data_from_client c) off bytes with
  | None => fault
  | Some mem =>
      set_data_from_client mem;;
      if rustls_result_eqb result RUSTLS_RESULT_ALERT_CLOSE_NOTIFY then
        fprintf_stderr DiagReceivedCloseNotify;;
        ret CRUSTLS_DEMO_CLOSE_NOTIFY
      else if negb (rustls_result_eqb result RUSTLS_RESULT_OK) then
        fprintf_stderr DiagErrorInRead;;
        ret CRUSTLS_DEMO_ERROR
      else if n =? 0 then ret CRUSTLS_DEMO_OK
      else
        set_data_len (size_add (data_len c) n);;
        result <- write_all STDOUT_FILENO (load_from mem off)
                            (int_of_size_t n);;
        if negb (result =? 0) then ret CRUSTLS_DEMO_ERROR
        else again
  end.

(** The [for(;;)] itself.  Every round that goes on takes at least one
    byte off [avail]; [k] counts the rounds left. *)
Fixpoint copy_plaintext_loop (k : nat) : prog crustls_demo_result :=
  copy_plaintext_round
    match k with
    | O => out_of_fuel
    | S k' => copy_plaintext_loop k'
    end.

(** [copy_plaintext_to_buffer]. *)
Definition copy_plaintext_to_buffer : prog crustls_demo_result :=
  c <- get_conn;;
  (if size_sub (data_capacity c) (data_len c) <? 1024 then
     p <- realloc (data_from_client c) (size_mul (data_capacity c) 2);;
     match p with
     | None => fprintf_stderr DiagOutOfMemory;; abort
     | Some mem => set_data_from_client mem
     end
   else ret tt);;
  c <- get_conn;;
  copy_plaintext_loop
    (Z.to_nat (size_sub (size_sub (data_capacity c) (data_len c)) 1)).

(** [do_read]. *)
Definition do_read : prog crustls_demo_result :=
  '(err, n) <- rustls_connection_read_tls;;
  if (err =? EAGAIN) || (err =? EWOULDBLOCK) then
    fprintf_stderr DiagReadAgain;;
    ret CRUSTLS_DEMO_AGAIN
  else if negb (err =? 0) then
    fprintf_stderr (DiagReadErrno err);;
    ret CRUSTLS_DEMO_ERROR
  else if n =? 0 then ret CRUSTLS_DEMO_EOF
  else
    fprintf_stderr (DiagReadBytes n);;
    c <- get_conn;;
    let '(result, e') :=
      rustls_connection_process_new_packets eng (rconn c) in
    set_rconn e';;
    if negb (rustls_result_eqb result RUSTLS_RESULT_OK) then
      fprintf_stderr (DiagProcessNewPackets result);;
      ret CRUSTLS_DEMO_ERROR
    else
      result <- copy_plaintext_to_buffer;;
      if negb (demo_result_eqb result CRUSTLS_DEMO_CLOSE_NOTIFY) then
        fprintf_stderr (DiagDoReadReturning result);;
        ret result
      else
        c <- get_conn;;
        '(r, _) <- sys_read (fd c) 2048;;
        let n := size_t_of_ssize_t r in
        w <- get_world;;
        if negb (n =? 0) && negb (errno w =? EWOULDBLOCK) then
          fprintf_stderr (DiagReadAfterCloseNotify n);;
          ret CRUSTLS_DEMO_ERROR
        else ret CRUSTLS_DEMO_CLOSE_NOTIFY.

(** [request_is_finished]. *)
Definition request_is_finished : prog bool :=
  c <- get_conn;;
  match store_bytes (data_from_client c) (Z.to_nat (data_len c)) [0] with
  | None => fault
  | Some mem =>
      set_data_from_client mem;;
      ret (strstr_found mem double_crlf)
  end.

(** [send_response]. *)
Definition send_response : prog unit :=
  c <- get_conn;;
  let '((_, n), e') :=
    rustls_connection_write eng (rconn c) response in
  set_rconn e';;
  on_world (emit (EvEngineWrite response));;
  if negb (n =? strlen response) then
    fprintf_stderr (DiagFailedResponse n);;
    abort
  else ret tt.

(** The inner [for(;;)] of [handle_conn]: read cycles until the socket
    would block.  [None] is the [break]; [Some ret] is [goto cleanup] with
    that value in [ret]. *)
Fixpoint handle_conn_read_cycles (fuel : nat) : prog (option Z) :=
  match fuel with
  | O => out_of_fuel
  | S fuel' =>
      result <- do_read;;
      match result with
      | CRUSTLS_DEMO_AGAIN => ret None
      | CRUSTLS_DEMO_CLOSE_NOTIFY => ret (Some 0)
      | CRUSTLS_DEMO_OK => handle_conn_read_cycles fuel'
      | _ => ret (Some 1)
      end
  end.

(** The [if(FD_ISSET(sockfd, &write_fds))] block: [true] is
    [goto cleanup]. *)
Definition handle_conn_write_ready : prog bool :=
  fprintf_stderr DiagWantsWrite;;
  '(err, n) <- rustls_connection_write_tls;;
  if negb (err =? 0) then
    fprintf_stderr (DiagErrorWriteTls err);;
    ret true
  else if n =? 0 then
    fprintf_stderr DiagEofWriteTls;;
    ret true
  else ret false.

(** The last statement of the loop body: the reply, once. *)
Definition handle_conn_reply (state : exchange_state) : prog exchange_state :=
  match state with
  | SENT_RESPONSE => ret SENT_RESPONSE
  | READING_REQUEST =>
      finished <- request_is_finished;;
      if finished then
        fprintf_stderr DiagWritingResponse;;
        send_response;;
        ret SENT_RESPONSE
      else ret READING_REQUEST
  end.

(** The outer [for(;;)] of [handle_conn], up to [cleanup]: the values of
    [ret] and [state] on reaching the label. *)
Fixpoint handle_conn_loop (fuel : nat) (state : exchange_state)
  : prog (Z * exchange_state) :=
  match fuel with
  | O => out_of_fuel
  | S fuel' =>
      c <- get_conn;;
      '(result, readable, writable) <-
        select (rustls_connection_wants_read eng (rconn c))
               (rustls_connection_wants_write eng (rconn c));;
      if result =? -1 then
        perror DiagPerrorSelect;;
        ret (1, state)
      else
        (if result =? 0 then fprintf_stderr DiagNoFds;; nanosleep
         else ret tt);;
        r <- (if readable then
                fprintf_stderr DiagWantsRead;;
                handle_conn_read_cycles fuel'
              else ret None);;
        match r with
        | Some v => ret (v, state)
        | None =>
            stop <- (if writable then handle_conn_write_ready
                     else ret false);;
            if stop then ret (1, state)
            else
              state' <- handle_conn_reply state;;
              handle_conn_loop fuel' state'
        end
  end.

(** [handle_conn]. *)
Definition handle_conn (fuel : nat) : prog (Z * exchange_state) :=
  c <- get_conn;;
  let sockfd := fd c in
  fprintf_stderr (DiagAccepted (fd c));;
  r <- handle_conn_loop fuel READING_REQUEST;;
  (if sockfd >? 0 then close sockfd else ret tt);;
  ret r.

End Program.

(** ** The accept loop of [main] *)

(** The outcomes of the successive calls of [accept], [fcntl],
    [rustls_server_connection_new] (with the engine it makes) and
    [pthread_create]. *)
Record Listener (E : Type) : Type := mkListener {
  accepts : nat -> Z;
  fcntls : nat -> Z;
  sessions : nat -> rustls_result * E;
  pthread_creates : nat -> Z
}.

Arguments mkListener {E}.
Arguments accepts {E}.
Arguments fcntls {E}.
Arguments sessions {E}.
Arguments pthread_creates {E}.

(** [m_rconn] is the variable [rconn] of [main]: the number of the engine
    it points to, [None] for [NULL].  Engines are numbered in the order of
    their creation; [m_created] counts them. *)
Record MainState (E : Type) : Type := mkMain {
  m_world : World;
  m_listener : Listener E;
  m_rconn : option nat;
  m_created : nat
}.

Arguments mkMain {E}.
Arguments m_world {E}.
Arguments m_listener {E}.
Arguments m_rconn {E}.
Arguments m_created {E}.

Section Main.

Context {E : Type}.
Variable eng : rustls_engine E.

Local Abbreviation mainprog := (M (MainState E)).

Definition main_emit (e : event) : mainprog unit :=
  fun ms =>
    (Returns tt,
     mkMain (emit e (m_world ms)) (m_listener ms) (m_rconn ms)
            (m_created ms)).

Definition accept : mainprog Z :=
  fun ms =>
    let l := m_listener ms in
    (Returns (accepts l 0%nat),
     mkMain (m_world ms)
            (mkListener (tail_of (accepts l)) (fcntls l) (sessions l)
                        (pthread_creates l))
            (m_rconn ms) (m_created ms)).

Definition fcntl : mainprog Z :=
  fun ms =>
    let l := m_listener ms in
    (Returns (fcntls l 0%nat),
     mkMain (m_world ms)
            (mkListener (accepts l) (tail_of (fcntls l)) (sessions l)
                        (pthread_creates l))
            (m_rconn ms) (m_created ms)).

(** [nonblock] (the branch without [_WIN32]). *)
Definition nonblock : mainprog crustls_demo_result :=
  flags <- fcntl;;
  if flags <? 0 then
    main_emit (EvStderr DiagPerrorGetFlags);;
    ret CRUSTLS_DEMO_ERROR
  else
    flags <- fcntl;;
    if flags <? 0 then
      main_emit (EvStderr DiagPerrorSetNonblocking);;
      ret CRUSTLS_DEMO_ERROR
    else ret CRUSTLS_DEMO_OK.

(** [rustls_server_connection_new(server_config, &rconn)]: on success
    [rconn] points to a new engine. *)
Definition rustls_server_connection_new : mainprog (rustls_result * E) :=
  fun ms =>
    let l := m_listener ms in
    let '(result, e) := sessions l 0%nat in
    let l' := mkListener (accepts l) (fcntls l) (tail_of (sessions l))
                         (pthread_creates l) in
    if rustls_result_eqb result RUSTLS_RESULT_OK then
      (Returns (result, e),
       mkMain (emit (EvConnectionNew (m_created ms)) (m_world ms)) l'
              (Some (m_created ms)) (S (m_created ms)))
    else
      (Returns (result, e),
       mkMain (m_world ms) l' (m_rconn ms) (m_created ms)).

(** [pthread_create(&thrd, NULL, handle_conn, conndata)] followed by
    [pthread_join(thrd, NULL)]: when the thread is created, [handle_conn]
    runs to its end before [main] goes on. *)
Definition pthread_create_join (fuel : nat) (c : conndata_t E)
  : mainprog Z :=
  fun ms =>
    let l := m_listener ms in
    let l' := mkListener (accepts l) (fcntls l) (sessions l)
                         (tail_of (pthread_creates l)) in
    let r := pthread_creates l 0%nat in
    if negb (r =? 0) then
      (Returns r, mkMain (m_world ms) l' (m_rconn ms) (m_created ms))
    else
      let '(o, s') := handle_conn eng fuel (mkState c (m_world ms)) in
      let ms' := mkMain (world s') l' (m_rconn ms) (m_created ms) in
      match o with
      | Returns _ => (Returns 0, ms')
      | Aborts => (Aborts, ms')
      | Faults => (Faults, ms')
      | OutOfFuel => (OutOfFuel, ms')
      end.

(** The [while (true)] of [main], up to [cleanup]: the value of [ret]
    there. *)
Fixpoint accept_loop (fuel : nat) (ret_var : Z) : mainprog Z :=
  match fuel with
  | O => out_of_fuel
  | S fuel' =>
      clientfd <- accept;;
      if clientfd <? 0 then
        main_emit (EvStderr DiagPerrorAccept);;
        ret ret_var
      else
        nonblock;;
        '(result, e) <- rustls_server_connection_new;;
        if negb (rustls_result_eqb result RUSTLS_RESULT_OK) then
          main_emit (EvStderr (DiagMakingSession result));;
          ret ret_var
        else
          r <- pthread_create_join fuel'
                 (mkConn clientfd e (repeat 0 2048%nat) 0 2048);;
          if negb (r =? 0) then
            main_emit (EvStderr (DiagPthreadCreate r));;
            ret r
          else accept_loop fuel' r
  end.

(** [main] from the accept loop on: the loop, then [cleanup]. *)
Definition main_serve (fuel : nat) : mainprog Z :=
  r <- accept_loop fuel 1;;
  main_emit EvServerConfigFree;;
  ms <- (fun ms => (Returns ms, ms));;
  main_emit (EvConnectionFree (m_rconn ms));;
  ret r.

End Main.

(** ** A stand-in engine *)

Module Loopback.

(** Modelled from the spec: the engine is an external collaborator behind
    the capability interface of section 4.2, and the core is to be run
    against a stand-in that implements that interface.  This one has a
    trivial record layer without any cipher: a record is a length byte
    followed by that many payload bytes, and a record of length 0 is the
    close-notify alert.  [read_tls] and [write_tls] pass a failure of the
    raw callback on as their own result; [process_new_packets] turns the
    complete records received into plaintext and keeps a partial record
    for later; [rustls_connection_read] drains plaintext, returns 0 bytes
    when there is none for now and reports the close-notify once the
    plaintext before it is drained. *)
Record engine_state : Type := mkLoop {
  inbox : list Z;      (* raw bytes received, not yet processed *)
  plaintext : list Z;  (* decrypted bytes not yet read by the program *)
  closing : bool;      (* a close-notify record has been processed *)
  outbox : list Z      (* raw bytes to send *)
}.

Definition fresh : engine_state := mkLoop [] [] false [].

(** One record carrying [payload] (at most 255 bytes). *)
Definition seal (payload : list Z) : list Z :=
  Z.of_nat (length payload) :: payload.

Definition close_notify_record : list Z := [0].

(** Splits [raw] into the payloads of its complete records, whether a
    close-notify was met, and the bytes left over. *)
Fixpoint open_records (k : nat) (raw : list Z) : list Z * bool * list Z :=
  match k, raw with
  | S k', len :: rest =>
      if len =? 0 then ([], true, rest)
      else if (Z.to_nat len <=? length rest)%nat then
        let '(plain, closed, leftover) :=
          open_records k' (skipn (Z.to_nat len) rest) in
        (firstn (Z.to_nat len) rest ++ plain, closed, leftover)
      else ([], false, raw)
  | _, _ => ([], false, raw)
  end.

(** Modelled from the spec: the operations of section 4.2 on the state
    above. *)
Definition engine : rustls_engine engine_state := {|
  rustls_connection_wants_read :=
    fun e => negb (closing e) && (length (plaintext e) =? 0)%nat;
  rustls_connection_wants_write :=
    fun e => negb (length (outbox e) =? 0)%nat;
  read_tls_request := fun _ => Some 4096;
  read_tls_finish := fun e cb =>
    match cb with
    | Some (0, Some bytes) =>
        ((0, Z.of_nat (length bytes)),
         mkLoop (inbox e ++ bytes) (plaintext e) (closing e) (outbox e))
    | Some (err, _) => ((err, 0), e)
    | None => ((0, 0), e)
    end;
  rustls_connection_process_new_packets := fun e =>
    if closing e then (RUSTLS_RESULT_OK, e)
    else
      let '(plain, closed, leftover) :=
        open_records (length (inbox e)) (inbox e) in
      (RUSTLS_RESULT_OK,
       mkLoop leftover (plaintext e ++ plain) closed (outbox e));
  rustls_connection_read := fun e count =>
    match plaintext e with
    | [] =>
        ((if closing e then RUSTLS_RESULT_ALERT_CLOSE_NOTIFY
          else RUSTLS_RESULT_OK, []), e)
    | _ :: _ =>
        ((RUSTLS_RESULT_OK, firstn (Z.to_nat count) (plaintext e)),
         mkLoop (inbox e) (skipn (Z.to_nat count) (plaintext e))
                (closing e) (outbox e))
    end;
  rustls_connection_write := fun e bytes =>
    ((RUSTLS_RESULT_OK, Z.of_nat (length bytes)),
     mkLoop (inbox e) (plaintext e) (closing e) (outbox e ++ seal bytes));
  write_tls_request := fun e =>
    match outbox e with
    | [] => None
    | _ :: _ => Some (outbox e)
    end;
  write_tls_finish := fun e cb =>
    match cb with
    | Some (0, Some n) =>
        ((0, n),
         mkLoop (inbox e) (plaintext e) (closing e)
                (skipn (Z.to_nat n) (outbox e)))
    | Some (err, _) => ((err, 0), e)
    | None => ((0, 0), e)
    end
|}.

(** The outcomes of successive calls, from a list; [d] once it is used
    up. *)
Definition script {A : Type} (l : list A) (d : A) : nat -> A :=
  fun i => nth i l d.

(** The connection as [main] sets it up. *)
Definition new_conn (fd : Z) : conndata_t engine_state :=
  mkConn fd fresh (repeat 0 2048%nat) 0 2048.

End Loopback.

(** ** Notions used in the statements *)

(** [hoare P m Q]: from a state in [P], whatever way [m] ends, its outcome
    and final state are in [Q]. *)
Definition hoare {S A : Type} (P : S -> Prop) (m : M S A)
  (Q : outcome A -> S -> Prop) : Prop :=
  forall s, P s -> Q (fst (m s)) (snd (m s)).

(** [preserves I m]: [I] holds after [m], however it ends. *)
Definition preserves {S A : Type} (I : S -> Prop) (m : M S A) : Prop :=
  hoare I m (fun _ s => I s).

(** [sound I m]: moreover [m] never stores outside an allocation. *)
Definition sound {S A : Type} (I : S -> Prop) (m : M S A) : Prop :=
  hoare I m (fun o s => I s /\ o <> Faults).

(** The outcome of the first part of a [bind], seen from the whole. *)
Definition passed {A B : Type} (o : outcome A) : outcome B :=
  match o with
  | Returns _ => OutOfFuel
  | Aborts => Aborts
  | Faults => Faults
  | OutOfFuel => OutOfFuel
  end.

(** The accumulator is well formed for the tracked capacity [cap]: the
    length is below the capacity and the capacity within the block. *)
Definition acc_ok {E : Type} (cap : Z) (s : State E) : Prop :=
  data_capacity (conn s) = cap /\
  0 <= data_len (conn s) < cap /\
  cap <= Z.of_nat (length (data_from_client (conn s))) /\
  cap * 2 < SIZE_MODULUS.

(** The accumulated bytes: the first [data_len] bytes of the block. *)
Definition accumulated {E : Type} (c : conndata_t E) : list Z :=
  firstn (Z.to_nat (data_len c)) (data_from_client c).

(** [occurs pat l]: [pat] is a contiguous part of [l]. *)
Definition occurs (pat l : list Z) : Prop :=
  exists before after, l = before ++ pat ++ after.

(** The bytes of [l] before its first NUL (all of [l] without one). *)
Fixpoint until_nul (l : list Z) : list Z :=
  match l with
  | [] => []
  | c :: l' => if c =? 0 then [] else c :: until_nul l'
  end.

(** The replies handed to the engine so far. *)
Definition is_reply (e : event) : bool :=
  match e with
  | EvEngineWrite _ => true
  | _ => false
  end.

Definition replies (w : World) : nat :=
  length (filter is_reply (trace w)).

(** Events that end the life of a resource. *)
Definition is_release (e : event) : bool :=
  match e with
  | EvClose _ | EvConnectionFree _ | EvServerConfigFree => true
  | _ => false
  end.

(** [grown ok t0 w]: the trace of [w] is [t0] with events in [ok] put in
    front. *)
Definition grown (ok : event -> bool) (t0 : list event) (w : World) : Prop :=
  exists evs, trace w = evs ++ t0 /\ forallb ok evs = true.

(** A computation that leaves the connection data alone and cannot
    fault. *)
Definition world_only {E A : Type} (m : M (State E) A) : Prop :=
  forall s, conn (snd (m s)) = conn s /\ fst (m s) <> Faults.

(** The engines [main] has made, seen from its variable [rconn]: it points
    to the last one. *)
Definition last_engine (created : nat) : option nat :=
  match created with
  | O => None
  | Datatypes.S k => Some k
  end.

Definition is_free (e : event) : bool :=
  match e with
  | EvConnectionFree _ | EvServerConfigFree => true
  | _ => false
  end.

Definition is_new_or_release (e : event) : bool :=
  match e with
  | EvConnectionNew _ => true
  | _ => is_release e
  end.

Definition quiet (e : event) : bool := negb (is_reply e).
Definition keeps (e : event) : bool := negb (is_release e).
Definition frees_nothing (e : event) : bool := negb (is_free e).

(** What may be said of the replies after a step that started with [n] of
    them in state [state]. *)
Definition reply_post {E : Type} (n : nat) (state : exchange_state)
  (o : outcome (Z * exchange_state)) (s : State E) : Prop :=
  match state with
  | SENT_RESPONSE =>
      replies (world s) = n /\
      match o with
      | Returns (_, state') => state' = SENT_RESPONSE
      | _ => True
      end
  | READING_REQUEST =>
      (replies (world s) <= n + 1)%nat /\
      match o with
      | Returns (_, state') =>
          replies (world s) =
          (n + match state' with
               | SENT_RESPONSE => 1
               | READING_REQUEST => 0
               end)%nat
      | _ => (n <= replies (world s))%nat
      end
  end.

(** The state [s] with one more line on the diagnostic stream. *)
Definition logged {E : Type} (d : diag) (s : State E) : State E :=
  mkState (conn s) (emit (EvStderr d) (world s)).

(** What holds of [main] all along its accept loop: since the trace was
    [t0] nothing has been freed, and [rconn] points to the engine made
    last. *)
Definition main_inv {E : Type} (t0 : list event) (ms : MainState E) : Prop :=
  grown frees_nothing t0 (m_world ms) /\
  m_rconn ms = last_engine (m_created ms).

(** ** Concrete runs *)

Module Scenario.

Import Loopback.

(** [n] bytes without a NUL, all different from their neighbours. *)
Definition ramp (n : nat) : list Z :=
  map (fun i => Z.of_nat (i mod 250) + 1) (seq 0 n).

(** The first [k] records of [size] payload bytes cut from [l]. *)
Fixpoint records (k size : nat) (l : list Z) : list Z :=
  match k with
  | O => []
  | Datatypes.S k' =>
      seal (firstn size l) ++ records k' size (skipn size l)
  end.

(** A world given by what the socket delivers, what the socket and the
    sink accept; once a list is used up the socket would block and the
    writes are accepted whole. *)
Definition world_with (reads : list read_outcome)
  (socket_accepts sink_accepts : list write_outcome) : World :=
  mkWorld 0
          (script reads (ReadFails EAGAIN))
          (script socket_accepts (WriteTakes 4096))
          (script sink_accepts (WriteTakes 4096))
          (fun _ => SelectReady true true)
          (fun _ => Some [])
          [].

Definition start (w : World) : State engine_state :=
  mkState (new_conn 4) w.

(** ["GET / HTTP/1.1\r\nHost: x\r\n\r\n"]. *)
Definition get_request : list Z :=
  bytes_of_string "GET / HTTP/1.1"%string ++ [CR; LF] ++
  bytes_of_string "Host: x"%string ++ double_crlf.

(** 2100 bytes of plaintext in ten records, delivered in two raw reads
    (the first ends inside a record) with a would-block in between. *)
Definition long_plaintext : list Z := ramp 2100.
Definition long_wire : list Z := records 10 210 long_plaintext.
Definition long_start : State engine_state :=
  start (world_with [ReadGives (firstn 1000 long_wire);
                     ReadFails EAGAIN;
                     ReadGives (skipn 1000 long_wire)] [] []).

(** 1100 bytes of plaintext, a would-block, then one more byte. *)
Definition growth_start : State engine_state :=
  start (world_with [ReadGives (records 5 220 (ramp 1100));
                     ReadFails EAGAIN;
                     ReadGives (seal [98])] [] []).

(** The accumulator as it is when the second drain of [growth_start]
    begins: 1100 bytes held, 948 free. *)
Definition growth_second_drain : State engine_state :=
  mkState (mkConn 4 (mkLoop [] [98] false [])
                  (ramp 1100 ++ repeat 0 948%nat) 1100 2048)
          (world_with [] [] []).

(** The request, a would-block, then the close-notify; after it the peer
    either closes or sends three more bytes. *)
Definition close_then_eof : State engine_state :=
  start (world_with [ReadGives (seal get_request); ReadFails EAGAIN;
                     ReadGives close_notify_record; ReadGives []] [] []).
Definition close_then_bytes : State engine_state :=
  start (world_with [ReadGives (seal get_request); ReadFails EAGAIN;
                     ReadGives close_notify_record;
                     ReadGives [1; 2; 3]] [] []).

(** The same traffic from the peer, but the request and the close-notify
    arrive in one read, so no read has failed before. *)
Definition close_then_bytes_at_once : State engine_state :=
  start (world_with [ReadGives (seal get_request ++ close_notify_record);
                     ReadGives [1; 2; 3]] [] []).

(** The request; then the socket would block on the write of the reply,
    or accepts no byte of it. *)
Definition write_would_block : State engine_state :=
  start (world_with [ReadGives (seal get_request)] [WriteFails EAGAIN] []).
Definition write_takes_nothing : State engine_state :=
  start (world_with [ReadGives (seal get_request)] [WriteTakes 0] []).

(** Nothing to read yet; and the reply waiting to be flushed when the
    socket would block on the write. *)
Definition idle : State engine_state := start (world_with [] [] []).
Definition reply_pending : State engine_state :=
  mkState (mkConn 4 (mkLoop [] [] false (seal response))
                  (repeat 0 2048%nat) 0 2048)
          (world_with [] [WriteFails EAGAIN] []).

(** The request, with a sink that works and with a sink that fails. *)
Definition sink_works : State engine_state :=
  start (world_with [ReadGives (seal get_request)] [] []).
Definition sink_fails : State engine_state :=
  start (world_with [ReadGives (seal get_request)] [] [WriteFails 32]).

(** The request decrypted and waiting in the engine, with a sink that
    fails. *)
Definition sink_fails_drain : State engine_state :=
  mkState (mkConn 4 (mkLoop [] get_request false [])
                  (repeat 0 2048%nat) 0 2048)
          (world_with [] [] [WriteFails 32]).

(** A request that follows a NUL byte. *)
Definition nul_request : list Z := 0 :: get_request.
Definition nul_start : State engine_state :=
  start (world_with [ReadGives (seal nul_request)] [] []).
Definition nul_accumulated : State engine_state :=
  mkState (mkConn 4 fresh (nul_request ++ repeat 0 2020%nat) 28 2048)
          (world_with [] [] []).

(** Two connections one after the other, then [accept] fails. *)
Definition two_connections : MainState engine_state :=
  mkMain (world_with [ReadGives (seal get_request); ReadFails EAGAIN;
                      ReadGives close_notify_record; ReadGives [];
                      ReadGives []] [] [])
         (mkListener (script [4; 5] (-1)) (fun _ => 0)
                     (fun _ => (RUSTLS_RESULT_OK, fresh)) (fun _ => 0))
         None 0%nat.

End Scenario.

(** ** Notions used in the further properties *)

(** The accumulator is well formed and holds [a0] followed by whatever
    was appended since. *)
Definition acc_grows {E : Type} (cap : Z) (a0 : list Z) (s : State E)
  : Prop :=
  acc_ok cap s /\ exists x, accumulated (conn s) = a0 ++ x.

(** The accumulator is well formed and, if a reply was written since
    there were [n0] of them, holds the terminator in its C string. *)
Definition justified {E : Type} (cap : Z) (n0 : nat) (s : State E) : Prop :=
  acc_ok cap s /\
  (replies (world s) = n0 \/
   occurs double_crlf (until_nul (accumulated (conn s)))).

(** Events other than a plaintext write of something else than the fixed
    response. *)
Definition only_response (e : event) : bool :=
  match e with
  | EvEngineWrite b =>
      if list_eq_dec Z.eq_dec b response then true else false
  | _ => true
  end.

(** The event [e] is among those put in front of [t0] in the trace. *)
Definition seen_since (e : event) (t0 : list event) (w : World) : Prop :=
  exists evs, trace w = evs ++ t0 /\ In e evs.

Definition any_event (e : event) : bool := true.

(** The results [copy_plaintext_to_buffer] documents. *)
Definition drain_result (r : crustls_demo_result) : Prop :=
  r = CRUSTLS_DEMO_OK \/ r = CRUSTLS_DEMO_ERROR \/
  r = CRUSTLS_DEMO_CLOSE_NOTIFY.

(** What [write_all] may put on the trace when it forwards [buf]: a write
    to the sink of the first [k] bytes of [buf], or one of its two error
    lines. *)
Definition forwards_prefix (buf : list Z) (bound : Z) (e : event) : Prop :=
  match e with
  | EvStdout b => exists k, 0 <= k <= bound /\ b = firstn (Z.to_nat k) buf
  | EvStderr DiagPerrorStdout | EvStderr DiagEarlyEofStdout => True
  | _ => False
  end.

(** The number of bytes the sink has taken in these events. *)
Fixpoint sink_total (evs : list event) : Z :=
  match evs with
  | [] => 0
  | EvStdout b :: evs' => Z.of_nat (length b) + sink_total evs'
  | _ :: evs' => sink_total evs'
  end.

(** What [do_read] makes of the read that follows a close-notify, given
    the outcome of that read and the value [errno] had before it. *)
Definition half_close_verdict (o : read_outcome) (errno_before : Z)
  : crustls_demo_result :=
  match o with
  | ReadFails e =>
      if e =? EWOULDBLOCK then CRUSTLS_DEMO_CLOSE_NOTIFY
      else CRUSTLS_DEMO_ERROR
  | ReadGives bytes =>
      if (length (firstn 2048 bytes) =? 0)%nat
         || (errno_before =? EWOULDBLOCK)
      then CRUSTLS_DEMO_CLOSE_NOTIFY
      else CRUSTLS_DEMO_ERROR
  end.

(** ** More concrete runs *)

Module Scenario2.

Import Loopback.

(** A close-notify is all the peer sends before it closes. *)
Definition only_close_notify : State engine_state :=
  Scenario.start
    (Scenario.world_with [ReadGives close_notify_record; ReadGives []]
                         [] []).

End Scenario2.

(** ** The start of [main] *)

(** A stream opened for reading: either all of its bytes can be read, or
    reading fails with an errno once a prefix has been delivered. *)
Inductive stream : Type :=
| Readable (contents : list Z)
| FailsAfter (prefix : list Z) (e : Z).

Inductive fopen_outcome : Type :=
| FopenFails (e : Z)
| FopenGives (f : stream).

(** A call that returns -1 and sets [errno], or returns a value. *)
Inductive call_outcome : Type :=
| CallFails (e : Z)
| CallGives (v : Z).

(** What [main] does before it serves, newest first. *)
Inductive setup_event : Type :=
| SetupBuilderNew
| SetupLoggerInit
| SetupUsage
| SetupFopen (name : string)
| SetupStrerror (e : Z)
| SetupPrintError (r : rustls_result)
| SetupSetCertifiedKeys
| SetupConfigBuild
| SetupSocket
| SetupMakingSocket (e : Z)
| SetupBind (sockfd : Z)
| SetupPerrorBind
| SetupListen (sockfd : Z)
| SetupPerrorListen
| SetupListening.

Record Boot : Type := mkBoot {
  b_errno : Z;
  b_log : list setup_event
}.

Definition boot_log (e : setup_event) : M Boot unit :=
  fun b => (Returns tt, mkBoot (b_errno b) (e :: b_log b)).

(** [fopen(filename, "r")]: [None] is the null pointer. *)
Definition fopen (fs : string -> fopen_outcome) (filename : string)
  : M Boot (option stream) :=
  fun b =>
    match fs filename with
    | FopenFails e => (Returns None, mkBoot e (b_log b))
    | FopenGives f =>
        (Returns (Some f), mkBoot (b_errno b) (SetupFopen filename :: b_log b))
    end.

(** [fread(buf, 1, buflen, f)] on a stream just opened: the bytes stored
    in [buf] (their number is the result) and the end-of-file indicator
    left on the stream.  The indicator is set when the read ran into the
    end of the file, not when it stopped because [buf] was full or because
    reading failed. *)
Definition fread (f : stream) (buflen : Z) : M Boot (list Z * bool) :=
  fun b =>
    let want := Z.to_nat buflen in
    match f with
    | Readable contents =>
        (Returns (firstn want contents, (length contents <? want)%nat), b)
    | FailsAfter prefix e =>
        (Returns (firstn want prefix, false),
         if (length prefix <? want)%nat then mkBoot e (b_log b) else b)
    end.

(** [read_file(filename, buf, buflen, &n)]: the result and the bytes left
    in [buf]; [*n] is their number. *)
Definition read_file (fs : string -> fopen_outcome) (filename : string)
  (buflen : Z) : M Boot (crustls_demo_result * list Z) :=
  f <- fopen fs filename;;
  match f with
  | None =>
      b <- (fun b => (Returns b, b));;
      boot_log (SetupStrerror (b_errno b));;
      ret (CRUSTLS_DEMO_ERROR, [])
  | Some f =>
      '(bytes, eof) <- fread f buflen;;
      if negb eof then
        b <- (fun b => (Returns b, b));;
        boot_log (SetupStrerror (b_errno b));;
        ret (CRUSTLS_DEMO_ERROR, bytes)
      else ret (CRUSTLS_DEMO_OK, bytes)
  end.

(** What [main] is started with and what its calls return before the
    accept loop: the arguments, the files, the parser of certificate and
    key, and the outcomes of [socket], [bind] and [listen]. *)
Record Setup : Type := mkSetup {
  argc : Z;
  certfile : string;
  keyfile : string;
  files : string -> fopen_outcome;
  rustls_certified_key_build : list Z -> list Z -> rustls_result;
  socket_outcome : call_outcome;
  bind_outcome : Z -> call_outcome;
  listen_outcome : Z -> call_outcome
}.

Record Process (E : Type) : Type := mkProcess {
  p_serving : MainState E;
  p_log : list setup_event
}.

Arguments mkProcess {E}.
Arguments p_serving {E}.
Arguments p_log {E}.

Definition call_value (o : call_outcome) : Z :=
  match o with
  | CallFails _ => -1
  | CallGives v => v
  end.

Section Startup.

Context {E : Type}.
Variable eng : rustls_engine E.

Local Abbreviation proc := (M (Process E)).

Definition with_errno (e : Z) (p : Process E) : Process E :=
  let ms := p_serving p in
  mkProcess (mkMain (set_errno e (m_world ms)) (m_listener ms) (m_rconn ms)
                    (m_created ms))
            (p_log p).

(** A computation of the start of [main], on [errno] and the log. *)
Definition in_boot {A : Type} (m : M Boot A) : proc A :=
  fun p =>
    let '(o, b) := m (mkBoot (errno (m_world (p_serving p))) (p_log p)) in
    let p' := with_errno (b_errno b) p in
    (o, mkProcess (p_serving p') (b_log b)).

(** A computation of the accept loop, on the serving state. *)
Definition serving {A : Type} (m : M (MainState E) A) : proc A :=
  fun p =>
    let '(o, ms) := m (p_serving p) in
    (o, mkProcess ms (p_log p)).

Definition setup_log (e : setup_event) : proc unit :=
  in_boot (boot_log e).

Definition sys_call (o : call_outcome) : proc Z :=
  fun p =>
    match o with
    | CallFails e => (Returns (-1), with_errno e p)
    | CallGives v => (Returns v, p)
    end.

Definition get_errno : proc Z :=
  fun p => (Returns (errno (m_world (p_serving p))), p).

(** The label [cleanup] of [main]. *)
Definition main_cleanup (r : Z) : M (MainState E) Z :=
  main_emit EvServerConfigFree;;
  ms <- (fun ms => (Returns ms, ms));;
  main_emit (EvConnectionFree (m_rconn ms));;
  ret r.

(** [main]. *)
Definition main (su : Setup) (fuel : nat) : proc Z :=
  setup_log SetupBuilderNew;;
  setup_log SetupLoggerInit;;
  if argc su <=? 2 then
    setup_log SetupUsage;;
    serving (main_cleanup 1)
  else
    '(result, certbuf) <- in_boot (read_file (files su) (certfile su) 10000);;
    if negb (demo_result_eqb result CRUSTLS_DEMO_OK) then
      serving (main_cleanup 1)
    else
      '(result, keybuf) <- in_boot (read_file (files su) (keyfile su) 10000);;
      if negb (demo_result_eqb result CRUSTLS_DEMO_OK) then
        serving (main_cleanup 1)
      else
        let result := rustls_certified_key_build su certbuf keybuf in
        if negb (rustls_result_eqb result RUSTLS_RESULT_OK) then
          setup_log (SetupPrintError result);;
          ret 1
        else
          setup_log SetupSetCertifiedKeys;;
          setup_log SetupConfigBuild;;
          setup_log SetupSocket;;
          sockfd <- sys_call (socket_outcome su);;
          (if sockfd <? 0 then
             e <- get_errno;;
             setup_log (SetupMakingSocket e)
           else ret tt);;
          setup_log (SetupBind sockfd);;
          r <- sys_call (bind_outcome su sockfd);;
          if r =? -1 then
            setup_log SetupPerrorBind;;
            serving (main_cleanup 1)
          else
            setup_log (SetupListen sockfd);;
            r <- sys_call (listen_outcome su sockfd);;
            if r =? -1 then
              setup_log SetupPerrorListen;;
              serving (main_cleanup 1)
            else
              setup_log SetupListening;;
              r <- serving (accept_loop eng fuel 1);;
              serving (main_cleanup r).

End Startup.

(** The conditions under which [main] gets to listen. *)
Definition ready (su : Setup) : Prop :=
  2 < argc su /\
  exists cert key,
    files su (certfile su) = FopenGives (Readable cert) /\
    Z.of_nat (length cert) < 10000 /\
    files su (keyfile su) = FopenGives (Readable key) /\
    Z.of_nat (length key) < 10000 /\
    rustls_certified_key_build su cert key = RUSTLS_RESULT_OK /\
    call_value (bind_outcome su (call_value (socket_outcome su))) <> -1 /\
    call_value (listen_outcome su (call_value (socket_outcome su))) <> -1.

(** The certificate and the key were read, but do not parse. *)
Definition parse_fails (su : Setup) : Prop :=
  2 < argc su /\
  exists cert key,
    files su (certfile su) = FopenGives (Readable cert) /\
    Z.of_nat (length cert) < 10000 /\
    files su (keyfile su) = FopenGives (Readable key) /\
    Z.of_nat (length key) < 10000 /\
    rustls_certified_key_build su cert key <> RUSTLS_RESULT_OK.

(** The serving state as [main] was started with it, but for [errno]: no
    connection accepted, no engine made, nothing on the trace. *)
Definition pristine {E : Type} (w : World) (l : Listener E)
  (ms : MainState E) : Prop :=
  exists e, ms = mkMain (set_errno e w) l None 0%nat.

(** A connection was accepted and handed to [handle_conn] since the trace
    was [t0]. *)
Definition served (t0 : list event) (w : World) : Prop :=
  exists fd, seen_since (EvStderr (DiagAccepted fd)) t0 w.

(** The newest line on the trace is one of the two after which the
    program calls [abort]: "out of memory", or "failed to write all
    response bytes" with a count that is not the length of the reply. *)
Definition fatal_line (w : World) : Prop :=
  match trace w with
  | EvStderr DiagOutOfMemory :: _ => True
  | EvStderr (DiagFailedResponse n) :: _ => n <> strlen response
  | _ => False
  end.

Module Scenario3.

Import Loopback.

(** [main] started with a certificate and a key that can be read and that
    parse, on a port that is free. *)
Definition good_setup : Setup :=
  mkSetup 3 "cert.pem" "key.pem"
          (fun name =>
             if String.eqb name "cert.pem" then FopenGives (Readable [45; 45])
             else if String.eqb name "key.pem" then FopenGives (Readable [45])
             else FopenFails 2)
          (fun _ _ => RUSTLS_RESULT_OK)
          (CallGives 3) (fun _ => CallGives 0) (fun _ => CallGives 0).

(** A world like [Scenario.world_with], where [realloc] fails. *)
Definition no_memory (reads : list read_outcome) : World :=
  mkWorld 0
          (script reads (ReadFails EAGAIN))
          (fun _ => WriteTakes 4096)
          (fun _ => WriteTakes 4096)
          (fun _ => SelectReady true true)
          (fun _ => None)
          [].

(** 1100 bytes are held, one more arrives, and [realloc] fails. *)
Definition out_of_memory : State engine_state :=
  mkState (mkConn 4 fresh (Scenario.ramp 1100 ++ repeat 0 948%nat) 1100 2048)
          (no_memory [ReadGives (seal [98])]).

(** A first connection asks for more than 1024 bytes to be held and
    [realloc] fails when the next bytes arrive. *)
Definition server_out_of_memory : MainState engine_state :=
  mkMain (no_memory [ReadGives (Scenario.records 5 220 (Scenario.ramp 1100));
                     ReadFails EAGAIN;
                     ReadGives (seal [98])])
         (mkListener (script [4] (-1)) (fun _ => 0)
                     (fun _ => (RUSTLS_RESULT_OK, fresh)) (fun _ => 0))
         None 0%nat.

(** The reply is waiting to be flushed, nothing is there to read, and the
    socket takes no byte of it. *)
Definition reply_stalls : State engine_state :=
  mkState (mkConn 4 (mkLoop [] [] false (seal response))
                  (repeat 0 2048%nat) 0 2048)
          (Scenario.world_with [] [WriteTakes 0] []).

End Scenario3.

(** [harmless wof m]: [m] ends in [abort] only right after one of the two
    fatal lines; [wof] gives the world of a state. *)
Definition harmless {S A : Type} (wof : S -> World) (m : M S A) : Prop :=
  hoare (fun _ => True) m (fun o s => o = Aborts -> fatal_line (wof s)).

(** ** Positions in the loop of [handle_conn] *)

(** [j] read cycles that each return [CRUSTLS_DEMO_OK] lead from [s0] to
    [s]. *)
Fixpoint ok_cycles {E : Type} (eng : rustls_engine E) (j : nat)
  (s0 s : State E) : Prop :=
  match j with
  | O => s0 = s
  | Datatypes.S j' =>
      exists s', do_read eng s0 = (Returns CRUSTLS_DEMO_OK, s') /\
                 ok_cycles eng j' s' s
  end.

(** The round of the drain that starts in [x] goes on to the next round,
    in state [y], whatever the next round is. *)
Definition round_goes_on {E : Type} (eng : rustls_engine E)
  (x y : State E) : Prop :=
  forall again, copy_plaintext_round eng again x = again y.

(** [j] rounds of the drain that each go on lead from [x] to [y]. *)
Fixpoint rounds_go_on {E : Type} (eng : rustls_engine E) (j : nat)
  (x y : State E) : Prop :=
  match j with
  | O => x = y
  | Datatypes.S j' =>
      exists z, round_goes_on eng x z /\ rounds_go_on eng j' z y
  end.

(** The round of the drain that starts in [x] returns
    [CRUSTLS_DEMO_ERROR] in state [y], whatever the next round is. *)
Definition round_fails {E : Type} (eng : rustls_engine E)
  (x y : State E) : Prop :=
  forall again,
    copy_plaintext_round eng again x = (Returns CRUSTLS_DEMO_ERROR, y).

(** [copy_plaintext_to_buffer], started in [d], is past its [realloc] step
    in [d0]: in [d] itself when 1024 bytes or more are free, with the
    reallocated block otherwise. *)
Definition drain_ready {E : Type} (d d0 : State E) : Prop :=
  let c := conn d in
  if size_sub (data_capacity c) (data_len c) <? 1024 then
    exists junk,
      reallocs (world d) 0%nat = Some junk /\
      d0 = mkState
             (mkConn (fd c) (rconn c)
                     (resized (data_from_client c)
                              (size_mul (data_capacity c) 2) junk)
                     (data_len c) (data_capacity c))
             (next_realloc (world d))
  else d0 = d.

(** The chunk the engine hands over in the round of the drain that starts
    in [x], cut at the room left, when it reports no error. *)
Definition chunk_at {E : Type} (eng : rustls_engine E) (x : State E)
  (chunk : list Z) : Prop :=
  let avail :=
    size_sub (size_sub (data_capacity (conn x)) (data_len (conn x))) 1 in
  exists bytes e',
    rustls_connection_read eng (rconn (conn x)) avail =
      ((RUSTLS_RESULT_OK, bytes), e') /\
    chunk = firstn (Z.to_nat avail) bytes.

(** The newest line on the trace is one of the two [write_all] writes when
    the sink fails or takes nothing. *)
Definition sink_complained (w : World) : Prop :=
  match trace w with
  | EvStderr DiagPerrorStdout :: _ => True
  | EvStderr DiagEarlyEofStdout :: _ => True
  | _ => False
  end.

(** The state in which [do_read] starts its drain, after [read_tls] has
    left [s1] having read [n] bytes and [process_new_packets] has left the
    engine [e']. *)
Definition drain_start {E : Type} (s1 : State E) (n : Z) (e' : E)
  : State E :=
  mkState (mkConn (fd (conn s1)) e' (data_from_client (conn s1))
                  (data_len (conn s1)) (data_capacity (conn s1)))
          (emit (EvStderr (DiagReadBytes n)) (world s1)).

(** ** Reasoning rules *)

Section Rules.

Context {S : Type}.

Lemma hoare_bind {A B : Type} (P : S -> Prop) (m : M S A) (k : A -> M S B)
  (R : A -> S -> Prop) (Q : outcome B -> S -> Prop) :
  hoare P m (fun o s =>
               match o with
               | Returns a => R a s
               | _ => Q (passed o) s
               end) ->
  (forall a, hoare (R a) (k a) Q) ->
  hoare P (bind m k) Q.
Proof.
  intros Hm Hk s Hs. specialize (Hm s Hs). unfold bind.
  destruct (m s) as [[a| | |] s1]; cbn in *; try exact Hm.
  apply Hk, Hm.
Qed.

Lemma preserves_ret {A : Type} (I : S -> Prop) (a : A) :
  preserves I (ret a).
Proof. intros s Hs. exact Hs. Qed.

Lemma preserves_bind {A B : Type} (I : S -> Prop) (m : M S A)
  (k : A -> M S B) :
  preserves I m -> (forall a, preserves I (k a)) -> preserves I (bind m k).
Proof.
  intros Hm Hk. apply hoare_bind with (R := fun _ s => I s).
  - intros s Hs. specialize (Hm s Hs). destruct (fst (m s)); exact Hm.
  - exact Hk.
Qed.

Lemma sound_ret {A : Type} (I : S -> Prop) (a : A) : sound I (ret a).
Proof. intros s Hs. split; [exact Hs | discriminate]. Qed.

Lemma sound_bind {A B : Type} (I : S -> Prop) (m : M S A)
  (k : A -> M S B) :
  sound I m -> (forall a, sound I (k a)) -> sound I (bind m k).
Proof.
  intros Hm Hk. apply hoare_bind with (R := fun _ s => I s).
  - intros s Hs. destruct (Hm s Hs) as [H1 H2].
    destruct (fst (m s)); cbn; try (split; [exact H1 | discriminate]).
    + exact H1.
    + contradiction.
  - exact Hk.
Qed.

Lemma sound_abort {A : Type} (I : S -> Prop) : sound I (@abort S A).
Proof. intros s Hs. split; [exact Hs | discriminate]. Qed.

Lemma sound_out_of_fuel {A : Type} (I : S -> Prop) :
  sound I (@out_of_fuel S A).
Proof. intros s Hs. split; [exact Hs | discriminate]. Qed.

End Rules.

(** ** Running a computation step by step *)

Section Steps.

Context {S A B : Type}.

Lemma bind_ret (a : A) (k : A -> M S B) (s : S) : bind (ret a) k s = k a s.
Proof. reflexivity. Qed.

Lemma bind_returns (m : M S A) (k : A -> M S B) (s s' : S) (a : A) :
  m s = (Returns a, s') -> bind m k s = k a s'.
Proof. intros H. unfold bind. rewrite H. reflexivity. Qed.

Lemma bind_assoc {C : Type} (m : M S A) (f : A -> M S B) (g : B -> M S C)
  (s : S) :
  bind (bind m f) g s = bind m (fun x => bind (f x) g) s.
Proof. unfold bind. destruct (m s) as [[a| | |] s1]; reflexivity. Qed.

End Steps.

Section StateSteps.

Context {E B : Type}.

Lemma bind_get_conn (k : conndata_t E -> M (State E) B) (s : State E) :
  bind get_conn k s = k (conn s) s.
Proof. reflexivity. Qed.

Lemma bind_get_world (k : World -> M (State E) B) (s : State E) :
  bind get_world k s = k (world s) s.
Proof. reflexivity. Qed.

Lemma bind_set_rconn (e : E) (k : unit -> M (State E) B) (s : State E) :
  bind (set_rconn e) k s =
  k tt (mkState (mkConn (fd (conn s)) e (data_from_client (conn s))
                        (data_len (conn s)) (data_capacity (conn s)))
                (world s)).
Proof. reflexivity. Qed.

Lemma bind_set_data_from_client (p : list Z) (k : unit -> M (State E) B)
  (s : State E) :
  bind (set_data_from_client p) k s =
  k tt (mkState (mkConn (fd (conn s)) (rconn (conn s)) p
                        (data_len (conn s)) (data_capacity (conn s)))
                (world s)).
Proof. reflexivity. Qed.

Lemma bind_set_data_len (n : Z) (k : unit -> M (State E) B) (s : State E) :
  bind (set_data_len n) k s =
  k tt (mkState (mkConn (fd (conn s)) (rconn (conn s))
                        (data_from_client (conn s)) n
                        (data_capacity (conn s)))
                (world s)).
Proof. reflexivity. Qed.

Lemma bind_fprintf_stderr (d : diag) (k : unit -> M (State E) B)
  (s : State E) :
  bind (fprintf_stderr d) k s =
  k tt (mkState (conn s) (emit (EvStderr d) (world s))).
Proof. reflexivity. Qed.

Lemma bind_perror (d : diag) (k : unit -> M (State E) B) (s : State E) :
  bind (perror d) k s =
  k tt (mkState (conn s) (emit (EvStderr d) (world s))).
Proof. reflexivity. Qed.

Lemma bind_on_world (f : World -> World) (k : unit -> M (State E) B)
  (s : State E) :
  bind (on_world f) k s = k tt (mkState (conn s) (f (world s))).
Proof. reflexivity. Qed.

Lemma bind_close (fd0 : Z) (k : unit -> M (State E) B) (s : State E) :
  bind (close fd0) k s =
  k tt (mkState (conn s) (emit (EvClose fd0) (world s))).
Proof. reflexivity. Qed.

Lemma bind_nanosleep (k : unit -> M (State E) B) (s : State E) :
  bind nanosleep k s = k tt (mkState (conn s) (emit EvNanosleep (world s))).
Proof. reflexivity. Qed.

End StateSteps.

Create Rewrite HintDb prog.

#[global] Hint Rewrite @bind_assoc @bind_ret @bind_get_conn @bind_get_world
  @bind_set_rconn @bind_set_data_from_client @bind_set_data_len
  @bind_fprintf_stderr @bind_perror @bind_on_world @bind_close
  @bind_nanosleep : prog.

Ltac run :=
  autorewrite with prog;
  cbn [conn world fd rconn data_from_client data_len data_capacity fst snd].

(** ** Arithmetic and memory facts *)

Lemma size_sub_small (a b : Z) :
  0 <= b <= a -> a < SIZE_MODULUS -> size_sub a b = a - b.
Proof.
  intros H1 H2. unfold size_sub, size_t_wrap.
  apply Z.mod_small. lia.
Qed.

Lemma size_add_small (a b : Z) :
  0 <= a -> 0 <= b -> a + b < SIZE_MODULUS -> size_add a b = a + b.
Proof.
  intros H1 H2 H3. unfold size_add, size_t_wrap.
  apply Z.mod_small. lia.
Qed.

Lemma size_mul_small (a b : Z) :
  0 <= a -> 0 <= b -> a * b < SIZE_MODULUS -> size_mul a b = a * b.
Proof.
  intros H1 H2 H3. unfold size_mul, size_t_wrap.
  apply Z.mod_small. nia.
Qed.

Lemma SIZE_MODULUS_value : SIZE_MODULUS = 18446744073709551616.
Proof. reflexivity. Qed.

Lemma store_bytes_Some (mem : list Z) (off : nat) (bytes : list Z) :
  (off + length bytes <= length mem)%nat ->
  store_bytes mem off bytes =
  Some (firstn off mem ++ bytes ++ skipn (off + length bytes) mem).
Proof.
  intros H. unfold store_bytes.
  destruct (Nat.leb_spec (off + length bytes) (length mem)); [reflexivity | lia].
Qed.

Lemma store_bytes_length (mem : list Z) (off : nat) (bytes mem' : list Z) :
  store_bytes mem off bytes = Some mem' -> length mem' = length mem.
Proof.
  unfold store_bytes.
  destruct (Nat.leb_spec (off + length bytes) (length mem)) as [H|H];
    [| discriminate].
  intros [= <-].
  rewrite !length_app, length_firstn, length_skipn. lia.
Qed.

Lemma store_bytes_prefix (mem : list Z) (off : nat) (bytes mem' : list Z) :
  store_bytes mem off bytes = Some mem' ->
  firstn (off + length bytes) mem' = firstn off mem ++ bytes.
Proof.
  unfold store_bytes.
  destruct (Nat.leb_spec (off + length bytes) (length mem)) as [H|H];
    [| discriminate].
  intros [= <-].
  rewrite app_assoc, firstn_app.
  rewrite length_app, length_firstn.
  replace (off + length bytes - (Nat.min off (length mem) + length bytes))%nat
    with 0%nat by lia.
  rewrite firstn_O, app_nil_r.
  apply firstn_all2. rewrite length_app, length_firstn. lia.
Qed.

Lemma resized_length (mem : list Z) (size : Z) (junk : list Z) :
  length (resized mem size junk) = Z.to_nat size.
Proof.
  unfold resized. rewrite length_firstn, !length_app, repeat_length. lia.
Qed.

(** ** The accumulator invariant *)

Section Accumulator.

Context {E : Type}.
Variable eng : rustls_engine E.
Variable cap : Z.

Local Abbreviation ok := (@acc_ok E cap).

Lemma world_only_sound {A : Type} (m : M (State E) A) :
  world_only m -> sound ok m.
Proof.
  intros H s Hs. destruct (H s) as [Hc Hf]. split; [| exact Hf].
  unfold acc_ok in *. rewrite Hc. exact Hs.
Qed.

Lemma world_only_sys_write (fd : Z) (buf : list Z) (n : Z) :
  world_only (E := E) (sys_write fd buf n).
Proof.
  intros s. unfold sys_write.
  destruct (if fd =? STDOUT_FILENO then _ else _); cbn;
    (split; [reflexivity | discriminate]).
Qed.

Lemma world_only_sys_read (fd len : Z) : world_only (E := E) (sys_read fd len).
Proof.
  intros s. unfold sys_read.
  destruct (socket_reads (world s) 0%nat); cbn;
    (split; [reflexivity | discriminate]).
Qed.

Lemma world_only_select (r w : bool) : world_only (E := E) (select r w).
Proof.
  intros s. unfold select.
  destruct (selects (world s) 0%nat); cbn;
    (split; [reflexivity | discriminate]).
Qed.

Lemma sys_write_result (fd : Z) (buf : list Z) (n : Z) (s : State E) :
  exists m s1,
    sys_write fd buf n s = (Returns m, s1) /\ conn s1 = conn s /\
    (0 < n -> m <= n).
Proof.
  unfold sys_write.
  destruct (if fd =? STDOUT_FILENO then _ else _);
    eexists; eexists; (split; [reflexivity |]); cbn; split;
    try reflexivity; lia.
Qed.

Lemma write_all_loop_returns (k : nat) (fd : Z) (buf : list Z) (n : Z) :
  n <= Z.of_nat k ->
  forall s : State E,
  exists r s',
    write_all_loop k fd buf n s = (Returns r, s') /\ conn s' = conn s.
Proof.
  revert n. induction k as [|k IH]; intros n Hn s.
  - cbn [write_all_loop]. destruct (Z.gtb_spec n 0); [lia |].
    exists 0, s. split; reflexivity.
  - cbn [write_all_loop].
    destruct (Z.gtb_spec n 0); [| exists 0, s; split; reflexivity].
    unfold bind at 1.
    destruct (sys_write_result fd buf n s) as (m & s1 & Hr & Hc & Hm).
    rewrite Hr.
    destruct (Z.ltb_spec m 0);
      [eexists; eexists; split; [reflexivity | exact Hc] |].
    destruct (Z.eqb_spec m 0);
      [eexists; eexists; split; [reflexivity | exact Hc] |].
    destruct (IH (n - m) ltac:(lia) s1) as (r & s' & Hw & Hc').
    exists r, s'. split; [exact Hw | congruence].
Qed.

Lemma write_all_returns (fd : Z) (buf : list Z) (n : Z) (s : State E) :
  exists r s', write_all fd buf n s = (Returns r, s') /\ conn s' = conn s.
Proof. apply write_all_loop_returns. lia. Qed.

Lemma avail_exact (s : State E) :
  acc_ok cap s ->
  size_sub (size_sub (data_capacity (conn s)) (data_len (conn s))) 1 =
  cap - data_len (conn s) - 1.
Proof.
  intros (Hcap & Hlen & Hmem & Hmod). rewrite Hcap.
  rewrite SIZE_MODULUS_value in Hmod.
  rewrite (size_sub_small cap) by (rewrite ?SIZE_MODULUS_value; lia).
  apply size_sub_small; rewrite ?SIZE_MODULUS_value; lia.
Qed.

(** One round of the drain either ends the drain or goes on with a longer
    accumulator; in both cases the accumulator stays well formed. *)
Lemma copy_plaintext_round_step
  (again : M (State E) crustls_demo_result) (s : State E) :
  acc_ok cap s ->
  exists s1,
    acc_ok cap s1 /\
    ((copy_plaintext_round eng again s = again s1 /\
      data_len (conn s) < data_len (conn s1)) \/
     exists r, copy_plaintext_round eng again s = (Returns r, s1)).
Proof.
  intros Hok. pose proof (avail_exact s Hok) as Hav.
  destruct Hok as (Hcap & Hlen & Hmem & Hmod).
  unfold copy_plaintext_round. run. rewrite Hav.
  destruct (rustls_connection_read eng (rconn (conn s))
              (cap - data_len (conn s) - 1)) as [[result bytes] e'].
  set (chunk := firstn (Z.to_nat (cap - data_len (conn s) - 1)) bytes).
  assert (Hchunk : Z.of_nat (length chunk) <= cap - data_len (conn s) - 1).
  { unfold chunk. rewrite length_firstn. lia. }
  run. rewrite store_bytes_Some by lia.
  set (mem := firstn _ _ ++ chunk ++ skipn _ _).
  assert (Hmem' : length mem = length (data_from_client (conn s))).
  { apply (store_bytes_length _ (Z.to_nat (data_len (conn s))) chunk).
    apply store_bytes_Some. lia. }
  run.
  set (s1 := mkState (mkConn _ _ mem _ _) _).
  assert (Hs1 : acc_ok cap s1).
  { unfold acc_ok, s1. cbn. rewrite Hmem'. auto. }
  destruct (rustls_result_eqb result RUSTLS_RESULT_ALERT_CLOSE_NOTIFY).
  { run. eexists. split; [| right; eexists; reflexivity].
    unfold acc_ok. cbn. rewrite Hmem'. auto. }
  destruct (negb (rustls_result_eqb result RUSTLS_RESULT_OK)).
  { run. eexists. split; [| right; eexists; reflexivity].
    unfold acc_ok. cbn. rewrite Hmem'. auto. }
  destruct (Z.eqb_spec (Z.of_nat (length chunk)) 0) as [Hz|Hz].
  { exists s1. split; [exact Hs1 | right; eexists; reflexivity]. }
  unfold s1. run.
  rewrite size_add_small by (rewrite ?SIZE_MODULUS_value in *; lia).
  match goal with
  | |- context [bind (write_all ?f ?b ?n) ?k ?st] =>
      destruct (write_all_returns f b n st) as (r & s2 & Hw & Hc);
      rewrite (bind_returns _ k _ _ _ Hw)
  end.
  assert (Hs2 : acc_ok cap s2).
  { unfold acc_ok. rewrite Hc. cbn. rewrite Hmem'. repeat split; auto; lia. }
  exists s2. split; [exact Hs2 |].
  destruct (negb (r =? 0)).
  - right. eexists. reflexivity.
  - left. split; [reflexivity |]. rewrite Hc. cbn. lia.
Qed.

Lemma copy_plaintext_loop_returns (k : nat) (s : State E) :
  acc_ok cap s ->
  cap - data_len (conn s) - 1 <= Z.of_nat k ->
  exists r s',
    copy_plaintext_loop eng k s = (Returns r, s') /\ acc_ok cap s'.
Proof.
  revert s. induction k as [|k IH]; intros s Hok Hk.
  - cbn [copy_plaintext_loop].
    destruct (copy_plaintext_round_step out_of_fuel s Hok)
      as (s1 & Hs1 & [[_ Hlt] | [r Hr]]).
    + destruct Hs1 as (_ & Hl & _). lia.
    + eauto.
  - cbn [copy_plaintext_loop].
    destruct (copy_plaintext_round_step (copy_plaintext_loop eng k) s Hok)
      as (s1 & Hs1 & [[Hgo Hlt] | [r Hr]]).
    + rewrite Hgo. apply IH; [exact Hs1 | lia].
    + eauto.
Qed.

(** The drain always comes back (or aborts on a failed [realloc]), with a
    well-formed accumulator. *)
Lemma copy_plaintext_to_buffer_returns (s : State E) :
  acc_ok cap s ->
  exists o s',
    copy_plaintext_to_buffer eng s = (o, s') /\ acc_ok cap s' /\
    (o = Aborts \/ exists r, o = Returns r).
Proof.
  intros Hok. unfold copy_plaintext_to_buffer. run.
  assert (Hloop : forall s1 : State E,
             acc_ok cap s1 ->
             exists o s',
               copy_plaintext_loop eng
                 (Z.to_nat (size_sub (size_sub
                    (data_capacity (conn s1)) (data_len (conn s1))) 1))
                 s1 = (o, s') /\ acc_ok cap s' /\
               (o = Aborts \/ exists r, o = Returns r)).
  { intros s1 Hs1. rewrite (avail_exact s1 Hs1).
    destruct (copy_plaintext_loop_returns
                (Z.to_nat (cap - data_len (conn s1) - 1)) s1 Hs1)
      as (r & s' & Hr & Hs'); [lia |].
    rewrite Hr. eauto 8. }
  destruct (size_sub (data_capacity (conn s)) (data_len (conn s)) <? 1024).
  - rewrite bind_assoc. unfold realloc at 1. unfold bind at 1.
    destruct Hok as (Hcap & Hlen & Hmem & Hmod).
    destruct (reallocs (world s) 0%nat) as [junk|]; cbn [option_map].
    + run.
      match goal with
      | |- context [copy_plaintext_loop eng _ ?st] =>
          apply (Hloop st)
      end.
      unfold acc_ok. cbn.
      rewrite resized_length, Hcap.
      rewrite size_mul_small by (rewrite ?SIZE_MODULUS_value in *; lia).
      repeat split; auto; lia.
    + run. cbn. eexists. eexists. split; [reflexivity |].
      split; [| left; reflexivity]. unfold acc_ok. cbn. auto.
  - run. apply Hloop, Hok.
Qed.

Lemma copy_plaintext_to_buffer_sound :
  sound ok (copy_plaintext_to_buffer eng).
Proof.
  intros s Hok.
  destruct (copy_plaintext_to_buffer_returns s Hok)
    as (o & s' & Hr & Hs' & Ho).
  rewrite Hr. cbn. split; [exact Hs' |].
  destruct Ho as [-> | [r ->]]; discriminate.
Qed.

Lemma set_rconn_sound (e : E) : sound ok (set_rconn e).
Proof. intros s Hs. split; [exact Hs | discriminate]. Qed.

Lemma get_conn_sound : sound ok get_conn.
Proof. intros s Hs. split; [exact Hs | discriminate]. Qed.

Lemma get_world_sound : sound ok get_world.
Proof. intros s Hs. split; [exact Hs | discriminate]. Qed.

Lemma on_world_sound (f : World -> World) : sound ok (on_world f).
Proof. intros s Hs. split; [exact Hs | discriminate]. Qed.

Lemma fprintf_stderr_sound (d : diag) : sound ok (fprintf_stderr d).
Proof. intros s Hs. split; [exact Hs | discriminate]. Qed.

Lemma perror_sound (d : diag) : sound ok (perror d).
Proof. intros s Hs. split; [exact Hs | discriminate]. Qed.

Lemma nanosleep_sound : sound ok nanosleep.
Proof. intros s Hs. split; [exact Hs | discriminate]. Qed.

Lemma close_sound (fd0 : Z) : sound ok (close fd0).
Proof. intros s Hs. split; [exact Hs | discriminate]. Qed.

Lemma sys_read_sound (fd0 len : Z) : sound ok (sys_read fd0 len).
Proof. apply world_only_sound, world_only_sys_read. Qed.

Lemma sys_write_sound (fd0 : Z) (buf : list Z) (n : Z) :
  sound ok (sys_write fd0 buf n).
Proof. apply world_only_sound, world_only_sys_write. Qed.

Lemma select_sound (r w : bool) : sound ok (select r w).
Proof. apply world_only_sound, world_only_select. Qed.

End Accumulator.

Create HintDb sound_db.

#[global] Hint Resolve copy_plaintext_to_buffer_sound set_rconn_sound
  get_conn_sound get_world_sound on_world_sound fprintf_stderr_sound
  perror_sound nanosleep_sound close_sound sys_read_sound sys_write_sound
  select_sound : sound_db.

(** Names the outcome and the final state of the computation of a
    [hoare] goal, and leaves the run as an equation to work on. *)
Ltac hoare_run :=
  match goal with
  | |- hoare _ ?m _ =>
      let o := fresh "o" in
      let s' := fresh "s'" in
      let Hrun := fresh "Hrun" in
      intros s Hs; destruct (m s) as [o s'] eqn:Hrun; cbn [fst snd];
      revert Hrun
  end.

(** Breaks a composite computation into its parts. *)
Ltac sound_step :=
  match goal with
  | |- sound _ (bind _ _) => apply sound_bind; [| intros ?]
  | |- sound _ (ret _) => apply sound_ret
  | |- sound _ abort => apply sound_abort
  | |- sound _ out_of_fuel => apply sound_out_of_fuel
  | |- sound _ (match ?x with _ => _ end) => destruct x
  | |- sound _ _ => solve [auto with sound_db]
  end.

Section AccumulatorLoop.

Context {E : Type}.
Variable eng : rustls_engine E.
Variable cap : Z.

Local Abbreviation ok := (@acc_ok E cap).

Lemma read_cb_sound (len : Z) : sound ok (read_cb len).
Proof. unfold read_cb. repeat sound_step. Qed.

Lemma write_cb_sound (buf : list Z) (len : Z) : sound ok (write_cb buf len).
Proof. unfold write_cb. repeat sound_step. Qed.

Lemma rustls_connection_read_tls_sound :
  sound ok (rustls_connection_read_tls eng).
Proof.
  pose proof read_cb_sound.
  unfold rustls_connection_read_tls. repeat sound_step.
Qed.

Lemma rustls_connection_write_tls_sound :
  sound ok (rustls_connection_write_tls eng).
Proof.
  pose proof write_cb_sound.
  unfold rustls_connection_write_tls. repeat sound_step.
Qed.

Lemma do_read_sound : sound ok (do_read eng).
Proof.
  pose proof rustls_connection_read_tls_sound.
  unfold do_read. repeat sound_step.
Qed.

(** The sentinel store of the terminator scan lands inside the tracked
    capacity, hence inside the block; the scan leaves the accumulator well
    formed. *)
Lemma request_is_finished_returns (s : State E) :
  acc_ok cap s ->
  exists mem,
    store_bytes (data_from_client (conn s)) (Z.to_nat (data_len (conn s)))
                [0] = Some mem /\
    request_is_finished s =
    (Returns (strstr_found mem double_crlf),
     mkState (mkConn (fd (conn s)) (rconn (conn s)) mem (data_len (conn s))
                     (data_capacity (conn s))) (world s)) /\
    acc_ok cap (mkState (mkConn (fd (conn s)) (rconn (conn s)) mem
                                (data_len (conn s)) (data_capacity (conn s)))
                        (world s)).
Proof.
  intros (Hcap & Hlen & Hmem & Hmod).
  unfold request_is_finished. run.
  rewrite store_bytes_Some by (cbn [length]; lia).
  eexists. split; [reflexivity |]. run. split; [reflexivity |].
  unfold acc_ok. cbn [conn data_capacity data_len data_from_client].
  rewrite !length_app, length_firstn, length_skipn. cbn [length].
  repeat split; auto; lia.
Qed.

Lemma request_is_finished_sound : sound ok request_is_finished.
Proof.
  intros s Hok.
  destruct (request_is_finished_returns s Hok) as (mem & _ & Hr & Hs').
  rewrite Hr. cbn. split; [exact Hs' | discriminate].
Qed.

Lemma send_response_sound : sound ok (send_response eng).
Proof. unfold send_response. repeat sound_step. Qed.

Lemma handle_conn_read_cycles_sound (fuel : nat) :
  sound ok (handle_conn_read_cycles eng fuel).
Proof.
  pose proof do_read_sound.
  induction fuel as [|fuel IH]; cbn [handle_conn_read_cycles];
    repeat sound_step.
Qed.

Lemma handle_conn_write_ready_sound :
  sound ok (handle_conn_write_ready eng).
Proof.
  pose proof rustls_connection_write_tls_sound.
  unfold handle_conn_write_ready. repeat sound_step.
Qed.

Lemma handle_conn_reply_sound (state : exchange_state) :
  sound ok (handle_conn_reply eng state).
Proof.
  pose proof request_is_finished_sound. pose proof send_response_sound.
  unfold handle_conn_reply. repeat sound_step.
Qed.

Lemma handle_conn_loop_sound (fuel : nat) (state : exchange_state) :
  sound ok (handle_conn_loop eng fuel state).
Proof.
  pose proof handle_conn_read_cycles_sound.
  pose proof handle_conn_write_ready_sound.
  pose proof handle_conn_reply_sound.
  revert state. induction fuel as [|fuel IH]; intros state;
    cbn [handle_conn_loop]; repeat sound_step.
Qed.

Lemma handle_conn_sound (fuel : nat) : sound ok (handle_conn eng fuel).
Proof.
  pose proof handle_conn_loop_sound.
  unfold handle_conn. repeat sound_step.
Qed.

End AccumulatorLoop.

(** ** What each function may add to the trace *)

Lemma grown_refl (ok : event -> bool) (w : World) : grown ok (trace w) w.
Proof. exists []. split; reflexivity. Qed.

Lemma grown_emit (ok : event -> bool) (t0 : list event) (e : event)
  (w : World) :
  ok e = true -> grown ok t0 w -> grown ok t0 (emit e w).
Proof.
  intros He (evs & Ht & Hall). exists (e :: evs). cbn.
  rewrite Ht, He, Hall. split; reflexivity.
Qed.

Create HintDb trace_db.

(** Breaks a composite computation into its parts. *)
Ltac trace_step :=
  match goal with
  | |- preserves _ (bind _ _) => apply preserves_bind; [| intros ?]
  | |- preserves _ (ret _) => apply preserves_ret
  | |- preserves _ abort => intros ? ?; assumption
  | |- preserves _ fault => intros ? ?; assumption
  | |- preserves _ out_of_fuel => intros ? ?; assumption
  | |- preserves _ (match ?x with _ => _ end) => destruct x
  | |- preserves _ _ => solve [auto with trace_db]
  end.

Section TraceDiscipline.

Context {E : Type}.
Variable eng : rustls_engine E.
Variable ok : event -> bool.
Variable t0 : list event.

Hypothesis ok_stderr : forall d, ok (EvStderr d) = true.
Hypothesis ok_stdout : forall b, ok (EvStdout b) = true.
Hypothesis ok_socket_write : forall fd0 b, ok (EvSocketWrite fd0 b) = true.
Hypothesis ok_nanosleep : ok EvNanosleep = true.

Local Abbreviation J := (fun s : State E => grown ok t0 (world s)).

Lemma get_conn_trace : preserves J get_conn.
Proof. intros s Hs. exact Hs. Qed.

Lemma get_world_trace : preserves J get_world.
Proof. intros s Hs. exact Hs. Qed.

Lemma set_rconn_trace (e : E) : preserves J (set_rconn e).
Proof. intros s Hs. exact Hs. Qed.

Lemma set_data_from_client_trace (p : list Z) :
  preserves J (set_data_from_client p).
Proof. intros s Hs. exact Hs. Qed.

Lemma set_data_len_trace (n : Z) : preserves J (set_data_len n).
Proof. intros s Hs. exact Hs. Qed.

Lemma fprintf_stderr_trace (d : diag) : preserves J (fprintf_stderr d).
Proof. intros s Hs. cbn. apply grown_emit; auto. Qed.

Lemma perror_trace (d : diag) : preserves J (perror d).
Proof. apply fprintf_stderr_trace. Qed.

Lemma nanosleep_trace : preserves J nanosleep.
Proof. intros s Hs. cbn. apply grown_emit; auto. Qed.

Lemma sys_read_trace (fd0 len : Z) : preserves J (sys_read fd0 len).
Proof.
  intros s Hs. unfold sys_read.
  destruct (socket_reads (world s) 0%nat); exact Hs.
Qed.

Lemma sys_write_trace (fd0 : Z) (buf : list Z) (n : Z) :
  preserves J (sys_write fd0 buf n).
Proof.
  intros s Hs. unfold sys_write.
  destruct (fd0 =? STDOUT_FILENO).
  - destruct (stdout_writes (world s) 0%nat); cbn; [exact Hs |].
    apply grown_emit; auto.
  - destruct (socket_writes (world s) 0%nat); cbn; [exact Hs |].
    apply grown_emit; auto.
Qed.

Lemma select_trace (r w : bool) : preserves J (select r w).
Proof.
  intros s Hs. unfold select.
  destruct (selects (world s) 0%nat); exact Hs.
Qed.

Lemma realloc_trace (mem : list Z) (size : Z) : preserves J (realloc mem size).
Proof. intros s Hs. exact Hs. Qed.

Hint Resolve get_conn_trace get_world_trace set_rconn_trace
  set_data_from_client_trace set_data_len_trace fprintf_stderr_trace
  perror_trace nanosleep_trace sys_read_trace sys_write_trace select_trace
  realloc_trace : trace_db.

Lemma read_cb_trace (len : Z) : preserves J (read_cb len).
Proof. unfold read_cb. repeat trace_step. Qed.

Lemma write_cb_trace (buf : list Z) (len : Z) : preserves J (write_cb buf len).
Proof. unfold write_cb. repeat trace_step. Qed.

Hint Resolve read_cb_trace write_cb_trace : trace_db.

Lemma rustls_connection_read_tls_trace :
  preserves J (rustls_connection_read_tls eng).
Proof. unfold rustls_connection_read_tls. repeat trace_step. Qed.

Lemma rustls_connection_write_tls_trace :
  preserves J (rustls_connection_write_tls eng).
Proof. unfold rustls_connection_write_tls. repeat trace_step. Qed.

Lemma write_all_loop_trace (k : nat) (fd0 : Z) (buf : list Z) (n : Z) :
  preserves J (write_all_loop k fd0 buf n).
Proof.
  revert n. induction k as [|k IH]; intros n; cbn [write_all_loop];
    repeat trace_step.
Qed.

Lemma write_all_trace (fd0 : Z) (buf : list Z) (n : Z) :
  preserves J (write_all fd0 buf n).
Proof. apply write_all_loop_trace. Qed.

Hint Resolve rustls_connection_read_tls_trace
  rustls_connection_write_tls_trace write_all_trace : trace_db.

Lemma copy_plaintext_round_trace (again : M (State E) crustls_demo_result) :
  preserves J again -> preserves J (copy_plaintext_round eng again).
Proof. intros H. unfold copy_plaintext_round. repeat trace_step. Qed.

Lemma copy_plaintext_loop_trace (k : nat) :
  preserves J (copy_plaintext_loop eng k).
Proof.
  induction k as [|k IH]; cbn [copy_plaintext_loop];
    apply copy_plaintext_round_trace; [repeat trace_step | exact IH].
Qed.

Hint Resolve copy_plaintext_loop_trace : trace_db.

Lemma copy_plaintext_to_buffer_trace :
  preserves J (copy_plaintext_to_buffer eng).
Proof. unfold copy_plaintext_to_buffer. repeat trace_step. Qed.

Hint Resolve copy_plaintext_to_buffer_trace : trace_db.

Lemma do_read_trace : preserves J (do_read eng).
Proof. unfold do_read. repeat trace_step. Qed.

Hint Resolve do_read_trace : trace_db.

Lemma handle_conn_read_cycles_trace (fuel : nat) :
  preserves J (handle_conn_read_cycles eng fuel).
Proof.
  induction fuel as [|fuel IH]; cbn [handle_conn_read_cycles];
    repeat trace_step.
Qed.

Lemma handle_conn_write_ready_trace :
  preserves J (handle_conn_write_ready eng).
Proof. unfold handle_conn_write_ready. repeat trace_step. Qed.

Lemma request_is_finished_trace : preserves J request_is_finished.
Proof. unfold request_is_finished. repeat trace_step. Qed.

Hint Resolve handle_conn_read_cycles_trace handle_conn_write_ready_trace
  request_is_finished_trace : trace_db.

(** With the reply allowed as well: the whole loop. *)
Section WithReply.

Hypothesis ok_engine_write : forall b, ok (EvEngineWrite b) = true.

Lemma send_response_trace : preserves J (send_response eng).
Proof.
  assert (preserves J (on_world (emit (EvEngineWrite response)))).
  { intros s Hs. cbn. apply grown_emit; auto. }
  unfold send_response. repeat trace_step.
Qed.

Hint Resolve send_response_trace : trace_db.

Lemma handle_conn_reply_trace (state : exchange_state) :
  preserves J (handle_conn_reply eng state).
Proof. unfold handle_conn_reply. repeat trace_step. Qed.

Hint Resolve handle_conn_reply_trace : trace_db.

Lemma handle_conn_loop_trace (fuel : nat) (state : exchange_state) :
  preserves J (handle_conn_loop eng fuel state).
Proof.
  revert state. induction fuel as [|fuel IH]; intros state;
    cbn [handle_conn_loop]; repeat trace_step.
Qed.

End WithReply.

End TraceDiscipline.

(** ** The terminator scan *)

Lemma starts_with_iff (needle mem : list Z) :
  starts_with needle mem = true <-> exists rest, mem = needle ++ rest.
Proof.
  revert mem. induction needle as [|c needle IH]; intros mem; cbn.
  - split; [intros _; exists mem; reflexivity | reflexivity].
  - destruct mem as [|m mem]; [split; [discriminate | intros [r [=]]] |].
    rewrite andb_true_iff, Z.eqb_eq, IH. split.
    + intros [-> [rest ->]]. exists rest. reflexivity.
    + intros [rest [= -> ->]]. split; [reflexivity | exists rest; reflexivity].
Qed.

Lemma until_nul_prefix (l : list Z) : exists rest, l = until_nul l ++ rest.
Proof.
  induction l as [|c l [rest IH]]; [exists []; reflexivity |].
  cbn. destruct (c =? 0); [exists (c :: l); reflexivity |].
  exists rest. cbn. congruence.
Qed.

Lemma until_nul_app_nonzero (a b : list Z) :
  forallb (fun c => negb (c =? 0)) a = true ->
  until_nul (a ++ b) = a ++ until_nul b.
Proof.
  induction a as [|c a IH]; [reflexivity |]. cbn.
  rewrite andb_true_iff, negb_true_iff. intros [Hc Ha].
  rewrite Hc, IH by exact Ha. reflexivity.
Qed.

Lemma until_nul_stops (a b : list Z) :
  until_nul (a ++ 0 :: b) = until_nul a.
Proof.
  induction a as [|c a IH]; [reflexivity |]. cbn.
  destruct (c =? 0); [reflexivity | rewrite IH; reflexivity].
Qed.

Lemma until_nul_id (l : list Z) :
  forallb (fun c => negb (c =? 0)) l = true -> until_nul l = l.
Proof.
  intros H. rewrite <- (app_nil_r l) at 1.
  rewrite until_nul_app_nonzero by exact H. cbn. apply app_nil_r.
Qed.

Lemma occurs_cons (pat : list Z) (c : Z) (l : list Z) :
  occurs pat (c :: l) <->
  (exists rest, c :: l = pat ++ rest) \/ occurs pat l.
Proof.
  split.
  - intros (before & after & H). destruct before as [|b before].
    + left. exists after. exact H.
    + right. injection H as _ H. exists before, after. exact H.
  - intros [[rest H] | (before & after & H)].
    + exists [], rest. exact H.
    + exists (c :: before), after. cbn. congruence.
Qed.

(** [strstr] finds the needle exactly when it occurs in the C string, that
    is, before the first NUL. *)
Lemma strstr_found_iff (needle mem : list Z) :
  needle <> [] ->
  forallb (fun c => negb (c =? 0)) needle = true ->
  strstr_found mem needle = true <-> occurs needle (until_nul mem).
Proof.
  intros Hne Hnz. induction mem as [|c mem IH].
  - cbn. split; [discriminate |].
    intros (before & after & H). destruct before, needle; cbn in H;
      congruence.
  - cbn [strstr_found until_nul]. destruct (c =? 0) eqn:Hc.
    + split; [discriminate |].
      intros (before & after & H). destruct before, needle; cbn in H;
        congruence.
    + destruct (starts_with needle (c :: mem)) eqn:Hs.
      * split; [intros _ | reflexivity].
        apply starts_with_iff in Hs. destruct Hs as [rest Hs].
        exists [], (until_nul rest). cbn [app].
        rewrite <- until_nul_app_nonzero by exact Hnz.
        rewrite <- Hs. cbn. rewrite Hc. reflexivity.
      * rewrite IH, occurs_cons. split; [auto |].
        intros [[rest H] | H]; [| exact H]. exfalso.
        destruct (until_nul_prefix mem) as [rest' Hp].
        assert (Hsw : starts_with needle (c :: mem) = true).
        { apply starts_with_iff. exists (rest ++ rest').
          rewrite app_assoc, <- H. cbn. congruence. }
        congruence.
Qed.

(** * The claims *)

(** Closed facts about concrete runs are settled by evaluation. *)
Ltac by_computation :=
  repeat split; vm_compute;
  first [reflexivity | discriminate | intros ?; discriminate].

(** ** The accumulator stays inside its tracked capacity *)

Lemma new_connection_acc_ok {E : Type} (fd0 : Z) (e : E) (w : World) :
  acc_ok 2048 (mkState (mkConn fd0 e (repeat 0 2048%nat) 0 2048) w).
Proof.
  unfold acc_ok. cbn [conn data_capacity data_len data_from_client].
  rewrite repeat_length, SIZE_MODULUS_value. lia.
Qed.

(** C10.  From any state in which the accumulator is well formed for the
    tracked capacity 2048 (the state [main] hands to [handle_conn] is one):
    the size passed to a plaintext read is [data_capacity - data_len - 1],
    and a round of the drain leaves the accumulator well formed; the
    sentinel store of the terminator scan is at an index below the tracked
    capacity and inside the block; and however far [handle_conn] runs,
    [data_capacity] is still 2048, [data_len] is below it, and no store
    has left the block. *)
Theorem data_len_stays_below_capacity {E : Type} (eng : rustls_engine E)
  (fuel : nat) (s : State E) :
  acc_ok 2048 s ->
  size_sub (size_sub (data_capacity (conn s)) (data_len (conn s))) 1 =
    2047 - data_len (conn s) /\
  (exists o s',
     copy_plaintext_to_buffer eng s = (o, s') /\ acc_ok 2048 s' /\
     (o = Aborts \/ exists r, o = Returns r)) /\
  (exists mem,
     store_bytes (data_from_client (conn s)) (Z.to_nat (data_len (conn s)))
                 [0] = Some mem /\
     data_len (conn s) < data_capacity (conn s) /\
     data_capacity (conn s) <= Z.of_nat (length (data_from_client (conn s))) /\
     fst (request_is_finished s) = Returns (strstr_found mem double_crlf)) /\
  (let r := handle_conn eng fuel s in
   data_capacity (conn (snd r)) = 2048 /\
   0 <= data_len (conn (snd r)) < 2048 /\
   fst r <> Faults).
Proof.
  intros Hok. split; [| split; [| split]].
  - rewrite (avail_exact 2048 s Hok). lia.
  - apply copy_plaintext_to_buffer_returns, Hok.
  - destruct (request_is_finished_returns 2048 s Hok) as (mem & Hst & Hr & _).
    exists mem. rewrite Hr. destruct Hok as (Hcap & Hlen & Hmem & _).
    repeat split; auto; lia.
  - destruct (handle_conn_sound eng 2048 fuel s Hok)
      as [(Hcap & Hlen & _) Hf].
    cbn zeta. auto.
Qed.

Lemma data_len_stays_below_capacity_witness :
  acc_ok 2048 Scenario.sink_works /\
  (let r := handle_conn Loopback.engine 4 Scenario.sink_works in
   data_capacity (conn (snd r)) = 2048 /\
   0 <= data_len (conn (snd r)) < 2048 /\
   fst r <> Faults).
Proof.
  split.
  - by_computation.
  - apply (data_len_stays_below_capacity Loopback.engine 4
             Scenario.sink_works).
    by_computation.
Defined.

(** ** The reply *)

Lemma replies_grown (t0 : list event) (w : World) :
  grown quiet t0 w -> replies w = length (filter is_reply t0).
Proof.
  intros (evs & Ht & Hall). unfold replies. rewrite Ht, filter_app.
  rewrite length_app.
  assert (Hnil : filter is_reply evs = []).
  { clear Ht. induction evs as [|e evs IH]; [reflexivity |].
    cbn in Hall. apply andb_true_iff in Hall as [He Hall].
    cbn. unfold quiet in He. apply negb_true_iff in He. rewrite He. auto. }
  rewrite Hnil. reflexivity.
Qed.

Lemma quiet_keeps_replies {E A : Type} (m : M (State E) A) :
  (forall t0, preserves (fun s => grown quiet t0 (world s)) m) ->
  forall n, preserves (fun s => replies (world s) = n) m.
Proof.
  intros H n s Hs.
  specialize (H (trace (world s)) s (grown_refl quiet (world s))).
  apply replies_grown in H. unfold replies in Hs. congruence.
Qed.

Lemma hoare_bind_inv {S A B : Type} (I : S -> Prop) (m : M S A)
  (k : A -> M S B) (Q : outcome B -> S -> Prop) :
  preserves I m ->
  (forall (o : outcome A) s, I s -> Q (passed o) s) ->
  (forall a, hoare I (k a) Q) ->
  hoare I (bind m k) Q.
Proof.
  intros Hm Hfail Hk. apply hoare_bind with (R := fun _ s => I s).
  - intros s Hs. specialize (Hm s Hs).
    destruct (fst (m s)) eqn:Ho; [exact Hm | | |];
      match goal with
      | |- Q (passed ?o) _ => apply (Hfail o), Hm
      end.
  - exact Hk.
Qed.

Section Reply.

Context {E : Type}.
Variable eng : rustls_engine E.

Local Abbreviation at_count n := (fun s : State E => replies (world s) = n).

Lemma select_replies (r w : bool) (n : nat) :
  preserves (at_count n) (select r w).
Proof. apply quiet_keeps_replies. intros t0. apply select_trace. Qed.

Lemma read_cycles_replies (fuel n : nat) :
  preserves (at_count n) (handle_conn_read_cycles eng fuel).
Proof.
  apply quiet_keeps_replies. intros t0.
  apply handle_conn_read_cycles_trace; reflexivity.
Qed.

Lemma write_ready_replies (n : nat) :
  preserves (at_count n) (handle_conn_write_ready eng).
Proof.
  apply quiet_keeps_replies. intros t0.
  apply handle_conn_write_ready_trace; reflexivity.
Qed.

Lemma request_is_finished_replies (n : nat) :
  preserves (at_count n) (@request_is_finished E).
Proof.
  apply quiet_keeps_replies. intros t0. apply request_is_finished_trace.
Qed.

Lemma fprintf_replies (d : diag) (n : nat) :
  preserves (at_count n) (@fprintf_stderr E d).
Proof. intros s Hs. exact Hs. Qed.

Lemma nanosleep_replies (n : nat) : preserves (at_count n) (@nanosleep E).
Proof. intros s Hs. exact Hs. Qed.

(** The reply step: from [SENT_RESPONSE] nothing is written; from
    [READING_REQUEST] the state moves on exactly when one reply is
    written. *)
Lemma handle_conn_reply_count (n : nat) (state : exchange_state) :
  hoare (at_count n) (handle_conn_reply eng state)
        (fun o s =>
           match o, state with
           | Returns SENT_RESPONSE, SENT_RESPONSE => replies (world s) = n
           | Returns READING_REQUEST, SENT_RESPONSE => False
           | Returns READING_REQUEST, READING_REQUEST =>
               replies (world s) = n
           | Returns SENT_RESPONSE, READING_REQUEST =>
               replies (world s) = Datatypes.S n
           | _, SENT_RESPONSE => replies (world s) = n
           | _, READING_REQUEST =>
               (n <= replies (world s) <= n + 1)%nat
           end).
Proof.
  destruct state; unfold handle_conn_reply.
  - apply hoare_bind_inv.
    + apply request_is_finished_replies.
    + intros o s Hs. destruct o; cbn; lia.
    + intros finished. destruct finished.
      * hoare_run. run. unfold send_response. run.
        destruct (rustls_connection_write eng (rconn (conn s)) response)
          as [[res k] e']. run.
        destruct (negb (k =? strlen response)); run;
          unfold ret, abort; intros [= <- <-]; unfold replies in *; cbn [world trace emit
            filter is_reply length]; lia.
      * intros s Hs. exact Hs.
  - intros s Hs. exact Hs.
Qed.

Lemma handle_conn_loop_replies (fuel n : nat) (state : exchange_state) :
  hoare (at_count n) (handle_conn_loop eng fuel state) (reply_post n state).
Proof.
  revert n state. induction fuel as [|fuel IH]; intros n state.
  - intros s Hs. destruct state; cbn; lia.
  - assert (Hfail : forall (A : Type) (o : outcome A) (s : State E),
               replies (world s) = n -> reply_post n state (passed o) s).
    { intros A o s Hs. destruct state, o; cbn; lia. }
    assert (Hret : forall v (s : State E),
               replies (world s) = n ->
               reply_post n state (Returns (v, state)) s).
    { intros v s Hs. destruct state; cbn; split; auto; lia. }
    cbn [handle_conn_loop].
    apply hoare_bind_inv; [intros s Hs; exact Hs | apply Hfail |].
    intros c.
    apply hoare_bind_inv; [apply select_replies | apply Hfail |].
    intros [[result readable] writable].
    destruct (result =? -1).
    { apply hoare_bind_inv; [apply fprintf_replies | apply Hfail |].
      intros _ s Hs. apply Hret, Hs. }
    apply hoare_bind_inv; [| apply Hfail |].
    { destruct (result =? 0); [| apply preserves_ret].
      apply preserves_bind; [apply fprintf_replies |].
      intros _. apply nanosleep_replies. }
    intros _.
    apply hoare_bind_inv; [| apply Hfail |].
    { destruct readable; [| apply preserves_ret].
      apply preserves_bind; [apply fprintf_replies |].
      intros _. apply read_cycles_replies. }
    intros [v|]; [intros s Hs; apply Hret, Hs |].
    apply hoare_bind_inv; [| apply Hfail |].
    { destruct writable; [apply write_ready_replies | apply preserves_ret]. }
    intros [|]; [intros s Hs; apply Hret, Hs |].
    apply hoare_bind with
      (R := fun state' s =>
              match state, state' with
              | SENT_RESPONSE, SENT_RESPONSE => replies (world s) = n
              | SENT_RESPONSE, READING_REQUEST => False
              | READING_REQUEST, READING_REQUEST => replies (world s) = n
              | READING_REQUEST, SENT_RESPONSE =>
                  replies (world s) = Datatypes.S n
              end).
    + intros s Hs. pose proof (handle_conn_reply_count n state s Hs) as H.
      cbv beta in H.
      destruct (fst (handle_conn_reply eng state s)) as [[|]| | |], state;
        cbn [passed reply_post]; try exact H; try lia.
    + intros state' s Hs. destruct state, state'; try contradiction.
      * pose proof (IH n READING_REQUEST s Hs) as H. exact H.
      * pose proof (IH (Datatypes.S n) SENT_RESPONSE s Hs) as [H1 H2].
        cbn. split; [lia |].
        destruct (fst (handle_conn_loop eng fuel SENT_RESPONSE s))
          as [[v st']| | |]; try lia.
        subst st'. lia.
      * pose proof (IH n SENT_RESPONSE s Hs) as H. exact H.
Qed.

End Reply.

(** C5.  Whatever the engine and the world do: a run of the loop that
    starts in [SENT_RESPONSE] hands no reply to the engine and can only end
    in [SENT_RESPONSE]; a run that starts in [READING_REQUEST] hands over at
    most one reply, and exactly one if and only if it ends in
    [SENT_RESPONSE]; so a whole connection hands over at most one reply;
    and the reply step in [SENT_RESPONSE] does nothing, whatever the
    accumulator holds. *)
Theorem reply_written_at_most_once {E : Type} (eng : rustls_engine E)
  (fuel : nat) (state : exchange_state) (s : State E) :
  (let r := handle_conn_loop eng fuel state s in
   reply_post (replies (world s)) state (fst r) (snd r)) /\
  (let r := handle_conn eng fuel s in
   (replies (world s) <= replies (world (snd r)) <=
    replies (world s) + 1)%nat) /\
  handle_conn_reply eng SENT_RESPONSE s = (Returns SENT_RESPONSE, s).
Proof.
  split; [| split].
  - apply (handle_conn_loop_replies eng fuel (replies (world s)) state s).
    reflexivity.
  - cbn zeta. destruct (handle_conn eng fuel s) as [o s'] eqn:Hrun.
    cbn [fst snd]. revert Hrun. unfold handle_conn. run.
    pose proof (handle_conn_loop_replies eng fuel (replies (world s))
                  READING_REQUEST
                  (mkState (conn s)
                     (emit (EvStderr (DiagAccepted (fd (conn s))))
                           (world s)))
                  eq_refl) as H.
    unfold bind at 1.
    match goal with
    | |- context [handle_conn_loop eng fuel READING_REQUEST ?s1] =>
        destruct (handle_conn_loop eng fuel READING_REQUEST s1)
          as [[[v st]| | |] s2]
    end; cbn [fst snd reply_post world emit] in H;
      try (intros [= <- <-]; lia).
    destruct (fd (conn s) >? 0); run; unfold ret; intros [= <- <-];
      unfold replies in *; cbn [world trace emit filter is_reply];
      destruct st; lia.
  - reflexivity.
Qed.

(** ** The terminator scan, on the accumulator *)

(** C7, as the code has it.  When the sentinel slot lies inside the block,
    the scan stores a NUL at index [data_len], leaves the accumulated bytes
    as they were, and returns true exactly when ["\r\n\r\n"] occurs in the
    accumulated bytes that come before their first NUL; when none of the
    accumulated bytes is a NUL that is: exactly when it occurs anywhere in
    them. *)
Theorem request_is_finished_scans_c_string {E : Type} (s : State E) :
  (Z.to_nat (data_len (conn s)) < length (data_from_client (conn s)))%nat ->
  exists mem,
    request_is_finished s =
      (Returns (strstr_found mem double_crlf),
       mkState (mkConn (fd (conn s)) (rconn (conn s)) mem
                       (data_len (conn s)) (data_capacity (conn s)))
               (world s)) /\
    nth_error mem (Z.to_nat (data_len (conn s))) = Some 0 /\
    firstn (Z.to_nat (data_len (conn s))) mem = accumulated (conn s) /\
    (strstr_found mem double_crlf = true <->
     occurs double_crlf (until_nul (accumulated (conn s)))) /\
    (forallb (fun c => negb (c =? 0)) (accumulated (conn s)) = true ->
     (strstr_found mem double_crlf = true <->
      occurs double_crlf (accumulated (conn s)))).
Proof.
  intros Hin. unfold request_is_finished. run.
  rewrite store_bytes_Some by (cbn [length]; lia).
  set (off := Z.to_nat (data_len (conn s))) in *.
  set (old := data_from_client (conn s)) in *.
  exists (firstn off old ++ [0] ++ skipn (off + length [0]) old).
  assert (Hlen : length (firstn off old) = off).
  { rewrite length_firstn. lia. }
  assert (Hscan : strstr_found
                    (firstn off old ++ [0] ++ skipn (off + length [0]) old)
                    double_crlf = true <->
                  occurs double_crlf (until_nul (firstn off old))).
  { rewrite strstr_found_iff by (reflexivity || discriminate).
    cbn [app]. rewrite until_nul_stops. reflexivity. }
  split; [run; reflexivity |]. split; [| split; [| split]].
  - rewrite nth_error_app2 by lia. rewrite Hlen, Nat.sub_diag. reflexivity.
  - rewrite firstn_app, Hlen, Nat.sub_diag, firstn_O, app_nil_r.
    rewrite firstn_firstn, Nat.min_id. reflexivity.
  - exact Hscan.
  - intros Hnz. rewrite Hscan. unfold accumulated. fold off old.
    rewrite until_nul_id by exact Hnz. reflexivity.
Qed.

Lemma request_is_finished_scans_c_string_witness :
  (Z.to_nat (data_len (conn Scenario.nul_accumulated)) <
   length (data_from_client (conn Scenario.nul_accumulated)))%nat /\
  exists mem,
    fst (request_is_finished Scenario.nul_accumulated) =
      Returns (strstr_found mem double_crlf) /\
    (strstr_found mem double_crlf = true <->
     occurs double_crlf
       (until_nul (accumulated (conn Scenario.nul_accumulated)))).
Proof.
  assert (H : (Z.to_nat (data_len (conn Scenario.nul_accumulated)) <
               length (data_from_client (conn Scenario.nul_accumulated)))%nat).
  { vm_compute. lia. }
  split; [exact H |].
  destruct (request_is_finished_scans_c_string Scenario.nul_accumulated H)
    as (mem & Hr & _ & _ & Hscan & _).
  exists mem. rewrite Hr. split; [reflexivity | exact Hscan].
Defined.

(** C7, as the claim has it, fails: the accumulated bytes are a NUL
    followed by a complete request, the terminator occurs within them, and
    the scan returns false; run from the start with these bytes as the
    plaintext, the connection accumulates them and never replies. *)
Lemma scan_misses_terminator_after_nul :
  occurs double_crlf (accumulated (conn Scenario.nul_accumulated)) /\
  fst (request_is_finished Scenario.nul_accumulated) = Returns false /\
  (let r := handle_conn Loopback.engine 4 Scenario.nul_start in
   accumulated (conn (snd r)) = Scenario.nul_request /\
   replies (world (snd r)) = 0%nat).
Proof.
  split; [| split; [| split]].
  - exists (firstn 24 Scenario.nul_request), []. vm_compute. reflexivity.
  - vm_compute. reflexivity.
  - vm_compute. reflexivity.
  - vm_compute. reflexivity.
Qed.

(** ** Would-block and the write step *)

Lemma do_read_again {E : Type} (eng : rustls_engine E) (s s1 : State E)
  (err n : Z) :
  rustls_connection_read_tls eng s = (Returns (err, n), s1) ->
  err = EAGAIN \/ err = EWOULDBLOCK ->
  do_read eng s = (Returns CRUSTLS_DEMO_AGAIN, logged DiagReadAgain s1).
Proof.
  intros Hr Herr. unfold do_read. rewrite (bind_returns _ _ _ _ _ Hr).
  assert (Hb : (err =? EAGAIN) || (err =? EWOULDBLOCK) = true).
  { destruct Herr as [-> | ->]; reflexivity. }
  rewrite Hb. reflexivity.
Qed.

Lemma handle_conn_write_ready_eq {E : Type} (eng : rustls_engine E)
  (s s1 : State E) (err n : Z) :
  rustls_connection_write_tls eng (logged DiagWantsWrite s) =
    (Returns (err, n), s1) ->
  handle_conn_write_ready eng s =
    if negb (err =? 0) then
      (Returns true, logged (DiagErrorWriteTls err) s1)
    else if n =? 0 then (Returns true, logged DiagEofWriteTls s1)
    else (Returns false, s1).
Proof.
  intros Hw. unfold handle_conn_write_ready. run.
  fold (logged DiagWantsWrite s). rewrite (bind_returns _ _ _ _ _ Hw).
  destruct (negb (err =? 0)); [reflexivity |].
  destruct (n =? 0); reflexivity.
Qed.

(** When [select] leaves the socket readable or writable its count is
    neither -1 nor 0: the iteration neither ends nor pauses. *)
Lemma select_ready_count {E : Type} (want_read want_write : bool)
  (u u1 : State E) (result : Z) (readable writable : bool) :
  select want_read want_write u =
    (Returns (result, readable, writable), u1) ->
  readable = true \/ writable = true ->
  (result =? -1) = false /\ (result =? 0) = false.
Proof.
  unfold select. destruct (selects (world u) 0%nat) as [e|r w].
  - intros [= <- <- <- <-] [H | H]; discriminate.
  - intros [= <- <- <- <-] [H | H]; rewrite H;
      destruct (want_read && r), (want_write && w);
      try discriminate; split; reflexivity.
Qed.

(** An iteration of the loop in which [select] leaves the socket readable
    or writable: the read cycles when it is readable; on their [break] the
    write block when it is writable, which ends the connection or goes on
    to the reply step and to the next iteration. *)
Lemma handle_conn_loop_step {E : Type} (eng : rustls_engine E)
  (fuel : nat) (state : exchange_state) (u u1 : State E) (result : Z)
  (readable writable : bool) :
  select (rustls_connection_wants_read eng (rconn (conn u)))
         (rustls_connection_wants_write eng (rconn (conn u))) u =
    (Returns (result, readable, writable), u1) ->
  readable = true \/ writable = true ->
  handle_conn_loop eng (S fuel) state u =
    (r <- (if readable then
             fprintf_stderr DiagWantsRead;;
             handle_conn_read_cycles eng fuel
           else ret None);;
     match r with
     | Some v => ret (v, state)
     | None =>
         stop <- (if writable then handle_conn_write_ready eng
                  else ret false);;
         if stop then ret (1, state)
         else
           state' <- handle_conn_reply eng state;;
           handle_conn_loop eng fuel state'
     end) u1.
Proof.
  intros Hsel Hrw.
  destruct (select_ready_count _ _ _ _ _ _ _ Hsel Hrw) as [H1 H0].
  cbn [handle_conn_loop]. run. rewrite (bind_returns _ _ _ _ _ Hsel).
  rewrite H1, H0. rewrite bind_ret. reflexivity.
Qed.

Lemma read_cycles_skip {E : Type} (eng : rustls_engine E) (j k : nat)
  (s0 s : State E) :
  ok_cycles eng j s0 s ->
  handle_conn_read_cycles eng (j + k) s0 = handle_conn_read_cycles eng k s.
Proof.
  revert s0. induction j as [|j IH]; intros s0 H; cbn [ok_cycles] in H.
  - subst s0. reflexivity.
  - destruct H as (s' & Hd & H).
    cbn [Nat.add handle_conn_read_cycles].
    rewrite (bind_returns _ _ _ _ _ Hd). apply IH, H.
Qed.

(** The read part of an iteration in which the socket is readable, when a
    read cycle that starts in [s] after [j] cycles ends with [r]. *)
Lemma read_part_ends {E : Type} (eng : rustls_engine E) (j k : nat)
  (u1 s s' : State E) (r : crustls_demo_result) (v : option Z) :
  ok_cycles eng j (logged DiagWantsRead u1) s ->
  do_read eng s = (Returns r, s') ->
  match r with
  | CRUSTLS_DEMO_AGAIN => v = None
  | CRUSTLS_DEMO_CLOSE_NOTIFY => v = Some 0
  | CRUSTLS_DEMO_OK => False
  | _ => v = Some 1
  end ->
  handle_conn_read_cycles eng (j + S k) (logged DiagWantsRead u1) =
    (Returns v, s') /\
  (fprintf_stderr DiagWantsRead;; handle_conn_read_cycles eng (j + S k)) u1 =
    (Returns v, s').
Proof.
  intros Hj Hd Hv.
  assert (H : handle_conn_read_cycles eng (j + S k)
                (logged DiagWantsRead u1) = (Returns v, s')).
  { rewrite (read_cycles_skip eng j (S k) _ s Hj).
    cbn [handle_conn_read_cycles]. rewrite (bind_returns _ _ _ _ _ Hd).
    destruct r; try contradiction; subst v; reflexivity. }
  split; [exact H |]. rewrite bind_fprintf_stderr. exact H.
Qed.

Lemma sys_write_once {E : Type} (fd0 : Z) (buf : list Z) (n : Z)
  (s : State E) :
  exists x s1 evs,
    sys_write fd0 buf n s = (Returns x, s1) /\
    trace (world s1) = evs ++ trace (world s) /\
    (length evs <= 1)%nat.
Proof.
  unfold sys_write.
  destruct (fd0 =? STDOUT_FILENO);
    [destruct (stdout_writes (world s) 0%nat)
    | destruct (socket_writes (world s) 0%nat)];
    eexists; eexists;
    first [exists []; split; [reflexivity |];
           split; [reflexivity | cbn; lia]
          | eexists [_]; split; [reflexivity |];
            split; [reflexivity | cbn; lia]].
Qed.

(** One call of [write_tls] makes at most one raw write. *)
Lemma write_tls_writes_once {E : Type} (eng : rustls_engine E)
  (s : State E) :
  exists evs,
    trace (world (snd (rustls_connection_write_tls eng s))) =
      evs ++ trace (world s) /\
    (length evs <= 1)%nat.
Proof.
  unfold rustls_connection_write_tls. run.
  destruct (write_tls_request eng (rconn (conn s))) as [buf|].
  - rewrite bind_assoc. unfold write_cb. run.
    destruct (sys_write_once (fd (conn s)) buf (strlen buf) s)
      as (x & s1 & evs & Hw & Ht & Hl).
    rewrite (bind_returns _ _ _ _ _ Hw).
    destruct (x <? 0); run;
      match goal with
      | |- context [write_tls_finish eng ?e ?cb] =>
          destruct (write_tls_finish eng e cb) as [res e']
      end; run; exists evs; (split; [exact Ht | exact Hl]).
  - run.
    match goal with
    | |- context [write_tls_finish eng ?e ?cb] =>
        destruct (write_tls_finish eng e cb) as [res e']
    end; run. exists []. split; [reflexivity | cbn; lia].
Qed.

(** C3, as the code has it.  In an iteration in which [select] leaves the
    socket writable and the read part has ended with its [break], the loop
    calls [write_tls] once, and what the loop does next is decided by that
    one call: on an error it ends ([goto cleanup] with [ret] 1), and so it
    does on a count of 0 without error ("EOF from write_tls"); only on a
    non-zero count without error does it go on, from the state that call
    has left, to the reply step and to the next iteration.  Between the
    [break] and that state lie the one line "rustls wants us to
    write_tls" and at most one raw write. *)
Theorem write_tls_zero_or_error_is_fatal {E : Type} (eng : rustls_engine E)
  (fuel : nat) (state : exchange_state) (u u1 t t1 : State E)
  (result : Z) (readable : bool) (err n : Z) :
  select (rustls_connection_wants_read eng (rconn (conn u)))
         (rustls_connection_wants_write eng (rconn (conn u))) u =
    (Returns (result, readable, true), u1) ->
  (if readable then
     fprintf_stderr DiagWantsRead;; handle_conn_read_cycles eng fuel
   else ret None) u1 = (Returns None, t) ->
  rustls_connection_write_tls eng (logged DiagWantsWrite t) =
    (Returns (err, n), t1) ->
  handle_conn_loop eng (S fuel) state u =
    (if negb (err =? 0) then
       (Returns (1, state), logged (DiagErrorWriteTls err) t1)
     else if n =? 0 then (Returns (1, state), logged DiagEofWriteTls t1)
     else
       (state' <- handle_conn_reply eng state;;
        handle_conn_loop eng fuel state') t1) /\
  handle_conn_write_ready eng t =
    (if negb (err =? 0) then
       (Returns true, logged (DiagErrorWriteTls err) t1)
     else if n =? 0 then (Returns true, logged DiagEofWriteTls t1)
     else (Returns false, t1)) /\
  (fst (handle_conn_write_ready eng t) = Returns false <->
   err = 0 /\ n <> 0) /\
  (exists evs,
     trace (world t1) = evs ++ EvStderr DiagWantsWrite :: trace (world t) /\
     (length evs <= 1)%nat).
Proof.
  intros Hsel Hreads Hw.
  pose proof (handle_conn_write_ready_eq eng t t1 err n Hw) as Hready.
  split; [| split; [exact Hready | split]].
  3:{ pose proof (write_tls_writes_once eng (logged DiagWantsWrite t)) as H.
      rewrite Hw in H. exact H. }
  - rewrite (handle_conn_loop_step eng fuel state u u1 result readable true
               Hsel (or_intror eq_refl)).
    rewrite (bind_returns _ _ _ _ _ Hreads). cbv iota.
    unfold bind at 1. rewrite Hready.
    destruct (negb (err =? 0)); [reflexivity |].
    destruct (n =? 0); reflexivity.
  - rewrite Hready.
    destruct (Z.eqb_spec err 0) as [He|He]; cbn [negb].
    + destruct (Z.eqb_spec n 0) as [Hn|Hn]; cbn [fst].
      * split; [discriminate | intros [_ H]; contradiction].
      * split; [auto | reflexivity].
    + cbn [fst]. split; [discriminate | intros [H _]; contradiction].
Qed.

Lemma write_tls_zero_or_error_is_fatal_witness :
  let u := Scenario3.reply_stalls in
  let u1 := mkState (conn u) (next_select (world u)) in
  let t := snd (handle_conn_read_cycles Loopback.engine 1
                  (logged DiagWantsRead u1)) in
  let t1 := snd (rustls_connection_write_tls Loopback.engine
                   (logged DiagWantsWrite t)) in
  rustls_connection_write_tls Loopback.engine (logged DiagWantsWrite t) =
    (Returns (0, 0), t1) /\
  handle_conn_loop Loopback.engine 2 READING_REQUEST u =
    (Returns (1, READING_REQUEST), logged DiagEofWriteTls t1).
Proof.
  cbv zeta.
  set (u := Scenario3.reply_stalls).
  set (u1 := mkState (conn u) (next_select (world u))).
  set (t := snd (handle_conn_read_cycles Loopback.engine 1
                   (logged DiagWantsRead u1))).
  assert (Hsel : select
                   (rustls_connection_wants_read Loopback.engine
                      (rconn (conn u)))
                   (rustls_connection_wants_write Loopback.engine
                      (rconn (conn u))) u =
                 (Returns (2, true, true), u1)) by reflexivity.
  assert (Hreads : (fprintf_stderr DiagWantsRead;;
                    handle_conn_read_cycles Loopback.engine 1) u1 =
                   (Returns None, t)) by reflexivity.
  assert (Hw : rustls_connection_write_tls Loopback.engine
                 (logged DiagWantsWrite t) =
               (Returns (0, 0),
                snd (rustls_connection_write_tls Loopback.engine
                       (logged DiagWantsWrite t)))) by reflexivity.
  split; [exact Hw |].
  exact (proj1 (write_tls_zero_or_error_is_fatal Loopback.engine 1
                  READING_REQUEST u u1 t _ 2 true 0 0 Hsel Hreads Hw)).
Defined.

(** C3, as the claim has it, fails: the reply is pending, the socket is
    writable, the raw write takes 0 bytes and reports no error, [write_tls]
    returns 0 bytes and no error, and the connection is closed there and
    then. *)
Lemma zero_bytes_flushed_ends_connection :
  socket_writes (world Scenario.write_takes_nothing) 0%nat = WriteTakes 0 /\
  (let r := handle_conn Loopback.engine 4 Scenario.write_takes_nothing in
   fst r = Returns (1, SENT_RESPONSE) /\
   firstn 4 (trace (world (snd r))) =
     [EvClose 4; EvStderr DiagEofWriteTls; EvSocketWrite 4 [];
      EvStderr DiagWantsWrite]).
Proof. by_computation. Qed.

(** C2, as the code has it.  In an iteration in which [select] leaves the
    socket readable, a would-block that [read_tls] passes on in any of the
    read cycles makes [do_read] return [CRUSTLS_DEMO_AGAIN]; the read
    cycles stop with the [break], not with [goto cleanup], and the loop
    goes on with the write block of the same iteration when the socket is
    writable, and from there, unless the write block ends the connection,
    with the reply step and the next readiness wait.  In an iteration in
    which the socket is writable, a would-block that [write_tls] passes on
    is an error like any other: the loop ends there with [ret] 1.  Both
    callbacks report a failed raw call by its errno. *)
Theorem would_block_breaks_reads_but_ends_on_write {E : Type}
  (eng : rustls_engine E) (j k fuel : nat) (state state' : exchange_state)
  (u u1 s s1 v v1 t t1 : State E) (result result' : Z)
  (wr readable : bool) (err n werr wn : Z) :
  select (rustls_connection_wants_read eng (rconn (conn u)))
         (rustls_connection_wants_write eng (rconn (conn u))) u =
    (Returns (result, true, wr), u1) ->
  ok_cycles eng j (logged DiagWantsRead u1) s ->
  rustls_connection_read_tls eng s = (Returns (err, n), s1) ->
  err = EAGAIN \/ err = EWOULDBLOCK ->
  select (rustls_connection_wants_read eng (rconn (conn v)))
         (rustls_connection_wants_write eng (rconn (conn v))) v =
    (Returns (result', readable, true), v1) ->
  (if readable then
     fprintf_stderr DiagWantsRead;; handle_conn_read_cycles eng fuel
   else ret None) v1 = (Returns None, t) ->
  rustls_connection_write_tls eng (logged DiagWantsWrite t) =
    (Returns (werr, wn), t1) ->
  werr = EAGAIN \/ werr = EWOULDBLOCK ->
  do_read eng s = (Returns CRUSTLS_DEMO_AGAIN, logged DiagReadAgain s1) /\
  handle_conn_read_cycles eng (j + S k) (logged DiagWantsRead u1) =
    (Returns None, logged DiagReadAgain s1) /\
  handle_conn_loop eng (S (j + S k)) state u =
    (stop <- (if wr then handle_conn_write_ready eng else ret false);;
     if stop then ret (1, state)
     else
       st <- handle_conn_reply eng state;;
       handle_conn_loop eng (j + S k) st) (logged DiagReadAgain s1) /\
  (wr = false ->
   handle_conn_loop eng (S (j + S k)) state u =
     (st <- handle_conn_reply eng state;;
      handle_conn_loop eng (j + S k) st) (logged DiagReadAgain s1)) /\
  (forall (e m : Z) (s2 : State E),
     wr = true ->
     rustls_connection_write_tls eng
       (logged DiagWantsWrite (logged DiagReadAgain s1)) =
       (Returns (e, m), s2) ->
     handle_conn_loop eng (S (j + S k)) state u =
       (if negb (e =? 0) then
          (Returns (1, state), logged (DiagErrorWriteTls e) s2)
        else if m =? 0 then (Returns (1, state), logged DiagEofWriteTls s2)
        else
          (st <- handle_conn_reply eng state;;
           handle_conn_loop eng (j + S k) st) s2)) /\
  handle_conn_loop eng (S fuel) state' v =
    (Returns (1, state'), logged (DiagErrorWriteTls werr) t1) /\
  handle_conn_write_ready eng t =
    (Returns true, logged (DiagErrorWriteTls werr) t1) /\
  match socket_reads (world s) 0%nat with
  | ReadFails e => forall len, fst (read_cb len s) = Returns (e, None)
  | ReadGives _ => True
  end /\
  match (if fd (conn t) =? STDOUT_FILENO then stdout_writes (world t)
         else socket_writes (world t)) 0%nat with
  | WriteFails e =>
      forall buf len, fst (write_cb buf len t) = Returns (e, None)
  | WriteTakes _ => True
  end.
Proof.
  intros Hsel Hj Hr Herr Hsel' Hreads Hw Hwerr.
  pose proof (do_read_again eng s s1 err n Hr Herr) as Hd.
  destruct (read_part_ends eng j k u1 s _ CRUSTLS_DEMO_AGAIN None Hj Hd
              eq_refl) as [Hcycles Hpart].
  pose proof (handle_conn_loop_step eng (j + S k) state u u1 result true wr
                Hsel (or_introl eq_refl)) as Hloop.
  cbv iota in Hloop. rewrite (bind_returns _ _ _ _ _ Hpart) in Hloop.
  cbv iota in Hloop.
  assert (Hready : handle_conn_write_ready eng t =
                   (Returns true, logged (DiagErrorWriteTls werr) t1)).
  { rewrite (handle_conn_write_ready_eq eng t t1 werr wn Hw).
    destruct Hwerr as [-> | ->]; reflexivity. }
  split; [exact Hd |]. split; [exact Hcycles |].
  split; [exact Hloop |].
  split; [| split; [| split; [| split; [exact Hready | split]]]].
  - intros ->. rewrite Hloop. rewrite bind_ret. reflexivity.
  - intros e m s2 -> Hw2. rewrite Hloop. unfold bind at 1.
    rewrite (handle_conn_write_ready_eq eng _ s2 e m Hw2).
    destruct (negb (e =? 0)); [reflexivity |].
    destruct (m =? 0); reflexivity.
  - rewrite (handle_conn_loop_step eng fuel state' v v1 result' readable
               true Hsel' (or_intror eq_refl)).
    rewrite (bind_returns _ _ _ _ _ Hreads). cbv iota.
    rewrite (bind_returns _ _ _ _ _ Hready). reflexivity.
  - destruct (socket_reads (world s) 0%nat) as [e|bytes] eqn:Hs; [| exact I].
    intros len. unfold read_cb. run. unfold sys_read, bind. rewrite Hs.
    reflexivity.
  - destruct (fd (conn t) =? STDOUT_FILENO) eqn:Hfd.
    + destruct (stdout_writes (world t) 0%nat) as [e|m] eqn:Hs; [| exact I].
      intros buf len. unfold write_cb. run. unfold sys_write, bind.
      rewrite Hfd, Hs. reflexivity.
    + destruct (socket_writes (world t) 0%nat) as [e|m] eqn:Hs; [| exact I].
      intros buf len. unfold write_cb. run. unfold sys_write, bind.
      rewrite Hfd, Hs. reflexivity.
Qed.

Lemma would_block_breaks_reads_but_ends_on_write_witness :
  let u := Scenario.reply_pending in
  let u1 := mkState (conn u) (next_select (world u)) in
  let s := logged DiagWantsRead u1 in
  let s1 := snd (rustls_connection_read_tls Loopback.engine s) in
  let t := logged DiagReadAgain s1 in
  let t1 := snd (rustls_connection_write_tls Loopback.engine
                   (logged DiagWantsWrite t)) in
  rustls_connection_read_tls Loopback.engine s =
    (Returns (EAGAIN, 0), s1) /\
  rustls_connection_write_tls Loopback.engine (logged DiagWantsWrite t) =
    (Returns (EWOULDBLOCK, 0), t1) /\
  handle_conn_read_cycles Loopback.engine 1 s = (Returns None, t) /\
  handle_conn_loop Loopback.engine 2 READING_REQUEST u =
    (Returns (1, READING_REQUEST),
     logged (DiagErrorWriteTls EWOULDBLOCK) t1).
Proof.
  cbv zeta.
  set (u := Scenario.reply_pending).
  set (u1 := mkState (conn u) (next_select (world u))).
  set (s := logged DiagWantsRead u1).
  set (s1 := snd (rustls_connection_read_tls Loopback.engine s)).
  set (t := logged DiagReadAgain s1).
  assert (Hsel : select
                   (rustls_connection_wants_read Loopback.engine
                      (rconn (conn u)))
                   (rustls_connection_wants_write Loopback.engine
                      (rconn (conn u))) u =
                 (Returns (2, true, true), u1)) by reflexivity.
  assert (Hr : rustls_connection_read_tls Loopback.engine s =
               (Returns (EAGAIN, 0), s1)) by reflexivity.
  assert (Hreads : (fprintf_stderr DiagWantsRead;;
                    handle_conn_read_cycles Loopback.engine 1) u1 =
                   (Returns None, t)) by reflexivity.
  assert (Hw : rustls_connection_write_tls Loopback.engine
                 (logged DiagWantsWrite t) =
               (Returns (EWOULDBLOCK, 0),
                snd (rustls_connection_write_tls Loopback.engine
                       (logged DiagWantsWrite t)))) by reflexivity.
  destruct (would_block_breaks_reads_but_ends_on_write Loopback.engine
              0 0 1 READING_REQUEST READING_REQUEST u u1 s s1 u u1 t _
              2 2 true true EAGAIN 0 EWOULDBLOCK 0
              Hsel eq_refl Hr (or_introl eq_refl) Hsel Hreads Hw
              (or_intror eq_refl))
    as (_ & Hcycles & _ & _ & _ & Hends & _).
  split; [exact Hr |]. split; [exact Hw |].
  split; [exact Hcycles | exact Hends].
Defined.

(** C2, as the claim has it, fails: the reply is pending, the raw write on
    the socket would block, and the connection is closed with the error
    reported and the reply never sent. *)
Lemma would_block_on_write_ends_connection :
  socket_writes (world Scenario.write_would_block) 0%nat =
    WriteFails EWOULDBLOCK /\
  (let r := handle_conn Loopback.engine 4 Scenario.write_would_block in
   fst r = Returns (1, SENT_RESPONSE) /\
   firstn 3 (trace (world (snd r))) =
     [EvClose 4; EvStderr (DiagErrorWriteTls EWOULDBLOCK);
      EvStderr DiagWantsWrite]).
Proof. by_computation. Qed.

(** ** The output sink *)

Lemma write_all_first_write_fails {E : Type} (buf : list Z) (n : Z)
  (s : State E) :
  0 < n ->
  match stdout_writes (world s) 0%nat with
  | WriteFails _ => True
  | WriteTakes m => m <= 0
  end ->
  exists s', write_all STDOUT_FILENO buf n s = (Returns 1, s') /\
             conn s' = conn s.
Proof.
  intros Hn Hw. unfold write_all.
  destruct (Z.to_nat n) as [|k] eqn:Hk; [lia |].
  cbn [write_all_loop]. destruct (Z.gtb_spec n 0); [| lia].
  unfold bind at 1, sys_write at 1.
  change (STDOUT_FILENO =? STDOUT_FILENO) with true. cbv iota.
  destruct (stdout_writes (world s) 0%nat) as [e|m].
  - run. eexists. split; reflexivity.
  - replace (Z.max 0 (Z.min m n)) with 0 by lia.
    run. eexists. split; reflexivity.
Qed.

Lemma write_all_loop_zero {E : Type} (k : nat) (fd0 : Z) (buf : list Z)
  (n : Z) (s : State E) :
  n <= 0 -> write_all_loop k fd0 buf n s = (Returns 0, s).
Proof.
  intros Hn. destruct k; cbn [write_all_loop];
    destruct (Z.gtb_spec n 0); try lia; reflexivity.
Qed.

(** [write_all] returns 0, or 1 right after one of its two lines. *)
Lemma write_all_loop_verdict {E : Type} (k : nat) (fd0 : Z) (buf : list Z)
  (n : Z) (s s' : State E) (r : Z) :
  write_all_loop k fd0 buf n s = (Returns r, s') ->
  r = 0 \/ r = 1 /\ sink_complained (world s').
Proof.
  revert n s. induction k as [|k IH]; intros n s; cbn [write_all_loop].
  - destruct (n >? 0); [discriminate |].
    unfold ret. intros [= <- <-]. left. reflexivity.
  - destruct (n >? 0);
      [| unfold ret; intros [= <- <-]; left; reflexivity].
    unfold bind at 1.
    destruct (sys_write_result fd0 buf n s) as (m & s1 & Hw & _ & _).
    rewrite Hw.
    destruct (m <? 0).
    { run. unfold ret. intros [= <- <-]. right. split; [reflexivity |].
      exact I. }
    destruct (m =? 0).
    { run. unfold ret. intros [= <- <-]. right. split; [reflexivity |].
      exact I. }
    apply IH.
Qed.

(** A round of the drain in which the engine hands over a non-empty chunk:
    the chunk is appended to the accumulator, and then forwarded to the
    sink; the round returns [CRUSTLS_DEMO_ERROR] unless [write_all] returns
    0, and goes on to the next round when it does. *)
Lemma round_to_sink {E : Type} (eng : rustls_engine E) (x : State E)
  (chunk : list Z) :
  acc_ok 2048 x -> chunk_at eng x chunk -> chunk <> [] ->
  exists x1 buf,
    (forall again,
       copy_plaintext_round eng again x =
       (r <- write_all STDOUT_FILENO buf (Z.of_nat (length chunk));;
        if negb (r =? 0) then ret CRUSTLS_DEMO_ERROR else again) x1) /\
    world x1 = world x /\
    acc_ok 2048 x1 /\
    accumulated (conn x1) = accumulated (conn x) ++ chunk /\
    firstn (length chunk) buf = chunk.
Proof.
  intros Hok (bytes & e' & Hread & Hchunk) Hne.
  pose proof (avail_exact 2048 x Hok) as Hav.
  cbv zeta in Hread, Hchunk. rewrite Hav in Hread, Hchunk.
  destruct Hok as (Hcap & Hlen & Hmem & Hmod).
  assert (Hcl : Z.of_nat (length chunk) <= 2048 - data_len (conn x) - 1).
  { subst chunk. rewrite length_firstn. lia. }
  assert (Hpos : 0 < Z.of_nat (length chunk)).
  { destruct chunk; [congruence | cbn [length]; lia]. }
  destruct (store_bytes (data_from_client (conn x))
              (Z.to_nat (data_len (conn x))) chunk) as [mem|] eqn:Hst;
    [| rewrite store_bytes_Some in Hst by lia; discriminate].
  assert (Hmem' : length mem = length (data_from_client (conn x))).
  { apply (store_bytes_length _ (Z.to_nat (data_len (conn x))) chunk).
    exact Hst. }
  exists (mkState (mkConn (fd (conn x)) e' mem
                          (data_len (conn x) + Z.of_nat (length chunk))
                          (data_capacity (conn x)))
                  (world x)),
         (load_from mem (Z.to_nat (data_len (conn x)))).
  split; [| split; [reflexivity | split; [| split]]].
  - intros again. unfold copy_plaintext_round. run.
    rewrite Hav, Hread. rewrite <- Hchunk. run. rewrite Hst. run.
    cbn [rustls_result_eqb negb].
    destruct (Z.eqb_spec (Z.of_nat (length chunk)) 0); [lia |].
    run. rewrite size_add_small by (rewrite ?SIZE_MODULUS_value; lia).
    assert (Hint : int_of_size_t (Z.of_nat (length chunk)) =
                   Z.of_nat (length chunk)).
    { unfold int_of_size_t. rewrite Z.mod_small; lia. }
    rewrite Hint. reflexivity.
  - unfold acc_ok. cbn [conn data_capacity data_len data_from_client].
    rewrite Hmem'. repeat split; auto; lia.
  - unfold accumulated. cbn [conn data_len data_from_client].
    replace (Z.to_nat (data_len (conn x) + Z.of_nat (length chunk)))
      with (Z.to_nat (data_len (conn x)) + length chunk)%nat by lia.
    apply store_bytes_prefix, Hst.
  - unfold store_bytes in Hst.
    destruct (Z.to_nat (data_len (conn x)) + length chunk <=?
              length (data_from_client (conn x)))%nat; [| discriminate].
    injection Hst as <-. unfold load_from.
    rewrite skipn_app, length_firstn.
    replace (Nat.min (Z.to_nat (data_len (conn x)))
                     (length (data_from_client (conn x))))
      with (Z.to_nat (data_len (conn x))) by lia.
    rewrite Nat.sub_diag. cbn [skipn].
    rewrite skipn_all2 by (rewrite length_firstn; lia).
    cbn [app]. rewrite firstn_app, Nat.sub_diag, firstn_all.
    cbn [firstn]. apply app_nil_r.
Qed.

(** Every such round appends its chunk and then either goes on or fails
    right after a line of [write_all]. *)
Lemma round_verdict {E : Type} (eng : rustls_engine E) (x : State E)
  (chunk : list Z) :
  acc_ok 2048 x -> chunk_at eng x chunk -> chunk <> [] ->
  exists y,
    accumulated (conn y) = accumulated (conn x) ++ chunk /\
    (round_goes_on eng x y \/
     round_fails eng x y /\ sink_complained (world y)).
Proof.
  intros Hok Hchunk Hne.
  destruct (round_to_sink eng x chunk Hok Hchunk Hne)
    as (x1 & buf & Hround & _ & _ & Hacc & _).
  destruct (write_all_returns STDOUT_FILENO buf
              (Z.of_nat (length chunk)) x1) as (r & y & Hrun & Hc).
  exists y. split; [rewrite Hc; exact Hacc |].
  destruct (write_all_loop_verdict _ _ _ _ _ _ _ Hrun) as [-> | [-> Hs]].
  - left. intros again. rewrite Hround, (bind_returns _ _ _ _ _ Hrun).
    reflexivity.
  - right. split; [| exact Hs].
    intros again. rewrite Hround, (bind_returns _ _ _ _ _ Hrun).
    reflexivity.
Qed.

(** The round fails when the first write to the sink fails or takes
    nothing. *)
Lemma round_fails_on_sink {E : Type} (eng : rustls_engine E)
  (x : State E) (chunk : list Z) :
  acc_ok 2048 x -> chunk_at eng x chunk -> chunk <> [] ->
  match stdout_writes (world x) 0%nat with
  | WriteFails _ => True
  | WriteTakes m => m <= 0
  end ->
  exists y,
    round_fails eng x y /\
    accumulated (conn y) = accumulated (conn x) ++ chunk /\
    sink_complained (world y).
Proof.
  intros Hok Hchunk Hne Hsink.
  destruct (round_to_sink eng x chunk Hok Hchunk Hne)
    as (x1 & buf & Hround & Hw & _ & Hacc & _).
  assert (Hpos : 0 < Z.of_nat (length chunk)).
  { destruct chunk; [congruence | cbn [length]; lia]. }
  rewrite <- Hw in Hsink.
  destruct (write_all_first_write_fails buf (Z.of_nat (length chunk)) x1
              Hpos Hsink) as (y & Hrun & Hc).
  exists y. split; [| split; [rewrite Hc; exact Hacc |]].
  - intros again. rewrite Hround, (bind_returns _ _ _ _ _ Hrun).
    reflexivity.
  - destruct (write_all_loop_verdict _ _ _ _ _ _ _ Hrun)
      as [H | [_ H]]; [discriminate | exact H].
Qed.

(** The round goes on when the sink takes the whole chunk. *)
Lemma round_goes_on_when_taken {E : Type} (eng : rustls_engine E)
  (x : State E) (chunk : list Z) (m : Z) :
  acc_ok 2048 x -> chunk_at eng x chunk -> chunk <> [] ->
  stdout_writes (world x) 0%nat = WriteTakes m ->
  Z.of_nat (length chunk) <= m ->
  exists y,
    round_goes_on eng x y /\
    accumulated (conn y) = accumulated (conn x) ++ chunk /\
    trace (world y) = EvStdout chunk :: trace (world x).
Proof.
  intros Hok Hchunk Hne Hsink Hm.
  destruct (round_to_sink eng x chunk Hok Hchunk Hne)
    as (x1 & buf & Hround & Hw & _ & Hacc & Hbuf).
  assert (Hpos : 0 < Z.of_nat (length chunk)).
  { destruct chunk; [congruence | cbn [length]; lia]. }
  exists (mkState (conn x1)
                  (emit (EvStdout chunk) (next_stdout_write (world x1)))).
  split; [| split; [exact Hacc | cbn [world trace emit]; rewrite Hw;
                                  reflexivity]].
  intros again. rewrite Hround. unfold write_all.
  rewrite Nat2Z.id.
  destruct (length chunk) as [|k] eqn:Hk; [cbn in Hpos; lia |].
  cbn [write_all_loop].
  destruct (Z.gtb_spec (Z.of_nat (S k)) 0); [| lia].
  rewrite bind_assoc. unfold bind at 1, sys_write at 1.
  change (STDOUT_FILENO =? STDOUT_FILENO) with true. cbv iota.
  rewrite Hw, Hsink.
  replace (Z.max 0 (Z.min m (Z.of_nat (S k)))) with (Z.of_nat (S k))
    by lia.
  rewrite Nat2Z.id, Hbuf.
  destruct (Z.ltb_spec (Z.of_nat (S k)) 0); [lia |].
  destruct (Z.eqb_spec (Z.of_nat (S k)) 0); [lia |].
  rewrite Z.sub_diag.
  unfold bind at 1. rewrite write_all_loop_zero by lia.
  reflexivity.
Qed.

(** Rounds that go on each take at least one byte of the room left. *)
Lemma rounds_go_on_room {E : Type} (eng : rustls_engine E) (i : nat)
  (x y : State E) :
  acc_ok 2048 x -> rounds_go_on eng i x y ->
  acc_ok 2048 y /\ data_len (conn x) + Z.of_nat i <= data_len (conn y).
Proof.
  revert x. induction i as [|i IH]; intros x Hok H;
    cbn [rounds_go_on] in H.
  - subst y. split; [exact Hok | lia].
  - destruct H as (z & Hgo & H).
    destruct (copy_plaintext_round_step eng 2048 out_of_fuel x Hok)
      as (s1 & Hs1 & [[Heq Hlt] | [r Hr]]).
    + rewrite (Hgo out_of_fuel) in Heq. unfold out_of_fuel in Heq.
      injection Heq as Heq. subst z.
      destruct (IH s1 Hs1 H) as [Hy Hl]. split; [exact Hy | lia].
    + rewrite (Hgo out_of_fuel) in Hr. discriminate.
Qed.

Lemma drain_fails_after {E : Type} (eng : rustls_engine E) (i : nat)
  (x0 x x' : State E) (K : nat) :
  acc_ok 2048 x0 -> rounds_go_on eng i x0 x -> round_fails eng x x' ->
  2047 - data_len (conn x0) <= Z.of_nat K ->
  copy_plaintext_loop eng K x0 = (Returns CRUSTLS_DEMO_ERROR, x').
Proof.
  revert x0 K. induction i as [|i IH]; intros x0 K Hok Hgo Hfail HK;
    cbn [rounds_go_on] in Hgo.
  - subst x0. destruct K; cbn [copy_plaintext_loop]; apply Hfail.
  - destruct Hgo as (z & Hz & Hgo).
    destruct (rounds_go_on_room eng 1 x0 z Hok) as [Hokz Hl].
    { exists z. split; [exact Hz | reflexivity]. }
    destruct Hokz as (Hc & Hlen & Hrest).
    destruct K as [|K]; [lia |].
    cbn [copy_plaintext_loop]. rewrite Hz.
    apply IH; [repeat split; tauto | exact Hgo | exact Hfail | lia].
Qed.

(** Past its [realloc] step the drain is its loop, with as many rounds as
    there is room. *)
Lemma drain_past_realloc {E : Type} (eng : rustls_engine E)
  (d d0 : State E) :
  acc_ok 2048 d -> drain_ready d d0 ->
  acc_ok 2048 d0 /\
  copy_plaintext_to_buffer eng d =
    copy_plaintext_loop eng (Z.to_nat (2047 - data_len (conn d0))) d0.
Proof.
  intros Hok Hready.
  assert (Hloop : forall s1 : State E,
             acc_ok 2048 s1 ->
             Z.to_nat (size_sub (size_sub (data_capacity (conn s1))
                                          (data_len (conn s1))) 1) =
             Z.to_nat (2047 - data_len (conn s1))).
  { intros s1 Hs1. rewrite (avail_exact 2048 s1 Hs1). f_equal. lia. }
  unfold drain_ready in Hready. cbv zeta in Hready.
  unfold copy_plaintext_to_buffer. run.
  destruct (size_sub (data_capacity (conn d)) (data_len (conn d)) <? 1024).
  - destruct Hready as (junk & Hj & ->).
    assert (Hok0 : acc_ok 2048
                     (mkState
                        (mkConn (fd (conn d)) (rconn (conn d))
                           (resized (data_from_client (conn d))
                              (size_mul (data_capacity (conn d)) 2) junk)
                           (data_len (conn d)) (data_capacity (conn d)))
                        (next_realloc (world d)))).
    { destruct Hok as (Hcap & Hlen & Hmem & Hmod).
      unfold acc_ok. cbn [conn data_capacity data_len data_from_client].
      rewrite resized_length, Hcap.
      rewrite size_mul_small by (rewrite ?SIZE_MODULUS_value in *; lia).
      repeat split; auto; lia. }
    split; [exact Hok0 |].
    rewrite bind_assoc. unfold realloc at 1. unfold bind at 1.
    rewrite Hj. cbn [option_map]. run.
    pose proof (Hloop _ Hok0) as HK.
    cbn [conn data_capacity data_len] in HK. rewrite HK. reflexivity.
  - subst d0. split; [exact Hok |]. run. rewrite (Hloop _ Hok).
    reflexivity.
Qed.

(** A read cycle that gets to the drain returns what the drain returns,
    unless that is a close-notify. *)
Lemma do_read_drains {E : Type} (eng : rustls_engine E) (s s1 x' : State E)
  (n : Z) (e' : E) (r : crustls_demo_result) :
  rustls_connection_read_tls eng s = (Returns (0, n), s1) ->
  n <> 0 ->
  rustls_connection_process_new_packets eng (rconn (conn s1)) =
    (RUSTLS_RESULT_OK, e') ->
  copy_plaintext_to_buffer eng (drain_start s1 n e') = (Returns r, x') ->
  r <> CRUSTLS_DEMO_CLOSE_NOTIFY ->
  do_read eng s = (Returns r, logged (DiagDoReadReturning r) x').
Proof.
  intros Hr Hn Hp Hc Hnot. unfold drain_start in Hc.
  unfold do_read. rewrite (bind_returns _ _ _ _ _ Hr).
  change (0 =? EAGAIN) with false. change (0 =? EWOULDBLOCK) with false.
  cbn [orb negb Z.eqb].
  destruct (Z.eqb_spec n 0); [contradiction |].
  run. rewrite Hp. run. cbn [rustls_result_eqb negb].
  rewrite (bind_returns _ _ _ _ _ Hc).
  destruct r; cbn [demo_result_eqb negb]; try contradiction; run;
    reflexivity.
Qed.

(** C8, as the code has it.  Forwarding to the sink is not a pure side
    effect.  In every round of the drain in which the engine hands over a
    non-empty chunk, the chunk is appended to the accumulator first and
    then forwarded; the round goes on to the next one unless [write_all]
    has written one of its two lines (a write failed, or took nothing),
    and it does go on when the sink takes the whole chunk.  When, in a
    read cycle of an iteration and after any number of rounds that went
    on, the first write of a chunk to the sink fails or takes nothing, the
    drain returns [CRUSTLS_DEMO_ERROR] with the chunk appended, [do_read]
    returns [CRUSTLS_DEMO_ERROR], and the loop ends there with [ret] 1. *)
Theorem sink_failure_is_fatal {E : Type} (eng : rustls_engine E)
  (j k i : nat) (state : exchange_state) (u u1 s s1 d0 x : State E)
  (result : Z) (wr : bool) (n : Z) (e' : E) (chunk : list Z) :
  select (rustls_connection_wants_read eng (rconn (conn u)))
         (rustls_connection_wants_write eng (rconn (conn u))) u =
    (Returns (result, true, wr), u1) ->
  ok_cycles eng j (logged DiagWantsRead u1) s ->
  acc_ok 2048 s ->
  rustls_connection_read_tls eng s = (Returns (0, n), s1) ->
  n <> 0 ->
  rustls_connection_process_new_packets eng (rconn (conn s1)) =
    (RUSTLS_RESULT_OK, e') ->
  drain_ready (drain_start s1 n e') d0 ->
  rounds_go_on eng i d0 x ->
  chunk_at eng x chunk ->
  chunk <> [] ->
  match stdout_writes (world x) 0%nat with
  | WriteFails _ => True
  | WriteTakes m => m <= 0
  end ->
  (exists x',
     accumulated (conn x') = accumulated (conn x) ++ chunk /\
     sink_complained (world x') /\
     copy_plaintext_to_buffer eng (drain_start s1 n e') =
       (Returns CRUSTLS_DEMO_ERROR, x') /\
     do_read eng s =
       (Returns CRUSTLS_DEMO_ERROR,
        logged (DiagDoReadReturning CRUSTLS_DEMO_ERROR) x') /\
     handle_conn_read_cycles eng (j + S k) (logged DiagWantsRead u1) =
       (Returns (Some 1),
        logged (DiagDoReadReturning CRUSTLS_DEMO_ERROR) x') /\
     handle_conn_loop eng (S (j + S k)) state u =
       (Returns (1, state),
        logged (DiagDoReadReturning CRUSTLS_DEMO_ERROR) x')) /\
  (forall z c,
     acc_ok 2048 z -> chunk_at eng z c -> c <> [] ->
     exists y,
       accumulated (conn y) = accumulated (conn z) ++ c /\
       (round_goes_on eng z y \/
        round_fails eng z y /\ sink_complained (world y))) /\
  (forall z c m,
     acc_ok 2048 z -> chunk_at eng z c -> c <> [] ->
     stdout_writes (world z) 0%nat = WriteTakes m ->
     Z.of_nat (length c) <= m ->
     exists y,
       round_goes_on eng z y /\
       accumulated (conn y) = accumulated (conn z) ++ c /\
       trace (world y) = EvStdout c :: trace (world z)).
Proof.
  intros Hsel Hj Hok Hr Hn Hp Hready Hgo Hchunk Hne Hsink.
  split; [| split; [intros z c; apply round_verdict
                   | intros z c m; apply round_goes_on_when_taken]].
  assert (Hok1 : acc_ok 2048 s1).
  { pose proof (rustls_connection_read_tls_sound eng 2048 s Hok) as H.
    rewrite Hr in H. exact (proj1 H). }
  assert (Hokd : acc_ok 2048 (drain_start s1 n e')) by exact Hok1.
  destruct (drain_past_realloc eng _ d0 Hokd Hready) as [Hok0 Hdrain].
  destruct (rounds_go_on_room eng i d0 x Hok0 Hgo) as [Hokx _].
  destruct (round_fails_on_sink eng x chunk Hokx Hchunk Hne Hsink)
    as (x' & Hfail & Hacc & Hline).
  exists x'. split; [exact Hacc |]. split; [exact Hline |].
  assert (Hc : copy_plaintext_to_buffer eng (drain_start s1 n e') =
               (Returns CRUSTLS_DEMO_ERROR, x')).
  { rewrite Hdrain.
    apply (drain_fails_after eng i d0 x x' _ Hok0 Hgo Hfail).
    destruct Hok0 as (_ & Hlen & _). lia. }
  split; [exact Hc |].
  assert (Hd : do_read eng s =
               (Returns CRUSTLS_DEMO_ERROR,
                logged (DiagDoReadReturning CRUSTLS_DEMO_ERROR) x')).
  { apply (do_read_drains eng s s1 x' n e' CRUSTLS_DEMO_ERROR Hr Hn Hp Hc).
    discriminate. }
  split; [exact Hd |].
  destruct (read_part_ends eng j k u1 s _ CRUSTLS_DEMO_ERROR (Some 1) Hj Hd
              eq_refl) as [Hcycles Hpart].
  split; [exact Hcycles |].
  rewrite (handle_conn_loop_step eng (j + S k) state u u1 result true wr
             Hsel (or_introl eq_refl)).
  cbv iota. rewrite (bind_returns _ _ _ _ _ Hpart). reflexivity.
Qed.

Lemma sink_failure_is_fatal_witness :
  let u := Scenario.sink_fails in
  acc_ok 2048 u /\
  stdout_writes (world u) 0%nat = WriteFails 32 /\
  exists x',
    handle_conn_loop Loopback.engine 2 READING_REQUEST u =
      (Returns (1, READING_REQUEST),
       logged (DiagDoReadReturning CRUSTLS_DEMO_ERROR) x') /\
    accumulated (conn x') = Scenario.get_request /\
    sink_complained (world x').
Proof.
  cbv zeta.
  set (u := Scenario.sink_fails).
  set (u1 := mkState (conn u) (next_select (world u))).
  set (s := logged DiagWantsRead u1).
  set (s1 := snd (rustls_connection_read_tls Loopback.engine s)).
  set (n := Z.of_nat (length (Loopback.seal Scenario.get_request))).
  set (e' := snd (rustls_connection_process_new_packets Loopback.engine
                    (rconn (conn s1)))).
  assert (Hok : acc_ok 2048 s) by by_computation.
  assert (Hoku : acc_ok 2048 u) by by_computation.
  assert (Hsel : select
                   (rustls_connection_wants_read Loopback.engine
                      (rconn (conn u)))
                   (rustls_connection_wants_write Loopback.engine
                      (rconn (conn u))) u =
                 (Returns (1, true, false), u1)) by reflexivity.
  assert (Hr : rustls_connection_read_tls Loopback.engine s =
               (Returns (0, n), s1)) by (vm_compute; reflexivity).
  assert (Hn : n <> 0) by (vm_compute; discriminate).
  assert (Hp : rustls_connection_process_new_packets Loopback.engine
                 (rconn (conn s1)) = (RUSTLS_RESULT_OK, e'))
    by (vm_compute; reflexivity).
  assert (Hready : drain_ready (drain_start s1 n e') (drain_start s1 n e'))
    by (vm_compute; reflexivity).
  assert (Hchunk : chunk_at Loopback.engine (drain_start s1 n e')
                     Scenario.get_request).
  { eexists. eexists. split; vm_compute; reflexivity. }
  assert (Hne : Scenario.get_request <> []) by (vm_compute; discriminate).
  assert (Hsink : match stdout_writes (world (drain_start s1 n e')) 0%nat
                  with
                  | WriteFails _ => True
                  | WriteTakes m => m <= 0
                  end) by (vm_compute; exact I).
  destruct (sink_failure_is_fatal Loopback.engine 0 0 0 READING_REQUEST
              u u1 s s1 _ _ 1 false n e' Scenario.get_request
              Hsel eq_refl Hok Hr Hn Hp Hready eq_refl Hchunk Hne Hsink)
    as [(x' & Hacc & Hline & _ & Hd & _ & Hloop) _].
  split; [exact Hoku |]. split; [reflexivity |].
  exists x'. split; [exact Hloop |]. split; [| exact Hline].
  rewrite Hacc. vm_compute. reflexivity.
Defined.

(** C8, as the claim has it, fails: two runs that differ only in whether
    the first write to the sink succeeds.  With a working sink the request
    is answered and the connection goes on; with a failing sink the
    connection is closed without a reply. *)
Lemma sink_failure_changes_the_outcome :
  (let r := handle_conn Loopback.engine 4 Scenario.sink_works in
   fst r = OutOfFuel /\ replies (world (snd r)) = 1%nat /\
   accumulated (conn (snd r)) = Scenario.get_request) /\
  (let r := handle_conn Loopback.engine 4 Scenario.sink_fails in
   fst r = Returns (1, READING_REQUEST) /\
   replies (world (snd r)) = 0%nat /\
   accumulated (conn (snd r)) = Scenario.get_request /\
   firstn 3 (trace (world (snd r))) =
     [EvClose 4; EvStderr (DiagDoReadReturning CRUSTLS_DEMO_ERROR);
      EvStderr DiagPerrorStdout]).
Proof. by_computation. Qed.

(** ** Where the code departs from its own intent *)

Lemma accumulated_length {E : Type} (c : conndata_t E) :
  (length (accumulated c) <= Z.to_nat (data_len c))%nat.
Proof. unfold accumulated. rewrite length_firstn. lia. Qed.

(** C1.  The peer sends 2100 bytes of plaintext in ten records, delivered
    in two raw reads with a would-block in between.  However long the
    connection runs, the accumulator never holds what was sent: after six
    rounds of the loop it holds the first 2047 bytes, the other 53 are
    still in the engine, and the tracked capacity is still 2048. *)
Theorem long_plaintext_is_cut_at_2047 :
  length Scenario.long_plaintext = 2100%nat /\
  (forall fuel,
     accumulated (conn (snd (handle_conn Loopback.engine fuel
                               Scenario.long_start))) <>
     Scenario.long_plaintext) /\
  (let r := handle_conn Loopback.engine 6 Scenario.long_start in
   accumulated (conn (snd r)) = firstn 2047 Scenario.long_plaintext /\
   Loopback.plaintext (rconn (conn (snd r))) =
     skipn 2047 Scenario.long_plaintext /\
   data_capacity (conn (snd r)) = 2048).
Proof.
  split; [reflexivity |]. split.
  - intros fuel Heq.
    assert (Hok : acc_ok 2048 Scenario.long_start) by by_computation.
    destruct (handle_conn_sound Loopback.engine 2048 fuel
                Scenario.long_start Hok) as [(_ & Hlen & _) _].
    pose proof (accumulated_length
                  (conn (snd (handle_conn Loopback.engine fuel
                                Scenario.long_start)))) as Hacc.
    rewrite Heq in Hacc.
    change (length Scenario.long_plaintext) with 2100%nat in Hacc. lia.
  - by_computation.
Qed.

(** C4.  When the second drain of this connection begins, 1100 bytes are
    held and 948 are free: fewer than 1024.  The block is reallocated to
    4096 bytes, but the tracked capacity stays 2048; so does it at the end
    of the run that leads there, and at the end of every run of every
    connection, whatever the engine and the world do. *)
Theorem capacity_is_not_doubled :
  (let s := Scenario.growth_second_drain in
   size_sub (data_capacity (conn s)) (data_len (conn s)) = 948 /\
   let r := copy_plaintext_to_buffer Loopback.engine s in
   fst r = Returns CRUSTLS_DEMO_OK /\
   data_len (conn (snd r)) = 1101 /\
   length (data_from_client (conn (snd r))) = 4096%nat /\
   data_capacity (conn (snd r)) = 2048) /\
  (let r := handle_conn Loopback.engine 4 Scenario.growth_start in
   data_len (conn (snd r)) = 1101 /\
   length (data_from_client (conn (snd r))) = 4096%nat /\
   data_capacity (conn (snd r)) = 2048) /\
  (forall (E : Type) (eng : rustls_engine E) (fuel : nat) (fd0 : Z) (e : E)
          (w : World),
     data_capacity
       (conn (snd (handle_conn eng fuel
                     (mkState (mkConn fd0 e (repeat 0 2048%nat) 0 2048) w))))
     = 2048).
Proof.
  split; [by_computation |]. split; [by_computation |].
  intros E eng fuel fd0 e w.
  apply (handle_conn_sound eng 2048 fuel), new_connection_acc_ok.
Qed.

(** C6.  The peer sends a request, a close-notify and then three more
    bytes.  When an earlier read of the connection has failed with
    would-block, [errno] still holds that value when the read after the
    close-notify returns the three bytes, and the connection ends as a
    clean close; when the same traffic arrives without an earlier failed
    read, the same three bytes are reported as an error.  A peer that
    closes after its close-notify gets a clean close. *)
Theorem traffic_after_close_notify_goes_unreported :
  (let r := handle_conn Loopback.engine 4 Scenario.close_then_bytes in
   fst r = Returns (0, SENT_RESPONSE) /\
   errno (world (snd r)) = EWOULDBLOCK /\
   firstn 2 (trace (world (snd r))) =
     [EvClose 4; EvStderr DiagReceivedCloseNotify]) /\
  (let r := handle_conn Loopback.engine 4 Scenario.close_then_bytes_at_once in
   fst r = Returns (1, READING_REQUEST) /\
   firstn 2 (trace (world (snd r))) =
     [EvClose 4; EvStderr (DiagReadAfterCloseNotify 3)]) /\
  (let r := handle_conn Loopback.engine 4 Scenario.close_then_eof in
   fst r = Returns (0, SENT_RESPONSE)).
Proof. by_computation. Qed.

(** ** Lifetimes *)

Section Lifetimes.

Context {E : Type}.
Variable eng : rustls_engine E.

Lemma handle_conn_loop_keeps (fuel : nat) (state : exchange_state)
  (ok : event -> bool) (t0 : list event) :
  (forall e, is_release e = false -> ok e = true) ->
  preserves (fun s : State E => grown ok t0 (world s))
            (handle_conn_loop eng fuel state).
Proof.
  intros Hok. apply handle_conn_loop_trace; intros; apply Hok; reflexivity.
Qed.

(** Up to [cleanup], [handle_conn] releases nothing; at [cleanup] it closes
    the socket, and that is all. *)
Lemma handle_conn_releases (fuel : nat) (s : State E) :
  match handle_conn eng fuel s with
  | (Returns _, s') =>
      exists evs,
        trace (world s') =
          (if fd (conn s) >? 0 then [EvClose (fd (conn s))] else []) ++
          evs ++ trace (world s) /\
        forallb keeps evs = true
  | (_, s') => grown keeps (trace (world s)) (world s')
  end.
Proof.
  unfold handle_conn. run.
  assert (H1 : grown keeps (trace (world s))
                 (world (logged (DiagAccepted (fd (conn s))) s))).
  { apply grown_emit; [reflexivity | apply grown_refl]. }
  pose proof (handle_conn_loop_keeps fuel READING_REQUEST keeps
                (trace (world s))
                (fun e He => f_equal negb He)
                (logged (DiagAccepted (fd (conn s))) s) H1) as H2.
  unfold logged in H2. unfold bind at 1.
  destruct (handle_conn_loop eng fuel READING_REQUEST _)
    as [[r| | |] s2]; cbn [fst snd] in H2; try exact H2.
  destruct H2 as (evs & Ht & Hall).
  destruct (fd (conn s) >? 0); run; unfold ret; exists evs;
    cbn [world trace emit app]; rewrite Ht; split; auto.
Qed.

Lemma handle_conn_frees_nothing (fuel : nat) (t0 : list event) :
  preserves (fun s : State E => grown frees_nothing t0 (world s))
            (handle_conn eng fuel).
Proof.
  assert (Hrel : forall e, is_release e = false -> frees_nothing e = true).
  { intros [] He; try reflexivity; discriminate. }
  unfold handle_conn.
  apply preserves_bind; [intros s Hs; exact Hs | intros c].
  apply preserves_bind;
    [intros s Hs; apply grown_emit; [reflexivity | exact Hs] | intros _].
  apply preserves_bind;
    [apply handle_conn_loop_keeps, Hrel | intros r].
  apply preserves_bind; [| intros _; apply preserves_ret].
  destruct (fd c >? 0); [| apply preserves_ret].
  intros s Hs. apply grown_emit; [reflexivity | exact Hs].
Qed.

Local Abbreviation K t0 := (@main_inv E t0).

Lemma main_emit_inv (t0 : list event) (e : event) :
  frees_nothing e = true -> preserves (K t0) (@main_emit E e).
Proof.
  intros He ms [Hg Hr]. split; [| exact Hr].
  apply grown_emit; [exact He | exact Hg].
Qed.

Lemma nonblock_inv (t0 : list event) : preserves (K t0) (@nonblock E).
Proof.
  assert (Hf : preserves (K t0) (@fcntl E)).
  { intros ms Hms. exact Hms. }
  unfold nonblock.
  apply preserves_bind; [exact Hf | intros flags].
  destruct (flags <? 0).
  { apply preserves_bind; [apply main_emit_inv; reflexivity |].
    intros _. apply preserves_ret. }
  apply preserves_bind; [exact Hf | intros flags'].
  destruct (flags' <? 0); [| apply preserves_ret].
  apply preserves_bind; [apply main_emit_inv; reflexivity |].
  intros _. apply preserves_ret.
Qed.

Lemma rustls_server_connection_new_inv (t0 : list event) :
  preserves (K t0) (@rustls_server_connection_new E).
Proof.
  intros ms [Hg Hr]. unfold rustls_server_connection_new.
  destruct (sessions (m_listener ms) 0%nat) as [result e].
  destruct (rustls_result_eqb result RUSTLS_RESULT_OK); cbn [snd].
  - split; [apply grown_emit; [reflexivity | exact Hg] | reflexivity].
  - split; [exact Hg | exact Hr].
Qed.

Lemma pthread_create_join_inv (t0 : list event) (fuel : nat)
  (c : conndata_t E) :
  preserves (K t0) (pthread_create_join eng fuel c).
Proof.
  intros ms [Hg Hr]. unfold pthread_create_join.
  destruct (negb (pthread_creates (m_listener ms) 0%nat =? 0));
    [split; [exact Hg | exact Hr] |].
  pose proof (handle_conn_frees_nothing fuel t0
                (mkState c (m_world ms)) Hg) as H.
  destruct (handle_conn eng fuel (mkState c (m_world ms)))
    as [[r| | |] s']; cbn [fst snd] in H |- *;
    (split; [exact H | exact Hr]).
Qed.

Lemma accept_loop_inv (t0 : list event) (fuel : nat) (ret_var : Z) :
  preserves (K t0) (accept_loop eng fuel ret_var).
Proof.
  revert ret_var. induction fuel as [|fuel IH]; intros ret_var;
    cbn [accept_loop]; [intros ms Hms; exact Hms |].
  apply preserves_bind; [intros ms Hms; exact Hms | intros clientfd].
  destruct (clientfd <? 0).
  { apply preserves_bind; [apply main_emit_inv; reflexivity |].
    intros _. apply preserves_ret. }
  apply preserves_bind; [apply nonblock_inv | intros _].
  apply preserves_bind;
    [apply rustls_server_connection_new_inv | intros [result e]].
  destruct (negb (rustls_result_eqb result RUSTLS_RESULT_OK)).
  { apply preserves_bind; [apply main_emit_inv; reflexivity |].
    intros _. apply preserves_ret. }
  apply preserves_bind; [apply pthread_create_join_inv | intros r].
  destruct (negb (r =? 0)); [| apply IH].
  apply preserves_bind; [apply main_emit_inv; reflexivity |].
  intros _. apply preserves_ret.
Qed.

(** When [main] leaves its accept loop it frees the server configuration
    and the engine made last; nothing was freed before. *)
Lemma main_serve_frees (fuel : nat) (w : World) (l : Listener E) :
  match main_serve eng fuel (mkMain w l None 0%nat) with
  | (Returns _, ms') =>
      exists evs,
        trace (m_world ms') =
          EvConnectionFree (last_engine (m_created ms')) ::
          EvServerConfigFree :: evs ++ trace w /\
        forallb frees_nothing evs = true
  | (_, ms') => grown frees_nothing (trace w) (m_world ms')
  end.
Proof.
  unfold main_serve.
  assert (H0 : main_inv (trace w) (mkMain w l None 0%nat)).
  { split; [apply grown_refl | reflexivity]. }
  pose proof (accept_loop_inv (trace w) fuel 1 _ H0) as H.
  unfold bind at 1.
  destruct (accept_loop eng fuel 1 (mkMain w l None 0%nat))
    as [[r| | |] ms1]; cbn [fst snd] in H; try apply H.
  destruct H as [(evs & Ht & Hall) Hr].
  cbn. exists evs. rewrite Ht, Hr. split; auto.
Qed.

End Lifetimes.

(** C9, as the code has it.  On every exit path of its loop [handle_conn]
    closes the socket when its descriptor is positive, and releases
    nothing else.  The engine and the accumulator are not released there:
    [handle_conn] returns with the connection data, engine and block and
    length and capacity, exactly as the loop has left them, and the block
    is still a block of at least 2048 bytes.  [main] frees nothing while
    it accepts connections; on leaving the accept loop it frees the server
    configuration and the one engine its variable [rconn] points to, the
    engine made last. *)
Theorem only_the_socket_is_released {E : Type} (eng : rustls_engine E)
  (fuel : nat) (s : State E) (w : World) (l : Listener E) :
  acc_ok 2048 s ->
  match handle_conn eng fuel s with
  | (Returns r, s') =>
      (exists evs,
         trace (world s') =
           (if fd (conn s) >? 0 then [EvClose (fd (conn s))] else []) ++
           evs ++ trace (world s) /\
         forallb keeps evs = true) /\
      (exists s2,
         handle_conn_loop eng fuel READING_REQUEST
           (logged (DiagAccepted (fd (conn s))) s) = (Returns r, s2) /\
         conn s' = conn s2) /\
      acc_ok 2048 s'
  | (_, s') => grown keeps (trace (world s)) (world s')
  end /\
  match main_serve eng fuel (mkMain w l None 0%nat) with
  | (Returns _, ms') =>
      exists evs,
        trace (m_world ms') =
          EvConnectionFree (last_engine (m_created ms')) ::
          EvServerConfigFree :: evs ++ trace w /\
        forallb frees_nothing evs = true
  | (_, ms') => grown frees_nothing (trace w) (m_world ms')
  end.
Proof.
  intros Hok. split; [| apply main_serve_frees].
  pose proof (handle_conn_releases eng fuel s) as Hrel.
  pose proof (handle_conn_sound eng 2048 fuel s Hok) as [Hok' _].
  assert (Hdata : forall r s',
             handle_conn eng fuel s = (Returns r, s') ->
             exists s2,
               handle_conn_loop eng fuel READING_REQUEST
                 (logged (DiagAccepted (fd (conn s))) s) = (Returns r, s2) /\
               conn s' = conn s2).
  { intros r s'. unfold handle_conn. run.
    fold (logged (DiagAccepted (fd (conn s))) s). unfold bind at 1.
    destruct (handle_conn_loop eng fuel READING_REQUEST
                (logged (DiagAccepted (fd (conn s))) s))
      as [[r0| | |] s2]; try discriminate.
    destruct (fd (conn s) >? 0); run; unfold ret; intros [= <- <-];
      exists s2; split; reflexivity. }
  destruct (handle_conn eng fuel s) as [[r| | |] s'];
    cbn [fst snd] in Hok'; try exact Hrel.
  split; [exact Hrel |]. split; [apply Hdata; reflexivity | exact Hok'].
Qed.

Lemma only_the_socket_is_released_witness :
  let s := Scenario.close_then_eof in
  let r := handle_conn Loopback.engine 4 s in
  acc_ok 2048 s /\
  fst r = Returns (0, SENT_RESPONSE) /\
  (exists s2,
     handle_conn_loop Loopback.engine 4 READING_REQUEST
       (logged (DiagAccepted (fd (conn s))) s) =
       (Returns (0, SENT_RESPONSE), s2) /\
     conn (snd r) = conn s2) /\
  acc_ok 2048 (snd r).
Proof.
  cbv zeta.
  assert (Hok : acc_ok 2048 Scenario.close_then_eof) by by_computation.
  assert (Hrun : fst (handle_conn Loopback.engine 4 Scenario.close_then_eof)
                 = Returns (0, SENT_RESPONSE)) by (vm_compute; reflexivity).
  destruct (only_the_socket_is_released Loopback.engine 4
              Scenario.close_then_eof
              (m_world Scenario.two_connections)
              (m_listener Scenario.two_connections) Hok) as [H _].
  destruct (handle_conn Loopback.engine 4 Scenario.close_then_eof)
    as [o s']. cbn [fst snd] in Hrun |- *. subst o.
  destruct H as (_ & Hdata & Hok').
  split; [exact Hok |]. split; [reflexivity |].
  split; [exact Hdata | exact Hok'].
Defined.

(** C9, as the claim has it, fails: two connections are served one after
    the other.  Each socket is closed when its loop ends; the engine of the
    first connection is never released, and the engine of the second only
    when [main] ends, after its socket. *)
Lemma engine_outlives_its_socket :
  let r := main_serve Loopback.engine 10 Scenario.two_connections in
  fst r = Returns 0 /\
  filter is_new_or_release (trace (m_world (snd r))) =
    [EvConnectionFree (Some 1%nat); EvServerConfigFree;
     EvClose 5; EvConnectionNew 1;
     EvClose 4; EvConnectionNew 0].
Proof. by_computation. Qed.

(** * Further properties *)

(** ** The accumulator only grows *)

Lemma store_bytes_keeps_prefix (mem : list Z) (off : nat)
  (bytes mem' : list Z) :
  store_bytes mem off bytes = Some mem' -> firstn off mem' = firstn off mem.
Proof.
  unfold store_bytes.
  destruct (Nat.leb_spec (off + length bytes) (length mem)) as [H|H];
    [| discriminate].
  intros [= <-]. rewrite firstn_app, length_firstn.
  replace (off - Nat.min off (length mem))%nat with 0%nat by lia.
  rewrite firstn_O, app_nil_r, firstn_firstn, Nat.min_id. reflexivity.
Qed.

Lemma resized_keeps_prefix (mem : list Z) (size : Z) (junk : list Z)
  (n : nat) :
  (n <= Z.to_nat size)%nat -> (n <= length mem)%nat ->
  firstn n (resized mem size junk) = firstn n mem.
Proof.
  intros Hs Hm. unfold resized. rewrite firstn_firstn.
  replace (Nat.min n (Z.to_nat size)) with n by lia.
  rewrite firstn_app. replace (n - length mem)%nat with 0%nat by lia.
  rewrite firstn_O, app_nil_r. reflexivity.
Qed.

Create HintDb grows_db.

(** Breaks a composite computation into its parts. *)
Ltac grows_step :=
  match goal with
  | |- preserves _ (bind _ _) => apply preserves_bind; [| intros ?]
  | |- preserves _ (ret _) => apply preserves_ret
  | |- preserves _ abort => intros ? ?; assumption
  | |- preserves _ fault => intros ? ?; assumption
  | |- preserves _ out_of_fuel => intros ? ?; assumption
  | |- preserves _ (match ?x with _ => _ end) => destruct x
  | |- preserves _ _ => solve [auto with grows_db]
  end.

Section Growth.

Context {E : Type}.
Variable eng : rustls_engine E.
Variable cap : Z.
Variable a0 : list Z.

Local Abbreviation G := (@acc_grows E cap a0).

Lemma world_only_grows {A : Type} (m : M (State E) A) :
  world_only m -> preserves G m.
Proof.
  intros H s [Hok Hx]. destruct (H s) as [Hc _]. split.
  - apply (world_only_sound cap m H s Hok).
  - rewrite Hc. exact Hx.
Qed.

Lemma get_conn_grows : preserves G get_conn.
Proof. intros s Hs. exact Hs. Qed.

Lemma get_world_grows : preserves G get_world.
Proof. intros s Hs. exact Hs. Qed.

Lemma set_rconn_grows (e : E) : preserves G (set_rconn e).
Proof. intros s Hs. exact Hs. Qed.

Lemma on_world_grows (f : World -> World) : preserves G (on_world f).
Proof. intros s Hs. exact Hs. Qed.

Lemma fprintf_stderr_grows (d : diag) : preserves G (fprintf_stderr d).
Proof. intros s Hs. exact Hs. Qed.

Lemma perror_grows (d : diag) : preserves G (perror d).
Proof. intros s Hs. exact Hs. Qed.

Lemma nanosleep_grows : preserves G nanosleep.
Proof. intros s Hs. exact Hs. Qed.

Lemma close_grows (fd0 : Z) : preserves G (close fd0).
Proof. intros s Hs. exact Hs. Qed.

Lemma sys_read_grows (fd0 len : Z) : preserves G (sys_read fd0 len).
Proof. apply world_only_grows, world_only_sys_read. Qed.

Lemma sys_write_grows (fd0 : Z) (buf : list Z) (n : Z) :
  preserves G (sys_write fd0 buf n).
Proof. apply world_only_grows, world_only_sys_write. Qed.

Lemma select_grows (r w : bool) : preserves G (select r w).
Proof. apply world_only_grows, world_only_select. Qed.

Hint Resolve get_conn_grows get_world_grows set_rconn_grows on_world_grows
  fprintf_stderr_grows perror_grows nanosleep_grows close_grows
  sys_read_grows sys_write_grows select_grows : grows_db.

Lemma read_cb_grows (len : Z) : preserves G (read_cb len).
Proof. unfold read_cb. repeat grows_step. Qed.

Lemma write_cb_grows (buf : list Z) (len : Z) : preserves G (write_cb buf len).
Proof. unfold write_cb. repeat grows_step. Qed.

Hint Resolve read_cb_grows write_cb_grows : grows_db.

Lemma rustls_connection_read_tls_grows :
  preserves G (rustls_connection_read_tls eng).
Proof. unfold rustls_connection_read_tls. repeat grows_step. Qed.

Lemma rustls_connection_write_tls_grows :
  preserves G (rustls_connection_write_tls eng).
Proof. unfold rustls_connection_write_tls. repeat grows_step. Qed.

Hint Resolve rustls_connection_read_tls_grows
  rustls_connection_write_tls_grows : grows_db.

(** One round of the drain appends the chunk the engine handed over, cut
    at the free space, and nothing else. *)
Lemma copy_plaintext_round_appends
  (again : M (State E) crustls_demo_result) (s : State E) :
  acc_ok cap s ->
  exists s1 chunk,
    acc_ok cap s1 /\
    accumulated (conn s1) = accumulated (conn s) ++ chunk /\
    ((copy_plaintext_round eng again s = again s1 /\
      data_len (conn s) < data_len (conn s1)) \/
     exists r, copy_plaintext_round eng again s = (Returns r, s1)).
Proof.
  intros Hok. pose proof (avail_exact cap s Hok) as Hav.
  destruct Hok as (Hcap & Hlen & Hmem & Hmod).
  unfold copy_plaintext_round. run. rewrite Hav.
  destruct (rustls_connection_read eng (rconn (conn s))
              (cap - data_len (conn s) - 1)) as [[result bytes] e'].
  set (chunk := firstn (Z.to_nat (cap - data_len (conn s) - 1)) bytes).
  assert (Hchunk : Z.of_nat (length chunk) <= cap - data_len (conn s) - 1).
  { unfold chunk. rewrite length_firstn. lia. }
  run.
  destruct (store_bytes (data_from_client (conn s))
              (Z.to_nat (data_len (conn s))) chunk) as [mem|] eqn:Hst;
    [| rewrite store_bytes_Some in Hst by lia; discriminate].
  pose proof (store_bytes_length _ _ _ _ Hst) as Hmem'.
  pose proof (store_bytes_keeps_prefix _ _ _ _ Hst) as Hkeep.
  pose proof (store_bytes_prefix _ _ _ _ Hst) as Hadd.
  run.
  set (s1 := mkState (mkConn _ _ mem _ _) _).
  assert (Hs1 : acc_ok cap s1).
  { unfold acc_ok, s1. cbn. rewrite Hmem'. auto. }
  assert (Hsame : accumulated (conn s1) = accumulated (conn s) ++ []).
  { unfold accumulated, s1. cbn [conn data_len data_from_client].
    rewrite app_nil_r. exact Hkeep. }
  destruct (rustls_result_eqb result RUSTLS_RESULT_ALERT_CLOSE_NOTIFY).
  { run. eexists. exists []. split; [| split; [| right; eexists; reflexivity]].
    - unfold acc_ok. cbn. rewrite Hmem'. auto.
    - exact Hsame. }
  destruct (negb (rustls_result_eqb result RUSTLS_RESULT_OK)).
  { run. eexists. exists []. split; [| split; [| right; eexists; reflexivity]].
    - unfold acc_ok. cbn. rewrite Hmem'. auto.
    - exact Hsame. }
  destruct (Z.eqb_spec (Z.of_nat (length chunk)) 0) as [Hz|Hz].
  { exists s1, []. split; [exact Hs1 |].
    split; [exact Hsame | right; eexists; reflexivity]. }
  unfold s1. run.
  rewrite size_add_small by (rewrite ?SIZE_MODULUS_value in *; lia).
  match goal with
  | |- context [bind (write_all ?f ?b ?n) ?k ?st] =>
      destruct (write_all_returns f b n st) as (r & s2 & Hw & Hc);
      rewrite (bind_returns _ k _ _ _ Hw)
  end.
  assert (Hs2 : acc_ok cap s2).
  { unfold acc_ok. rewrite Hc. cbn. rewrite Hmem'. repeat split; auto; lia. }
  exists s2, chunk. split; [exact Hs2 |]. split.
  - unfold accumulated. rewrite Hc. cbn [conn data_len data_from_client].
    replace (Z.to_nat (data_len (conn s) + Z.of_nat (length chunk)))
      with (Z.to_nat (data_len (conn s)) + length chunk)%nat by lia.
    exact Hadd.
  - destruct (negb (r =? 0)).
    + right. eexists. reflexivity.
    + left. split; [reflexivity |]. rewrite Hc. cbn. lia.
Qed.

Lemma copy_plaintext_loop_grows (k : nat) (s : State E) :
  G s ->
  cap - data_len (conn s) - 1 <= Z.of_nat k ->
  exists r s', copy_plaintext_loop eng k s = (Returns r, s') /\ G s'.
Proof.
  revert s. induction k as [|k IH]; intros s [Hok [x Hx]] Hk.
  - cbn [copy_plaintext_loop].
    destruct (copy_plaintext_round_appends out_of_fuel s Hok)
      as (s1 & chunk & Hs1 & Hacc & [[_ Hlt] | [r Hr]]).
    + destruct Hs1 as (_ & Hl & _). lia.
    + exists r, s1. split; [exact Hr |]. split; [exact Hs1 |].
      exists (x ++ chunk). rewrite Hacc, Hx, app_assoc. reflexivity.
  - cbn [copy_plaintext_loop].
    destruct (copy_plaintext_round_appends (copy_plaintext_loop eng k) s Hok)
      as (s1 & chunk & Hs1 & Hacc & [[Hgo Hlt] | [r Hr]]).
    + rewrite Hgo. apply IH; [| lia]. split; [exact Hs1 |].
      exists (x ++ chunk). rewrite Hacc, Hx, app_assoc. reflexivity.
    + exists r, s1. split; [exact Hr |]. split; [exact Hs1 |].
      exists (x ++ chunk). rewrite Hacc, Hx, app_assoc. reflexivity.
Qed.

Lemma copy_plaintext_to_buffer_grows :
  preserves G (copy_plaintext_to_buffer eng).
Proof.
  intros s Hs.
  destruct (copy_plaintext_to_buffer eng s) as [o s'] eqn:Hrun.
  cbn [snd]. revert Hrun. unfold copy_plaintext_to_buffer. run.
  assert (Hloop : forall s1 : State E,
             G s1 ->
             copy_plaintext_loop eng
               (Z.to_nat (size_sub (size_sub
                  (data_capacity (conn s1)) (data_len (conn s1))) 1))
               s1 = (o, s') -> G s').
  { intros s1 Hs1. rewrite (avail_exact cap s1 (proj1 Hs1)).
    destruct (copy_plaintext_loop_grows
                (Z.to_nat (cap - data_len (conn s1) - 1)) s1 Hs1)
      as (r & s2 & Hr & Hs2); [lia |].
    rewrite Hr. intros [= <- <-]. exact Hs2. }
  destruct (size_sub (data_capacity (conn s)) (data_len (conn s)) <? 1024).
  - rewrite bind_assoc. unfold realloc at 1. unfold bind at 1.
    destruct Hs as [(Hcap & Hlen & Hmem & Hmod) [x Hx]].
    destruct (reallocs (world s) 0%nat) as [junk|]; cbn [option_map].
    + run.
      match goal with
      | |- copy_plaintext_loop eng _ ?st = _ -> _ => apply (Hloop st)
      end.
      assert (Hsz : size_mul cap 2 = cap * 2).
      { apply size_mul_small; rewrite ?SIZE_MODULUS_value in *; lia. }
      split.
      * unfold acc_ok. cbn. rewrite resized_length, Hcap, Hsz.
        repeat split; auto; lia.
      * exists x. rewrite <- Hx. unfold accumulated.
        cbn [conn data_len data_from_client].
        apply resized_keeps_prefix; rewrite ?Hcap, ?Hsz; lia.
    + run. unfold abort. intros [= <- <-]. split.
      * unfold acc_ok. cbn. auto.
      * exists x. exact Hx.
  - run. apply Hloop, Hs.
Qed.

Hint Resolve copy_plaintext_to_buffer_grows : grows_db.

Lemma do_read_grows : preserves G (do_read eng).
Proof. unfold do_read. repeat grows_step. Qed.

Hint Resolve do_read_grows : grows_db.

Lemma request_is_finished_grows : preserves G request_is_finished.
Proof.
  intros s [Hok [x Hx]].
  destruct (request_is_finished_returns cap s Hok) as (mem & Hst & Hr & Hs').
  rewrite Hr. cbn [snd]. split; [exact Hs' |].
  exists x. rewrite <- Hx. unfold accumulated.
  cbn [conn data_len data_from_client].
  apply (store_bytes_keeps_prefix _ _ _ _ Hst).
Qed.

Hint Resolve request_is_finished_grows : grows_db.

Lemma send_response_grows : preserves G (send_response eng).
Proof. unfold send_response. repeat grows_step. Qed.

Hint Resolve send_response_grows : grows_db.

Lemma handle_conn_read_cycles_grows (fuel : nat) :
  preserves G (handle_conn_read_cycles eng fuel).
Proof.
  induction fuel as [|fuel IH]; cbn [handle_conn_read_cycles];
    repeat grows_step.
Qed.

Lemma handle_conn_write_ready_grows :
  preserves G (handle_conn_write_ready eng).
Proof. unfold handle_conn_write_ready. repeat grows_step. Qed.

Lemma handle_conn_reply_grows (state : exchange_state) :
  preserves G (handle_conn_reply eng state).
Proof. unfold handle_conn_reply. repeat grows_step. Qed.

Hint Resolve handle_conn_read_cycles_grows handle_conn_write_ready_grows
  handle_conn_reply_grows : grows_db.

Lemma handle_conn_loop_grows (fuel : nat) (state : exchange_state) :
  preserves G (handle_conn_loop eng fuel state).
Proof.
  revert state. induction fuel as [|fuel IH]; intros state;
    cbn [handle_conn_loop]; repeat grows_step.
Qed.

Hint Resolve handle_conn_loop_grows : grows_db.

Lemma handle_conn_grows (fuel : nat) : preserves G (handle_conn eng fuel).
Proof. unfold handle_conn. repeat grows_step. Qed.

End Growth.

(** X1.  Whatever the engine and the world do, [do_read] and a whole run
    of [handle_conn] only ever append to the accumulated bytes: what was
    accumulated before is still there, in place, afterwards. *)
Theorem accumulator_is_append_only {E : Type} (eng : rustls_engine E)
  (cap : Z) (fuel : nat) (s : State E) :
  acc_ok cap s ->
  (exists x,
     accumulated (conn (snd (do_read eng s))) = accumulated (conn s) ++ x) /\
  (exists x,
     accumulated (conn (snd (handle_conn eng fuel s))) =
     accumulated (conn s) ++ x).
Proof.
  intros Hok.
  assert (Hg : acc_grows cap (accumulated (conn s)) s).
  { split; [exact Hok | exists []; symmetry; apply app_nil_r]. }
  split.
  - apply (do_read_grows eng cap (accumulated (conn s)) s Hg).
  - apply (handle_conn_grows eng cap (accumulated (conn s)) fuel s Hg).
Qed.

Lemma accumulator_is_append_only_witness :
  acc_ok 2048 Scenario.growth_second_drain /\
  exists x,
    accumulated (conn (snd (handle_conn Loopback.engine 3
                              Scenario.growth_second_drain))) =
    accumulated (conn Scenario.growth_second_drain) ++ x.
Proof.
  assert (H : acc_ok 2048 Scenario.growth_second_drain) by by_computation.
  split; [exact H |].
  apply (accumulator_is_append_only Loopback.engine 2048 3
           Scenario.growth_second_drain H).
Defined.

(** ** What a reply stands on *)

Lemma until_nul_app (a x : list Z) :
  exists z, until_nul (a ++ x) = until_nul a ++ z.
Proof.
  induction a as [|c a [z IH]]; [exists (until_nul x); reflexivity |].
  cbn. destruct (c =? 0); [exists []; reflexivity |].
  exists z. rewrite IH. reflexivity.
Qed.

Lemma occurs_app (pat l z : list Z) : occurs pat l -> occurs pat (l ++ z).
Proof.
  intros (before & after & ->). exists before, (after ++ z).
  rewrite <- !app_assoc. reflexivity.
Qed.

Lemma occurs_until_nul_app (pat a x : list Z) :
  occurs pat (until_nul a) -> occurs pat (until_nul (a ++ x)).
Proof.
  intros H. destruct (until_nul_app a x) as [z ->]. apply occurs_app, H.
Qed.

Section Justified.

Context {E : Type}.
Variable eng : rustls_engine E.
Variable cap : Z.
Variable n0 : nat.

Local Abbreviation Jf := (@justified E cap n0).

(** A step that writes no reply and only appends keeps a reply
    justified. *)
Lemma justified_step {A : Type} (m : M (State E) A) :
  (forall n, preserves (fun s => replies (world s) = n) m) ->
  (forall a0, preserves (acc_grows cap a0) m) ->
  preserves Jf m.
Proof.
  intros Hn Hg s [Hok Hj].
  assert (Hs : acc_grows cap (accumulated (conn s)) s).
  { split; [exact Hok | exists []; symmetry; apply app_nil_r]. }
  destruct (Hg _ s Hs) as [Hok' [x Hx]]. split; [exact Hok' |].
  destruct Hj as [Hj | Hj].
  - left. rewrite <- Hj. apply (Hn (replies (world s)) s eq_refl).
  - right. rewrite Hx. apply occurs_until_nul_app, Hj.
Qed.

(** The verdict of the scan, for a well-formed accumulator. *)
Lemma request_is_finished_verdict (s : State E) :
  acc_ok cap s ->
  exists b s',
    request_is_finished s = (Returns b, s') /\
    acc_ok cap s' /\ world s' = world s /\
    accumulated (conn s') = accumulated (conn s) /\
    (b = true <-> occurs double_crlf (until_nul (accumulated (conn s)))).
Proof.
  intros Hok.
  destruct (request_is_finished_returns cap s Hok) as (mem & Hst & Hr & Hs').
  eexists. eexists. split; [exact Hr |]. split; [exact Hs' |].
  split; [reflexivity |].
  pose proof (store_bytes_keeps_prefix _ _ _ _ Hst) as Hkeep. split.
  - exact Hkeep.
  - destruct Hok as (Hcap & Hlen & Hmem & Hmod).
    rewrite store_bytes_Some in Hst by (cbn [length]; lia).
    injection Hst as <-.
    rewrite strstr_found_iff by (reflexivity || discriminate).
    cbn [app]. rewrite until_nul_stops. reflexivity.
Qed.

Lemma send_response_keeps_accumulated (s : State E) :
  acc_ok cap s ->
  acc_ok cap (snd (send_response eng s)) /\
  accumulated (conn (snd (send_response eng s))) = accumulated (conn s).
Proof.
  intros Hok. unfold send_response.
  destruct (rustls_connection_write eng (rconn (conn s)) response)
    as [[res k] e'] eqn:Hw.
  run. rewrite Hw. run.
  destruct (negb (k =? strlen response)); run; cbn [snd abort ret];
    (split; [exact Hok | reflexivity]).
Qed.

Lemma handle_conn_reply_justified (state : exchange_state) :
  preserves Jf (handle_conn_reply eng state).
Proof.
  destruct state; [| intros s Hs; exact Hs].
  intros s [Hok Hj]. unfold handle_conn_reply.
  destruct (request_is_finished_verdict s Hok)
    as (b & s1 & Hr & Hok1 & Hw1 & Hacc1 & Hb).
  rewrite (bind_returns _ _ _ _ _ Hr). destruct b.
  - run.
    pose proof (send_response_keeps_accumulated
                  (logged DiagWritingResponse s1) Hok1) as [Hok2 Hacc2].
    unfold logged in Hok2, Hacc2. unfold bind.
    destruct (send_response eng _) as [[[]| | |] s2];
      unfold ret; cbn [fst snd] in *; (split; [exact Hok2 |]); right;
      rewrite Hacc2; cbn [conn]; rewrite Hacc1; apply Hb; reflexivity.
  - cbn [snd ret]. split; [exact Hok1 |]. rewrite Hw1, Hacc1. exact Hj.
Qed.

Lemma handle_conn_loop_justified (fuel : nat) (state : exchange_state) :
  preserves Jf (handle_conn_loop eng fuel state).
Proof.
  revert state. induction fuel as [|fuel IH]; intros state;
    cbn [handle_conn_loop]; [intros s Hs; exact Hs |].
  apply preserves_bind; [intros s Hs; exact Hs | intros c].
  apply preserves_bind.
  { apply justified_step; [intros n; apply select_replies |].
    intros a0. apply select_grows. }
  intros [[result readable] writable].
  destruct (result =? -1).
  { apply preserves_bind; [intros s Hs; exact Hs |].
    intros _. apply preserves_ret. }
  apply preserves_bind.
  { destruct (result =? 0); [| apply preserves_ret].
    apply preserves_bind; [intros s Hs; exact Hs |].
    intros _ s Hs. exact Hs. }
  intros _. apply preserves_bind.
  { destruct readable; [| apply preserves_ret].
    apply preserves_bind; [intros s Hs; exact Hs |].
    intros _. apply justified_step.
    - intros n. apply read_cycles_replies.
    - intros a0. apply handle_conn_read_cycles_grows. }
  intros [v|]; [apply preserves_ret |].
  apply preserves_bind.
  { destruct writable; [| apply preserves_ret].
    apply justified_step.
    - intros n. apply write_ready_replies.
    - intros a0. apply handle_conn_write_ready_grows. }
  intros [|]; [apply preserves_ret |].
  apply preserves_bind; [apply handle_conn_reply_justified | exact IH].
Qed.

End Justified.

Section OnlyResponse.

Context {E : Type}.
Variable eng : rustls_engine E.
Variable t0 : list event.

Local Abbreviation R := (fun s : State E => grown only_response t0 (world s)).

Lemma send_response_only_response : preserves R (send_response eng).
Proof.
  intros s Hs. unfold send_response.
  destruct (rustls_connection_write eng (rconn (conn s)) response)
    as [[res k] e'] eqn:Hw.
  run. rewrite Hw. run.
  assert (Hr : only_response (EvEngineWrite response) = true).
  { unfold only_response.
    destruct (list_eq_dec Z.eq_dec response response); congruence. }
  destruct (negb (k =? strlen response)); run; cbn [snd abort ret world];
    repeat (apply grown_emit; [first [exact Hr | reflexivity] |]); exact Hs.
Qed.

Lemma handle_conn_reply_only_response (state : exchange_state) :
  preserves R (handle_conn_reply eng state).
Proof.
  destruct state; [| apply preserves_ret].
  unfold handle_conn_reply.
  apply preserves_bind; [apply request_is_finished_trace | intros b].
  destruct b; [| apply preserves_ret].
  apply preserves_bind; [apply fprintf_stderr_trace; reflexivity |].
  intros _. apply preserves_bind; [apply send_response_only_response |].
  intros _. apply preserves_ret.
Qed.

Lemma handle_conn_only_response (fuel : nat) :
  preserves R (handle_conn eng fuel).
Proof.
  assert (Hloop : forall fuel state,
             preserves R (handle_conn_loop eng fuel state)).
  { clear fuel. induction fuel as [|fuel IH]; intros state;
      cbn [handle_conn_loop]; [intros s Hs; exact Hs |].
    apply preserves_bind; [intros s Hs; exact Hs | intros c].
    apply preserves_bind; [apply select_trace |].
    intros [[result readable] writable].
    destruct (result =? -1).
    { apply preserves_bind; [apply perror_trace; reflexivity |].
      intros _. apply preserves_ret. }
    apply preserves_bind.
    { destruct (result =? 0); [| apply preserves_ret].
      apply preserves_bind; [apply fprintf_stderr_trace; reflexivity |].
      intros _. apply nanosleep_trace. reflexivity. }
    intros _. apply preserves_bind.
    { destruct readable; [| apply preserves_ret].
      apply preserves_bind; [apply fprintf_stderr_trace; reflexivity |].
      intros _. apply handle_conn_read_cycles_trace; reflexivity. }
    intros [v|]; [apply preserves_ret |].
    apply preserves_bind.
    { destruct writable; [| apply preserves_ret].
      apply handle_conn_write_ready_trace; reflexivity. }
    intros [|]; [apply preserves_ret |].
    apply preserves_bind; [apply handle_conn_reply_only_response | apply IH]. }
  unfold handle_conn.
  apply preserves_bind; [intros s Hs; exact Hs | intros c].
  apply preserves_bind; [apply fprintf_stderr_trace; reflexivity | intros _].
  apply preserves_bind; [apply Hloop | intros r].
  apply preserves_bind; [| intros _; apply preserves_ret].
  destruct (fd c >? 0); [| apply preserves_ret].
  intros s Hs. apply grown_emit; [reflexivity | exact Hs].
Qed.

End OnlyResponse.

(** X2.  From a well-formed accumulator, whatever the engine and the
    world do: if [handle_conn] has handed a reply to the engine, then the
    bytes accumulated at the end hold ["\r\n\r\n"] before their first NUL;
    and every plaintext write the run hands to the engine carries the
    fixed response, whatever the request was. *)
Theorem reply_only_after_terminator {E : Type} (eng : rustls_engine E)
  (cap : Z) (fuel : nat) (s : State E) :
  acc_ok cap s ->
  let r := handle_conn eng fuel s in
  (replies (world (snd r)) <> replies (world s) ->
   occurs double_crlf (until_nul (accumulated (conn (snd r))))) /\
  grown only_response (trace (world s)) (world (snd r)).
Proof.
  intros Hok r. split.
  - assert (Hj : justified cap (replies (world s)) s).
    { split; [exact Hok | left; reflexivity]. }
    assert (Hpres : preserves (justified cap (replies (world s)))
                      (handle_conn eng fuel)).
    { unfold handle_conn.
      apply preserves_bind; [intros s1 Hs1; exact Hs1 | intros c].
      apply preserves_bind; [intros s1 Hs1; exact Hs1 | intros _].
      apply preserves_bind; [apply handle_conn_loop_justified | intros v].
      apply preserves_bind; [| intros _; apply preserves_ret].
      destruct (fd c >? 0); [| apply preserves_ret].
      intros s1 Hs1. exact Hs1. }
    destruct (Hpres s Hj) as [_ [Hsame | Hocc]].
    + intros Hne. contradiction.
    + intros _. exact Hocc.
  - apply (handle_conn_only_response eng (trace (world s)) fuel s).
    apply grown_refl.
Qed.

Lemma reply_only_after_terminator_witness :
  acc_ok 2048 Scenario.sink_works /\
  occurs double_crlf
    (until_nul (accumulated
                  (conn (snd (handle_conn Loopback.engine 4
                                Scenario.sink_works))))).
Proof.
  assert (H : acc_ok 2048 Scenario.sink_works) by by_computation.
  split; [exact H |].
  apply (reply_only_after_terminator Loopback.engine 2048 4
           Scenario.sink_works H).
  vm_compute. discriminate.
Defined.

(** ** The results of the drain and of a read cycle *)

Section ReadResults.

Context {E : Type}.
Variable eng : rustls_engine E.

Lemma copy_plaintext_round_result
  (again : M (State E) crustls_demo_result) :
  (forall s r, fst (again s) = Returns r -> drain_result r) ->
  forall s r,
    fst (copy_plaintext_round eng again s) = Returns r -> drain_result r.
Proof.
  intros Hagain s r. unfold copy_plaintext_round. run.
  destruct (rustls_connection_read eng _ _) as [[result bytes] e'].
  run. destruct (store_bytes _ _ _) as [mem|]; [| discriminate].
  run. unfold drain_result.
  destruct (rustls_result_eqb result RUSTLS_RESULT_ALERT_CLOSE_NOTIFY);
    [run; intros [= <-]; auto |].
  destruct (negb (rustls_result_eqb result RUSTLS_RESULT_OK));
    [run; intros [= <-]; auto |].
  destruct (_ =? 0); [intros [= <-]; auto |].
  run. unfold bind.
  destruct (write_all _ _ _ _) as [[w| | |] s2]; try discriminate.
  destruct (negb (w =? 0)); [intros [= <-]; auto |].
  apply Hagain.
Qed.

Lemma copy_plaintext_loop_result (k : nat) (s : State E)
  (r : crustls_demo_result) :
  fst (copy_plaintext_loop eng k s) = Returns r -> drain_result r.
Proof.
  revert s r. induction k as [|k IH]; cbn [copy_plaintext_loop];
    apply copy_plaintext_round_result; [discriminate | exact IH].
Qed.

Lemma copy_plaintext_to_buffer_result (s : State E)
  (r : crustls_demo_result) :
  fst (copy_plaintext_to_buffer eng s) = Returns r -> drain_result r.
Proof.
  unfold copy_plaintext_to_buffer. run.
  destruct (_ <? 1024).
  - rewrite bind_assoc. unfold realloc at 1. unfold bind at 1.
    destruct (reallocs (world s) 0%nat); cbn [option_map]; run;
      [apply copy_plaintext_loop_result | discriminate].
  - run. apply copy_plaintext_loop_result.
Qed.

End ReadResults.

(** X3.  A read cycle tells its cases apart as its comment says, and the
    drain never blurs them.  Given what [read_tls] reported: [do_read]
    returns [CRUSTLS_DEMO_AGAIN] exactly when that was would-block,
    [CRUSTLS_DEMO_EOF] exactly when it was 0 bytes without error, and
    [CRUSTLS_DEMO_ERROR] for every other error; it returns
    [CRUSTLS_DEMO_OK] or [CRUSTLS_DEMO_CLOSE_NOTIFY] only after bytes were
    read.  [copy_plaintext_to_buffer] returns nothing but
    [CRUSTLS_DEMO_OK], [CRUSTLS_DEMO_ERROR] and
    [CRUSTLS_DEMO_CLOSE_NOTIFY]. *)
Theorem do_read_result_classes {E : Type} (eng : rustls_engine E)
  (s s1 : State E) (err n : Z) :
  rustls_connection_read_tls eng s = (Returns (err, n), s1) ->
  (fst (do_read eng s) = Returns CRUSTLS_DEMO_AGAIN <->
   err = EAGAIN \/ err = EWOULDBLOCK) /\
  (fst (do_read eng s) = Returns CRUSTLS_DEMO_EOF <-> err = 0 /\ n = 0) /\
  (err <> EAGAIN -> err <> EWOULDBLOCK -> err <> 0 ->
   fst (do_read eng s) = Returns CRUSTLS_DEMO_ERROR) /\
  (fst (do_read eng s) = Returns CRUSTLS_DEMO_OK \/
   fst (do_read eng s) = Returns CRUSTLS_DEMO_CLOSE_NOTIFY ->
   err = 0 /\ n <> 0) /\
  (forall t r,
     fst (copy_plaintext_to_buffer eng t) = Returns r -> drain_result r).
Proof.
  intros Hr.
  assert (Hgen : forall res, do_read eng s = res ->
    ((err = EAGAIN \/ err = EWOULDBLOCK) /\
     fst res = Returns CRUSTLS_DEMO_AGAIN) \/
    (err <> EAGAIN /\ err <> EWOULDBLOCK /\ err <> 0 /\
     fst res = Returns CRUSTLS_DEMO_ERROR) \/
    (err = 0 /\ n = 0 /\ fst res = Returns CRUSTLS_DEMO_EOF) \/
    (err = 0 /\ n <> 0 /\
     fst res <> Returns CRUSTLS_DEMO_AGAIN /\
     fst res <> Returns CRUSTLS_DEMO_EOF)).
  { intros res. unfold do_read. rewrite (bind_returns _ _ _ _ _ Hr).
    destruct (Z.eqb_spec err EAGAIN) as [He1|He1];
      [intros <-; left; split; [auto | reflexivity] |].
    destruct (Z.eqb_spec err EWOULDBLOCK) as [He2|He2];
      [intros <-; left; split; [auto | reflexivity] |].
    cbn [orb].
    destruct (Z.eqb_spec err 0) as [He0|He0]; cbn [negb];
      [| intros <-; right; left; repeat split; auto].
    destruct (Z.eqb_spec n 0) as [Hn|Hn];
      [intros <-; right; right; left; repeat split; auto |].
    assert (Hfin : forall o : outcome crustls_demo_result,
               o <> Returns CRUSTLS_DEMO_AGAIN ->
               o <> Returns CRUSTLS_DEMO_EOF ->
               forall st : State E, (o, st) = res ->
               ((err = EAGAIN \/ err = EWOULDBLOCK) /\
                fst res = Returns CRUSTLS_DEMO_AGAIN) \/
               (err <> EAGAIN /\ err <> EWOULDBLOCK /\ err <> 0 /\
                fst res = Returns CRUSTLS_DEMO_ERROR) \/
               (err = 0 /\ n = 0 /\ fst res = Returns CRUSTLS_DEMO_EOF) \/
               (err = 0 /\ n <> 0 /\
                fst res <> Returns CRUSTLS_DEMO_AGAIN /\
                fst res <> Returns CRUSTLS_DEMO_EOF)).
    { intros o Ho1 Ho2 st <-. right. right. right. cbn [fst]. auto. }
    run.
    destruct (rustls_connection_process_new_packets eng (rconn (conn s1)))
      as [result e'].
    run. destruct (negb (rustls_result_eqb result RUSTLS_RESULT_OK));
      [run; apply Hfin; discriminate |].
    unfold bind at 1.
    match goal with
    | |- context [copy_plaintext_to_buffer eng ?st] =>
        pose proof (copy_plaintext_to_buffer_result eng st) as Hd;
        destruct (copy_plaintext_to_buffer eng st) as [[r| | |] s2]
    end; try (apply Hfin; discriminate).
    specialize (Hd r eq_refl).
    destruct Hd as [-> | [-> | ->]]; cbn [demo_result_eqb negb]; run.
    - apply Hfin; discriminate.
    - apply Hfin; discriminate.
    - unfold bind at 1. destruct (sys_read _ _ _) as [[[k bs]| | |] s3];
        try (apply Hfin; discriminate).
      run. destruct (_ && _); run; apply Hfin; discriminate. }
  pose proof (Hgen _ eq_refl) as Hcases. clear Hgen.
  split; [| split; [| split; [| split]]].
  - split.
    + intros H. destruct Hcases as [[Hc _] | [(_ & _ & _ & Hc) |
        [(_ & _ & Hc) | (_ & _ & Hc & _)]]]; auto; congruence.
    + intros H. destruct Hcases as [[_ Hc] | [(H1 & H2 & _) |
        [(H0 & _) | (H0 & _)]]]; auto;
        destruct H as [H | H]; try contradiction;
        rewrite H0 in H; discriminate.
  - split.
    + intros H. destruct Hcases as [[_ Hc] | [(_ & _ & _ & Hc) |
        [(H0 & Hn & _) | (_ & _ & _ & Hc)]]]; auto; congruence.
    + intros [H0 Hn]. destruct Hcases as [[[Hc | Hc] _] | [(_ & _ & Hc & _) |
        [(_ & _ & Hc) | (_ & Hc & _)]]]; auto; try contradiction;
        rewrite H0 in Hc; discriminate.
  - intros H1 H2 H0. destruct Hcases as [[[Hc | Hc] _] | [(_ & _ & _ & Hc) |
      [(Hc & _) | (Hc & _)]]]; auto; contradiction.
  - intros H. destruct Hcases as [[_ Hc] | [(_ & _ & _ & Hc) |
      [(_ & _ & Hc) | (H0 & Hn & _)]]]; auto;
      destruct H as [H | H]; congruence.
  - apply copy_plaintext_to_buffer_result.
Qed.

Lemma do_read_result_classes_witness :
  let s := Scenario.idle in
  rustls_connection_read_tls Loopback.engine s =
    (Returns (EAGAIN, 0), snd (rustls_connection_read_tls Loopback.engine s))
  /\ fst (do_read Loopback.engine s) = Returns CRUSTLS_DEMO_AGAIN.
Proof.
  cbv zeta.
  assert (H : rustls_connection_read_tls Loopback.engine Scenario.idle =
              (Returns (EAGAIN, 0),
               snd (rustls_connection_read_tls Loopback.engine
                      Scenario.idle))) by reflexivity.
  split; [exact H |].
  apply (do_read_result_classes Loopback.engine Scenario.idle _ EAGAIN 0 H).
  left. reflexivity.
Defined.

(** ** A clean end needs a close-notify *)

Lemma hoare_weaken_pre {S A : Type} (P P' : S -> Prop) (m : M S A)
  (Q : outcome A -> S -> Prop) :
  hoare P' m Q -> (forall s, P s -> P' s) -> hoare P m Q.
Proof. intros Hm HP s Hs. apply Hm, HP, Hs. Qed.

Lemma seen_since_emit (e e' : event) (t0 : list event) (w : World) :
  seen_since e t0 w -> seen_since e t0 (emit e' w).
Proof.
  intros (evs & Ht & Hin). exists (e' :: evs). cbn. rewrite Ht.
  split; [reflexivity | right; exact Hin].
Qed.

Lemma seen_since_now (e : event) (t0 : list event) (w : World) :
  grown any_event t0 w -> seen_since e t0 (emit e w).
Proof.
  intros (evs & Ht & _). exists (e :: evs). cbn. rewrite Ht.
  split; [reflexivity | left; reflexivity].
Qed.

Lemma seen_since_grown (e : event) (t0 : list event) (w : World) :
  seen_since e t0 w -> grown any_event t0 w.
Proof.
  intros (evs & Ht & _). exists evs. split; [exact Ht |].
  apply forallb_forall. reflexivity.
Qed.

Lemma seen_kept {E A : Type} (e : event) (t0 : list event)
  (m : M (State E) A) :
  (forall t, preserves (fun s => grown any_event t (world s)) m) ->
  preserves (fun s => seen_since e t0 (world s)) m.
Proof.
  intros H s (evs & Ht & Hin).
  destruct (H (trace (world s)) s (grown_refl any_event (world s)))
    as (evs' & Ht' & _).
  exists (evs' ++ evs). rewrite Ht', Ht, app_assoc.
  split; [reflexivity | apply in_or_app; right; exact Hin].
Qed.

Section CleanEnd.

Context {E : Type}.
Variable eng : rustls_engine E.
Variable t0 : list event.

Local Abbreviation T := (fun s : State E => grown any_event t0 (world s)).
Local Abbreviation seen :=
  (fun s : State E =>
     seen_since (EvStderr DiagReceivedCloseNotify) t0 (world s)).

(** After a step: the trace has only grown, and a close-notify result
    comes with its line on the diagnostic stream. *)
Local Abbreviation told :=
  (fun (o : outcome crustls_demo_result) (s : State E) =>
     T s /\ (o = Returns CRUSTLS_DEMO_CLOSE_NOTIFY -> seen s)).

Lemma copy_plaintext_round_told
  (again : M (State E) crustls_demo_result) :
  hoare T again told -> hoare T (copy_plaintext_round eng again) told.
Proof.
  intros Hagain. hoare_run. unfold copy_plaintext_round. run.
  destruct (rustls_connection_read eng _ _) as [[result bytes] e'].
  run. destruct (store_bytes _ _ _) as [mem|];
    [| unfold fault; intros [= <- <-]; split; [exact Hs | discriminate]].
  run.
  destruct (rustls_result_eqb result RUSTLS_RESULT_ALERT_CLOSE_NOTIFY).
  { run. unfold ret. intros [= <- <-]. cbn [world]. split.
    - apply grown_emit; [reflexivity | exact Hs].
    - intros _. apply seen_since_now, Hs. }
  destruct (negb (rustls_result_eqb result RUSTLS_RESULT_OK)).
  { run. unfold ret. intros [= <- <-]. cbn [world]. split.
    - apply grown_emit; [reflexivity | exact Hs].
    - discriminate. }
  destruct (_ =? 0);
    [unfold ret; intros [= <- <-]; split; [exact Hs | discriminate] |].
  run. unfold bind at 1.
  match goal with
  | |- context [write_all ?f ?b ?n ?st] =>
      pose proof (write_all_trace any_event t0
                    (fun _ => eq_refl) (fun _ => eq_refl)
                    (fun _ _ => eq_refl) f b n st Hs) as Hw;
      destruct (write_all f b n st) as [[w| | |] s2]
  end; cbn [fst snd] in Hw;
    try (intros [= <- <-]; split; [exact Hw | discriminate]).
  destruct (negb (w =? 0)).
  - unfold ret. intros [= <- <-]. split; [exact Hw | discriminate].
  - intros Hrun. pose proof (Hagain s2 Hw) as H. rewrite Hrun in H.
    exact H.
Qed.

Lemma copy_plaintext_loop_told (k : nat) :
  hoare T (copy_plaintext_loop eng k) told.
Proof.
  induction k as [|k IH]; cbn [copy_plaintext_loop];
    apply copy_plaintext_round_told; [| exact IH].
  intros s Hs. split; [exact Hs | discriminate].
Qed.

Lemma copy_plaintext_to_buffer_told :
  hoare T (copy_plaintext_to_buffer eng) told.
Proof.
  unfold copy_plaintext_to_buffer.
  apply hoare_bind_inv; [intros s Hs; exact Hs | |].
  { intros o s Hs. split; [exact Hs | destruct o; discriminate]. }
  intros c. apply hoare_bind_inv.
  - destruct (_ <? 1024); [| apply preserves_ret].
    apply preserves_bind; [apply realloc_trace |].
    intros [mem|]; [apply set_data_from_client_trace |].
    apply preserves_bind; [apply fprintf_stderr_trace; reflexivity |].
    intros _ s Hs. exact Hs.
  - intros o s Hs. split; [exact Hs | destruct o; discriminate].
  - intros _. apply hoare_bind_inv; [intros s Hs; exact Hs | |].
    { intros o s Hs. split; [exact Hs | destruct o; discriminate]. }
    intros c'. apply copy_plaintext_loop_told.
Qed.

Lemma do_read_told : hoare T (do_read eng) told.
Proof.
  assert (Hfail : forall (A : Type) (o : outcome A) (s : State E),
             T s -> told (passed o) s).
  { intros A o s Hs. split; [exact Hs | destruct o; discriminate]. }
  assert (Hlog : forall d, preserves T (@fprintf_stderr E d)).
  { intros d. apply fprintf_stderr_trace. reflexivity. }
  assert (Hret : forall r,
             r <> CRUSTLS_DEMO_CLOSE_NOTIFY -> hoare T (ret r) told).
  { intros r Hr s Hs. split; [exact Hs |]. intros [= H]. contradiction. }
  unfold do_read.
  apply hoare_bind_inv; [| apply Hfail |].
  { apply rustls_connection_read_tls_trace; reflexivity. }
  intros [err n].
  destruct (_ || _).
  { apply hoare_bind_inv; [apply Hlog | apply Hfail |].
    intros _. apply Hret. discriminate. }
  destruct (negb (err =? 0)).
  { apply hoare_bind_inv; [apply Hlog | apply Hfail |].
    intros _. apply Hret. discriminate. }
  destruct (n =? 0); [apply Hret; discriminate |].
  apply hoare_bind_inv; [apply Hlog | apply Hfail |]. intros _.
  apply hoare_bind_inv; [intros s Hs; exact Hs | apply Hfail |]. intros c.
  destruct (rustls_connection_process_new_packets eng (rconn c))
    as [result e'].
  apply hoare_bind_inv; [apply set_rconn_trace | apply Hfail |]. intros _.
  destruct (negb (rustls_result_eqb result RUSTLS_RESULT_OK)).
  { apply hoare_bind_inv; [apply Hlog | apply Hfail |].
    intros _. apply Hret. discriminate. }
  apply hoare_bind with
    (R := fun r s => T s /\ (r = CRUSTLS_DEMO_CLOSE_NOTIFY -> seen s)).
  { intros s Hs. pose proof (copy_plaintext_to_buffer_told s Hs) as [H1 H2].
    destruct (fst (copy_plaintext_to_buffer eng s)) as [r| | |];
      cbn [passed]; try (split; [exact H1 | discriminate]).
    split; [exact H1 |]. intros ->. apply H2. reflexivity. }
  intros r. destruct r; cbn [demo_result_eqb negb];
    try (apply hoare_weaken_pre with (P' := T); [| intros s [Hs _]; exact Hs];
         apply hoare_bind_inv; [apply Hlog | apply Hfail |];
         intros _; apply Hret; discriminate).
  intros s [_ Hseen]. specialize (Hseen eq_refl).
  assert (Hkeep : preserves seen
            (c <- get_conn;;
             '(r, _) <- sys_read (fd c) 2048;;
             let n0 := size_t_of_ssize_t r in
             w <- get_world;;
             if negb (n0 =? 0) && negb (errno w =? EWOULDBLOCK) then
               fprintf_stderr (DiagReadAfterCloseNotify n0);;
               ret CRUSTLS_DEMO_ERROR
             else ret CRUSTLS_DEMO_CLOSE_NOTIFY)).
  { apply seen_kept. intros t.
    apply preserves_bind; [apply get_conn_trace | intros c0].
    apply preserves_bind; [apply sys_read_trace | intros [k bs]].
    apply preserves_bind; [apply get_world_trace | intros w].
    destruct (_ && _); [| apply preserves_ret].
    apply preserves_bind; [apply fprintf_stderr_trace; reflexivity |].
    intros _. apply preserves_ret. }
  specialize (Hkeep s Hseen). cbv beta in Hkeep.
  split; [apply seen_since_grown in Hkeep; exact Hkeep |].
  intros _. exact Hkeep.
Qed.

(** The verdict with which the loop of [handle_conn] goes to [cleanup]:
    [ret] is 0 or 1, and 0 only with a close-notify told. *)
Local Abbreviation verdict :=
  (fun (v : Z) (s : State E) => (v = 0 /\ seen s) \/ v = 1).

Lemma handle_conn_read_cycles_verdict (fuel : nat) :
  hoare T (handle_conn_read_cycles eng fuel)
        (fun o s =>
           T s /\
           match o with
           | Returns (Some v) => verdict v s
           | _ => True
           end).
Proof.
  induction fuel as [|fuel IH]; cbn [handle_conn_read_cycles];
    [intros s Hs; split; [exact Hs | exact I] |].
  apply hoare_bind with
    (R := fun r s => T s /\ (r = CRUSTLS_DEMO_CLOSE_NOTIFY -> seen s)).
  - intros s Hs. pose proof (do_read_told s Hs) as [H1 H2].
    destruct (fst (do_read eng s)) as [r| | |]; cbn [passed];
      try (split; [exact H1 | exact I]).
    split; [exact H1 |]. intros ->. apply H2. reflexivity.
  - intros r. destruct r.
    + intros s [Hs _]. apply IH, Hs.
    + intros s [Hs _]. split; [exact Hs | right; reflexivity].
    + intros s [Hs _]. split; [exact Hs | exact I].
    + intros s [Hs _]. split; [exact Hs | right; reflexivity].
    + intros s [Hs Hseen]. split; [exact Hs | left; auto].
Qed.

Lemma handle_conn_loop_verdict (fuel : nat) (state : exchange_state) :
  hoare T (handle_conn_loop eng fuel state)
        (fun o s =>
           T s /\
           match o with
           | Returns (v, _) => verdict v s
           | _ => True
           end).
Proof.
  revert state. induction fuel as [|fuel IH]; intros state;
    cbn [handle_conn_loop]; [intros s Hs; split; [exact Hs | exact I] |].
  assert (Hfail : forall (A : Type) (o : outcome A) (s : State E),
             T s ->
             T s /\
             match @passed A (Z * exchange_state) o with
             | Returns (v, _) => verdict v s
             | _ => True
             end).
  { intros A o s Hs. split; [exact Hs | destruct o; exact I]. }
  assert (Hlog : forall d, preserves T (@fprintf_stderr E d)).
  { intros d. apply fprintf_stderr_trace. reflexivity. }
  apply hoare_bind_inv; [intros s Hs; exact Hs | apply Hfail |]. intros c.
  apply hoare_bind_inv; [apply select_trace | apply Hfail |].
  intros [[result readable] writable].
  destruct (result =? -1).
  { apply hoare_bind_inv; [apply Hlog | apply Hfail |].
    intros _ s Hs. split; [exact Hs | right; reflexivity]. }
  apply hoare_bind_inv; [| apply Hfail |].
  { destruct (result =? 0); [| apply preserves_ret].
    apply preserves_bind; [apply Hlog |].
    intros _. apply nanosleep_trace. reflexivity. }
  intros _.
  apply hoare_bind with
    (R := fun r s => T s /\ match r with
                            | Some v => verdict v s
                            | None => True
                            end).
  { destruct readable.
    - apply hoare_bind_inv; [apply Hlog | |].
      + intros o s Hs. destruct o; cbn [passed]; split; auto.
      + intros _ s Hs.
        pose proof (handle_conn_read_cycles_verdict fuel s Hs) as [H1 H2].
        destruct (fst (handle_conn_read_cycles eng fuel s)) as [[v|]| | |];
          cbn [passed]; split; auto.
    - intros s Hs. split; [exact Hs | exact I]. }
  intros [v|]; [intros s [Hs Hv]; split; [exact Hs | exact Hv] |].
  apply hoare_weaken_pre with (P' := T); [| intros s [Hs _]; exact Hs].
  apply hoare_bind_inv; [| apply Hfail |].
  { destruct writable; [| apply preserves_ret].
    apply handle_conn_write_ready_trace; reflexivity. }
  intros [|]; [intros s Hs; split; [exact Hs | right; reflexivity] |].
  apply hoare_bind_inv; [| apply Hfail | intros state'; apply IH].
  apply handle_conn_reply_trace; reflexivity.
Qed.

End CleanEnd.



(** ** Forwarding to the sink *)

Lemma write_all_loop_accounting {E : Type} (k : nat) (buf : list Z)
  (bound n : Z) (s : State E) :
  n <= Z.of_nat k -> n <= bound -> bound <= Z.of_nat (length buf) ->
  exists r evs s',
    write_all_loop k STDOUT_FILENO buf n s = (Returns r, s') /\
    (r = 0 \/ r = 1) /\
    conn s' = conn s /\
    trace (world s') = evs ++ trace (world s) /\
    Forall (forwards_prefix buf bound) evs /\
    (r = 0 -> sink_total evs = Z.max 0 n) /\
    (n <= 0 -> r = 0 /\ evs = []).
Proof.
  revert n s. induction k as [|k IH]; intros n s Hk Hb Hbuf.
  - cbn [write_all_loop]. destruct (Z.gtb_spec n 0); [lia |].
    exists 0, [], s. cbn [sink_total app].
    repeat (split; [solve [auto] |]). split; [lia | auto].
  - cbn [write_all_loop]. destruct (Z.gtb_spec n 0) as [Hn|Hn].
    2:{ exists 0, [], s. cbn [sink_total app].
        repeat (split; [solve [auto] |]). split; [lia | auto]. }
    unfold bind at 1, sys_write at 1.
    change (STDOUT_FILENO =? STDOUT_FILENO) with true. cbv iota.
    destruct (stdout_writes (world s) 0%nat) as [e|m].
    + run. exists 1, [EvStderr DiagPerrorStdout]. eexists.
      split; [reflexivity |]. split; [auto |]. split; [reflexivity |].
      split; [reflexivity |]. split; [repeat constructor |].
      split; [discriminate | lia].
    + set (m' := Z.max 0 (Z.min m n)).
      assert (Hm' : 0 <= m' <= n) by (unfold m'; lia).
      assert (Hpre : forwards_prefix buf bound
                       (EvStdout (firstn (Z.to_nat m') buf))).
      { exists m'. split; [lia | reflexivity]. }
      destruct (Z.ltb_spec m' 0); [lia |].
      destruct (Z.eqb_spec m' 0) as [Hz|Hz].
      * run. exists 1. eexists [_; _]. eexists.
        split; [reflexivity |]. split; [auto |]. split; [reflexivity |].
        split; [reflexivity |].
        split; [constructor; [exact I | constructor; [exact Hpre |
                                                       constructor]] |].
        split; [discriminate | lia].
      * match goal with
        | |- context [write_all_loop k _ _ _ ?st] =>
            destruct (IH (n - m') st ltac:(lia) ltac:(lia) Hbuf)
              as (r & evs & s' & Hrun & Hr & Hc & Ht & Hall & Hsum & _)
        end.
        exists r, (evs ++ [EvStdout (firstn (Z.to_nat m') buf)]), s'.
        split; [exact Hrun |]. split; [exact Hr |].
        split; [exact Hc |]. split; [| split; [| split]].
        -- rewrite Ht. cbn [world trace emit]. rewrite <- app_assoc.
           reflexivity.
        -- apply Forall_app. split; [exact Hall |].
           constructor; [exact Hpre | constructor].
        -- intros H0. specialize (Hsum H0).
           assert (Hone : forall l x,
                     sink_total (l ++ [EvStdout x]) =
                     sink_total l + Z.of_nat (length x)).
           { induction l as [|[] l IHl]; intros x; cbn [app sink_total];
               rewrite ?IHl; lia. }
           rewrite Hone, Hsum, length_firstn. lia.
        -- lia.
Qed.

(** X5.  [write_all] on the sink always comes back, with 0 or 1, and
    leaves the connection data alone.  It returns 0 only when the sink has
    taken [n] bytes in all, and at once, writing nothing, when [n] is not
    positive.  Every piece it writes is taken from the start of [buf]: the
    buffer is not advanced after a short write, so what follows a short
    write is the beginning of the chunk again. *)
Theorem write_all_accounting {E : Type} (buf : list Z) (n : Z)
  (s : State E) :
  n <= Z.of_nat (length buf) ->
  exists r evs s',
    write_all STDOUT_FILENO buf n s = (Returns r, s') /\
    (r = 0 \/ r = 1) /\
    conn s' = conn s /\
    trace (world s') = evs ++ trace (world s) /\
    Forall (forwards_prefix buf n) evs /\
    (r = 0 -> sink_total evs = Z.max 0 n) /\
    (n <= 0 -> r = 0 /\ evs = []).
Proof.
  intros Hbuf. unfold write_all.
  apply write_all_loop_accounting; lia.
Qed.

Lemma write_all_accounting_witness :
  exists r evs s',
    write_all STDOUT_FILENO [104; 105; 33] 3
      (Scenario.start (Scenario.world_with [] []
                         [WriteTakes 2; WriteTakes 1])) =
      (Returns r, s') /\
    trace (world s') = evs ++ [] /\
    Forall (forwards_prefix [104; 105; 33] 3) evs.
Proof.
  destruct (write_all_accounting [104; 105; 33] 3
              (Scenario.start (Scenario.world_with [] []
                                 [WriteTakes 2; WriteTakes 1])))
    as (r & evs & s' & Hrun & _ & _ & Ht & Hall & _).
  - vm_compute. discriminate.
  - exists r, evs, s'. split; [exact Hrun |]. split; [exact Ht | exact Hall].
Defined.

(** ** The read after a close-notify *)

(** X6.  When the drain of a read cycle ends with a close-notify,
    [do_read] makes one more read on the socket, of at most 2048 bytes, and
    its result is decided by that read alone and by [errno]: end of file is
    a clean close; a failed read is a clean close if it would block and an
    error otherwise; bytes from the peer are an error unless [errno] still
    holds would-block from an earlier call. *)
Theorem do_read_after_close_notify {E : Type} (eng : rustls_engine E)
  (s s1 s2 : State E) (n : Z) (e' : E) :
  rustls_connection_read_tls eng s = (Returns (0, n), s1) ->
  n <> 0 ->
  rustls_connection_process_new_packets eng (rconn (conn s1)) =
    (RUSTLS_RESULT_OK, e') ->
  copy_plaintext_to_buffer eng
    (mkState (mkConn (fd (conn s1)) e' (data_from_client (conn s1))
                     (data_len (conn s1)) (data_capacity (conn s1)))
             (emit (EvStderr (DiagReadBytes n)) (world s1))) =
    (Returns CRUSTLS_DEMO_CLOSE_NOTIFY, s2) ->
  fst (do_read eng s) =
    Returns (half_close_verdict (socket_reads (world s2) 0%nat)
                                (errno (world s2))) /\
  socket_reads (world (snd (do_read eng s))) =
    tail_of (socket_reads (world s2)) /\
  conn (snd (do_read eng s)) = conn s2.
Proof.
  intros Hr Hn Hp Hc.
  destruct (do_read eng s) as [o s'] eqn:Hrun. cbn [fst snd].
  revert Hrun. unfold do_read. rewrite (bind_returns _ _ _ _ _ Hr).
  change (0 =? EAGAIN) with false. change (0 =? EWOULDBLOCK) with false.
  cbn [orb negb Z.eqb].
  destruct (Z.eqb_spec n 0); [contradiction |].
  run. rewrite Hp. run. cbn [rustls_result_eqb negb].
  rewrite (bind_returns _ _ _ _ _ Hc). cbn [demo_result_eqb negb].
  run. unfold bind at 1, sys_read at 1, half_close_verdict.
  destruct (socket_reads (world s2) 0%nat) as [e|bytes].
  - run. unfold size_t_of_ssize_t, size_t_wrap.
    change (-1 mod SIZE_MODULUS =? 0) with false. cbn [negb andb errno
      set_errno].
    destruct (e =? EWOULDBLOCK); cbn [negb]; run; unfold ret;
      intros [= <- <-]; repeat split; reflexivity.
  - run. change (Z.to_nat 2048) with 2048%nat.
    assert (Hlen : Z.of_nat (length (firstn 2048 bytes)) < SIZE_MODULUS).
    { rewrite length_firstn, SIZE_MODULUS_value. lia. }
    unfold size_t_of_ssize_t, size_t_wrap.
    rewrite Z.mod_small by lia.
    cbn [errno next_socket_read].
    destruct (Nat.eqb_spec (length (firstn 2048 bytes)) 0) as [Hz|Hz].
    + rewrite Hz. cbn [Z.of_nat Z.eqb negb andb orb]. unfold ret.
      intros [= <- <-]. repeat split; reflexivity.
    + destruct (Z.eqb_spec (Z.of_nat (length (firstn 2048 bytes))) 0);
        [lia |].
      cbn [negb andb orb].
      destruct (errno (world s2) =? EWOULDBLOCK); cbn [negb]; run;
        unfold ret; intros [= <- <-]; repeat split; reflexivity.
Qed.

Lemma do_read_after_close_notify_witness :
  let s := Scenario2.only_close_notify in
  let s1 := snd (rustls_connection_read_tls Loopback.engine s) in
  let e' := snd (rustls_connection_process_new_packets Loopback.engine
                   (rconn (conn s1))) in
  let s2 :=
    snd (copy_plaintext_to_buffer Loopback.engine
           (mkState (mkConn (fd (conn s1)) e' (data_from_client (conn s1))
                            (data_len (conn s1)) (data_capacity (conn s1)))
                    (emit (EvStderr (DiagReadBytes 1)) (world s1)))) in
  socket_reads (world s2) 0%nat = ReadGives [] /\
  fst (do_read Loopback.engine s) = Returns CRUSTLS_DEMO_CLOSE_NOTIFY.
Proof.
  cbv zeta.
  set (s1 := snd (rustls_connection_read_tls Loopback.engine
                    Scenario2.only_close_notify)).
  set (e' := snd (rustls_connection_process_new_packets Loopback.engine
                    (rconn (conn s1)))).
  set (s2 := snd (copy_plaintext_to_buffer Loopback.engine _)).
  assert (Hr : rustls_connection_read_tls Loopback.engine
                 Scenario2.only_close_notify = (Returns (0, 1), s1))
    by reflexivity.
  assert (Hn : 1 <> 0) by discriminate.
  assert (Hp : rustls_connection_process_new_packets Loopback.engine
                 (rconn (conn s1)) = (RUSTLS_RESULT_OK, e'))
    by reflexivity.
  assert (Hc : copy_plaintext_to_buffer Loopback.engine
                 (mkState (mkConn (fd (conn s1)) e'
                                  (data_from_client (conn s1))
                                  (data_len (conn s1))
                                  (data_capacity (conn s1)))
                          (emit (EvStderr (DiagReadBytes 1)) (world s1))) =
               (Returns CRUSTLS_DEMO_CLOSE_NOTIFY, s2)).
  { vm_compute. reflexivity. }
  assert (Hs2 : socket_reads (world s2) 0%nat = ReadGives []).
  { vm_compute. reflexivity. }
  split; [exact Hs2 |].
  destruct (do_read_after_close_notify Loopback.engine
              Scenario2.only_close_notify s1 s2 1 e' Hr Hn Hp Hc)
    as [H _].
  rewrite H, Hs2. reflexivity.
Defined.

(** ** Reading the certificate and the key *)

Lemma read_file_cases (fs : string -> fopen_outcome)
  (filename : string) (buflen : Z) (b : Boot) :
  exists result bytes b',
    read_file fs filename buflen b = (Returns (result, bytes), b') /\
    (length bytes <= Z.to_nat buflen)%nat /\
    (result = CRUSTLS_DEMO_OK <->
     exists contents,
       fs filename = FopenGives (Readable contents) /\
       (length contents < Z.to_nat buflen)%nat) /\
    (result = CRUSTLS_DEMO_OK ->
     fs filename = FopenGives (Readable bytes) /\
     b_errno b' = b_errno b /\
     b_log b' = SetupFopen filename :: b_log b) /\
    (result <> CRUSTLS_DEMO_OK ->
     result = CRUSTLS_DEMO_ERROR /\
     exists e rest, b_log b' = SetupStrerror e :: rest).
Proof.
  unfold read_file, bind, fopen.
  destruct (fs filename) as [e|[contents|prefix e]] eqn:Hfs.
  - cbn. eexists. eexists. eexists. split; [reflexivity |].
    split; [cbn; lia |]. split; [| split].
    + split; [discriminate | intros (c & [=] & _)].
    + discriminate.
    + intros _. split; [reflexivity | eexists; eexists; reflexivity].
  - cbn [fread]. destruct (Nat.ltb_spec (length contents) (Z.to_nat buflen))
      as [Hlt|Hge]; cbn.
    + eexists. eexists. eexists. split; [reflexivity |].
      rewrite firstn_all2 by lia.
      split; [lia |]. split; [| split].
      * split; [intros _; exists contents; auto | reflexivity].
      * intros _. auto.
      * intros H. contradiction.
    + eexists. eexists. eexists. split; [reflexivity |].
      split; [rewrite length_firstn; lia |]. split; [| split].
      * split; [discriminate |].
        intros (c & [= <-] & Hc). lia.
      * discriminate.
      * intros _. split; [reflexivity | eexists; eexists; reflexivity].
  - cbn [fread].
    destruct (length prefix <? Z.to_nat buflen)%nat; cbn;
      (eexists; eexists; eexists; split; [reflexivity |];
       split; [rewrite length_firstn; lia |]; split; [| split];
       [ split; [discriminate | intros (c & [=] & _)]
       | discriminate
       | intros _; split; [reflexivity | eexists; eexists; reflexivity] ]).
Qed.

Lemma read_file_log (fs : string -> fopen_outcome) (filename : string)
  (buflen : Z) (b : Boot) :
  In SetupListening (b_log (snd (read_file fs filename buflen b))) <->
  In SetupListening (b_log b).
Proof.
  unfold read_file, bind, fopen.
  destruct (fs filename) as [e|[contents|prefix e]]; cbn [fread].
  - cbn. split; [intros [H | H]; [discriminate | exact H] | auto].
  - destruct (length contents <? Z.to_nat buflen)%nat; cbn;
      split; auto; intros H;
      repeat (destruct H as [H | H]; [discriminate |]); exact H.
  - destruct (length prefix <? Z.to_nat buflen)%nat; cbn;
      split; auto; intros H;
      repeat (destruct H as [H | H]; [discriminate |]); exact H.
Qed.

(** X7.  [read_file] returns [CRUSTLS_DEMO_OK] exactly when the file
    opens, all of it can be read, and it is strictly shorter than the
    buffer; the buffer then holds the whole file and [errno] is untouched.
    In every other case (the file does not open, reading fails, or the
    file has [buflen] bytes or more, even exactly [buflen]) it returns
    [CRUSTLS_DEMO_ERROR] after one line on the diagnostic stream; it never
    stores more than [buflen] bytes. *)
Theorem read_file_accepts_shorter_files_only (fs : string -> fopen_outcome)
  (filename : string) (buflen : Z) (b : Boot) :
  exists result bytes b',
    read_file fs filename buflen b = (Returns (result, bytes), b') /\
    (length bytes <= Z.to_nat buflen)%nat /\
    (result = CRUSTLS_DEMO_OK <->
     exists contents,
       fs filename = FopenGives (Readable contents) /\
       (length contents < Z.to_nat buflen)%nat) /\
    (result = CRUSTLS_DEMO_OK ->
     fs filename = FopenGives (Readable bytes) /\
     b_errno b' = b_errno b /\
     b_log b' = SetupFopen filename :: b_log b) /\
    (result <> CRUSTLS_DEMO_OK ->
     result = CRUSTLS_DEMO_ERROR /\
     exists e rest, b_log b' = SetupStrerror e :: rest).
Proof. apply read_file_cases. Qed.

(** ** The way of [main] to the accept loop *)

Section MainWalk.

Context {E : Type}.
Variable eng : rustls_engine E.
Variable w : World.
Variable l : Listener E.
Variable P : outcome Z * Process E -> Prop.

(** Before the accept loop: the serving state is untouched and the line
    "listening" has not been written. *)
Local Abbreviation quiet :=
  (fun p : Process E =>
     pristine w l (p_serving p) /\ ~ In SetupListening (p_log p)).

Lemma pristine_with_errno (e : Z) (p : Process E) :
  pristine w l (p_serving p) -> pristine w l (p_serving (with_errno e p)).
Proof.
  intros [e0 Hp]. exists e. unfold with_errno. cbn [p_serving].
  rewrite Hp. reflexivity.
Qed.

Lemma serving_keeps_log {A : Type} (m : M (MainState E) A)
  (p : Process E) :
  p_log (snd (serving m p)) = p_log p.
Proof. unfold serving. destruct (m (p_serving p)). reflexivity. Qed.

Lemma serving_bind {A B : Type} (m : M (MainState E) A)
  (k : A -> M (MainState E) B) (p : Process E) :
  bind (serving m) (fun a => serving (k a)) p = serving (bind m k) p.
Proof.
  unfold bind, serving.
  destruct (m (p_serving p)) as [[a| | |] ms]; reflexivity.
Qed.

Lemma bind_setup_log {B : Type} (e : setup_event)
  (k : unit -> M (Process E) B) (p : Process E) :
  bind (setup_log e) k p =
  k tt (mkProcess
          (p_serving (with_errno (errno (m_world (p_serving p))) p))
          (e :: p_log p)).
Proof. reflexivity. Qed.

Lemma bind_get_errno {B : Type} (k : Z -> M (Process E) B)
  (p : Process E) :
  bind get_errno k p = k (errno (m_world (p_serving p))) p.
Proof. reflexivity. Qed.

Lemma bind_in_boot_returns {A B : Type} (m : M Boot A)
  (k : A -> M (Process E) B) (p : Process E) (a : A) (b' : Boot) :
  m (mkBoot (errno (m_world (p_serving p))) (p_log p)) = (Returns a, b') ->
  bind (in_boot m) k p =
  k a (mkProcess (p_serving (with_errno (b_errno b') p)) (b_log b')).
Proof. intros H. unfold bind, in_boot. rewrite H. reflexivity. Qed.

Lemma walk_log {B : Type} (e : setup_event) (k : unit -> M (Process E) B)
  (p : Process E) (Q : outcome B * Process E -> Prop) :
  e <> SetupListening ->
  quiet p ->
  (forall p', quiet p' -> Q (k tt p')) ->
  Q (bind (setup_log e) k p).
Proof.
  intros He [Hp Hl] Hk.
  rewrite bind_setup_log. apply Hk. cbn [p_serving p_log]. split.
  - apply pristine_with_errno, Hp.
  - intros [H | H]; [exact (He H) | exact (Hl H)].
Qed.

Lemma walk_call {B : Type} (o : call_outcome) (k : Z -> M (Process E) B)
  (p : Process E) (Q : outcome B * Process E -> Prop) :
  quiet p ->
  (forall p', quiet p' -> Q (k (call_value o) p')) ->
  Q (bind (sys_call o) k p).
Proof.
  intros [Hp Hl] Hk. destruct o as [e|v].
  - change (Q (k (-1) (with_errno e p))). apply Hk.
    split; [apply pristine_with_errno, Hp | exact Hl].
  - change (Q (k v p)). apply Hk. split; [exact Hp | exact Hl].
Qed.

Lemma walk_read_file {B : Type} (fs : string -> fopen_outcome)
  (filename : string) (buflen : Z)
  (k : crustls_demo_result * list Z -> M (Process E) B) (p : Process E)
  (Q : outcome B * Process E -> Prop) :
  quiet p ->
  (forall result bytes p',
     quiet p' ->
     (result = CRUSTLS_DEMO_OK <->
      exists contents,
        fs filename = FopenGives (Readable contents) /\
        (length contents < Z.to_nat buflen)%nat) ->
     (result = CRUSTLS_DEMO_OK ->
      fs filename = FopenGives (Readable bytes)) ->
     Q (k (result, bytes) p')) ->
  Q (bind (in_boot (read_file fs filename buflen)) k p).
Proof.
  intros [Hp Hl] Hk.
  set (b0 := mkBoot (errno (m_world (p_serving p))) (p_log p)).
  pose proof (read_file_log fs filename buflen b0) as Hlog.
  destruct (read_file_cases fs filename buflen b0)
    as (result & bytes & b1 & Hrun & _ & Hok & Hgood & _).
  rewrite Hrun in Hlog. cbn [snd] in Hlog.
  rewrite (bind_in_boot_returns _ k p _ _ Hrun).
  apply Hk; [split | exact Hok | intros H; apply (Hgood H)].
  - cbn [p_serving]. apply pristine_with_errno, Hp.
  - cbn [p_log]. rewrite Hlog. exact Hl.
Qed.

(** The ways of [main]: to the accept loop and then [cleanup]; out at
    once when certificate and key do not parse; to [cleanup] at once in
    every other case. *)
Lemma main_cases (su : Setup) (fuel : nat) :
  (ready su -> ~ parse_fails su -> forall p,
     pristine w l (p_serving p) -> In SetupListening (p_log p) ->
     P (serving (main_serve eng fuel) p)) ->
  (parse_fails su -> ~ ready su -> forall p,
     pristine w l (p_serving p) -> ~ In SetupListening (p_log p) ->
     P (Returns 1, p)) ->
  (~ parse_fails su -> ~ ready su -> forall p,
     pristine w l (p_serving p) -> ~ In SetupListening (p_log p) ->
     P (serving (main_cleanup 1) p)) ->
  P (main eng su fuel (mkProcess (mkMain w l None 0%nat) [])).
Proof.
  intros Hserve Hparse Hfail.
  assert (H0 : quiet (mkProcess (mkMain w l None 0%nat) [])).
  { split; [| intros []]. exists (errno w). cbn [p_serving].
    destruct w; reflexivity. }
  unfold main.
  apply walk_log; [discriminate | exact H0 | clear H0; intros p Hq].
  apply walk_log; [discriminate | exact Hq | clear p Hq; intros p Hq].
  destruct (Z.leb_spec (argc su) 2) as [Harg|Harg].
  { apply walk_log; [discriminate | exact Hq | clear p Hq; intros p [Hp Hl]].
    apply Hfail; [intros [H _]; lia | intros [H _]; lia | exact Hp | exact Hl]. }
  apply walk_read_file; [exact Hq |].
  clear p Hq. intros res1 cert p Hq Hok1 Hcert.
  destruct (demo_result_eqb res1 CRUSTLS_DEMO_OK) eqn:Hres1; cbn [negb].
  2:{ assert (Hnot : ~ exists c,
                  files su (certfile su) = FopenGives (Readable c) /\
                  Z.of_nat (length c) < 10000).
      { intros (c & Hc & Hlc).
        assert (res1 = CRUSTLS_DEMO_OK)
          by (apply Hok1; exists c; split; [exact Hc | lia]).
        subst res1. discriminate. }
      destruct Hq as [Hp Hl]. apply Hfail; [| | exact Hp | exact Hl].
      - intros (_ & c & k & Hc & Hlc & _). apply Hnot. exists c. auto.
      - intros (_ & c & k & Hc & Hlc & _). apply Hnot. exists c. auto. }
  assert (res1 = CRUSTLS_DEMO_OK)
    by (destruct res1; cbn in Hres1; try discriminate; reflexivity).
  subst res1. specialize (Hcert eq_refl).
  assert (Hclen : Z.of_nat (length cert) < 10000).
  { destruct (proj1 Hok1 eq_refl) as (c & Hc & Hlc).
    rewrite Hcert in Hc. injection Hc as <-. lia. }
  clear Hok1 Hres1.
  apply walk_read_file; [exact Hq |].
  clear p Hq. intros res2 key p Hq Hok2 Hkey.
  destruct (demo_result_eqb res2 CRUSTLS_DEMO_OK) eqn:Hres2; cbn [negb].
  2:{ assert (Hnot : ~ exists c,
                  files su (keyfile su) = FopenGives (Readable c) /\
                  Z.of_nat (length c) < 10000).
      { intros (c & Hc & Hlc).
        assert (res2 = CRUSTLS_DEMO_OK)
          by (apply Hok2; exists c; split; [exact Hc | lia]).
        subst res2. discriminate. }
      destruct Hq as [Hp Hl]. apply Hfail; [| | exact Hp | exact Hl].
      - intros (_ & c & k & _ & _ & Hk & Hlk & _). apply Hnot.
        exists k. auto.
      - intros (_ & c & k & _ & _ & Hk & Hlk & _). apply Hnot.
        exists k. auto. }
  assert (res2 = CRUSTLS_DEMO_OK)
    by (destruct res2; cbn in Hres2; try discriminate; reflexivity).
  subst res2. specialize (Hkey eq_refl).
  assert (Hklen : Z.of_nat (length key) < 10000).
  { destruct (proj1 Hok2 eq_refl) as (c & Hc & Hlc).
    rewrite Hkey in Hc. injection Hc as <-. lia. }
  clear Hok2 Hres2.
  assert (Hsame : forall c k (Q : Prop),
             files su (certfile su) = FopenGives (Readable c) ->
             files su (keyfile su) = FopenGives (Readable k) ->
             (c = cert -> k = key -> Q) -> Q).
  { intros c k Q Hc Hk HQ. rewrite Hcert in Hc. rewrite Hkey in Hk.
    injection Hc as <-. injection Hk as <-. apply HQ; reflexivity. }
  cbv zeta.
  destruct (rustls_result_eqb (rustls_certified_key_build su cert key)
              RUSTLS_RESULT_OK) eqn:Hbuild; cbn [negb].
  2:{ assert (Hb : rustls_certified_key_build su cert key
                    <> RUSTLS_RESULT_OK).
      { intros H. rewrite H in Hbuild. discriminate. }
      apply walk_log; [discriminate | exact Hq | clear p Hq; intros p [Hp Hl]].
      apply Hparse; [| | exact Hp | exact Hl].
      - split; [exact Harg |]. exists cert, key. auto 6.
      - intros (_ & c & k & Hc & _ & Hk & _ & Hok & _).
        apply (Hsame c k False Hc Hk). intros -> ->. exact (Hb Hok). }
  assert (Hb : rustls_certified_key_build su cert key = RUSTLS_RESULT_OK).
  { destruct (rustls_certified_key_build su cert key); try discriminate.
    reflexivity. }
  clear Hbuild.
  assert (Hnp : ~ parse_fails su).
  { intros (_ & c & k & Hc & _ & Hk & _ & Hbad).
    apply (Hsame c k False Hc Hk). intros -> ->. exact (Hbad Hb). }
  apply walk_log; [discriminate | exact Hq | clear p Hq; intros p Hq].
  apply walk_log; [discriminate | exact Hq | clear p Hq; intros p Hq].
  apply walk_log; [discriminate | exact Hq | clear p Hq; intros p Hq].
  apply walk_call; [exact Hq | clear p Hq; intros p Hq].
  set (sockfd := call_value (socket_outcome su)).
  assert (Hsock : forall (k : unit -> M (Process E) Z),
             (forall p', quiet p' -> P (k tt p')) ->
             P (bind (if sockfd <? 0
                      then e <- get_errno;; setup_log (SetupMakingSocket e)
                      else ret tt) k p)).
  { intros k Hk. destruct (sockfd <? 0).
    - rewrite bind_assoc, bind_get_errno.
      apply walk_log; [discriminate | exact Hq | exact Hk].
    - rewrite bind_ret. apply Hk, Hq. }
  apply Hsock. clear p Hq Hsock. intros p Hq.
  apply walk_log; [discriminate | exact Hq | clear p Hq; intros p Hq].
  apply walk_call; [exact Hq | clear p Hq; intros p Hq].
  destruct (Z.eqb_spec (call_value (bind_outcome su sockfd)) (-1))
    as [Hbind|Hbind].
  { apply walk_log; [discriminate | exact Hq | clear p Hq; intros p [Hp Hl]].
    apply Hfail; [exact Hnp | | exact Hp | exact Hl].
    intros (_ & c & k & _ & _ & _ & _ & _ & H & _). exact (H Hbind). }
  apply walk_log; [discriminate | exact Hq | clear p Hq; intros p Hq].
  apply walk_call; [exact Hq | clear p Hq; intros p Hq].
  destruct (Z.eqb_spec (call_value (listen_outcome su sockfd)) (-1))
    as [Hlisten|Hlisten].
  { apply walk_log; [discriminate | exact Hq | clear p Hq; intros p [Hp Hl]].
    apply Hfail; [exact Hnp | | exact Hp | exact Hl].
    intros (_ & c & k & _ & _ & _ & _ & _ & _ & H). exact (H Hlisten). }
  destruct Hq as [Hp Hl]. rewrite bind_setup_log, serving_bind.
  apply Hserve.
  - split; [exact Harg |]. exists cert, key. auto 8.
  - exact Hnp.
  - cbn [p_serving]. apply pristine_with_errno, Hp.
  - left. reflexivity.
Qed.

End MainWalk.

(** X8.  [main] gets to the line "listening on localhost:8443", and so to
    its accept loop, exactly when it was given more than two arguments,
    the certificate file and the key file could each be read whole and are
    each shorter than 10000 bytes, the two parse as a certified key, and
    [bind] and [listen] succeed.  A failed [socket] call alone does not
    stop it: it goes on to [bind] with the descriptor -1. *)
Theorem main_listens_exactly_when_ready {E : Type} (eng : rustls_engine E)
  (su : Setup) (fuel : nat) (w : World) (l : Listener E) :
  In SetupListening
     (p_log (snd (main eng su fuel
                    (mkProcess (mkMain w l None 0%nat) [])))) <->
  ready su.
Proof.
  apply (main_cases eng w l
           (fun res => In SetupListening (p_log (snd res)) <-> ready su)).
  - intros Hr _ p _ Hin. rewrite serving_keeps_log. split; auto.
  - intros _ Hn p _ Hl. cbn [snd]. split; [intros H | intros H];
      contradiction.
  - intros _ Hn p _ Hl. rewrite serving_keeps_log.
    split; [intros H | intros H]; contradiction.
Qed.

(** ** The exit status of [main] *)

Lemma seen_since_earlier (e : event) (t0 : list event) (w w' : World) :
  grown any_event t0 w -> seen_since e (trace w) w' -> seen_since e t0 w'.
Proof.
  intros (evs & Ht & _) (evs' & Ht' & Hin). exists (evs' ++ evs).
  rewrite Ht', Ht, app_assoc.
  split; [reflexivity | apply in_or_app; left; exact Hin].
Qed.

Lemma serving_cleanup {E : Type} (r : Z) (p : Process E) :
  serving (main_cleanup r) p =
  (Returns r,
   mkProcess
     (mkMain (emit (EvConnectionFree (m_rconn (p_serving p)))
                   (emit EvServerConfigFree (m_world (p_serving p))))
             (m_listener (p_serving p)) (m_rconn (p_serving p))
             (m_created (p_serving p)))
     (p_log p)).
Proof. reflexivity. Qed.

Section ExitStatus.

Context {E : Type}.
Variable eng : rustls_engine E.
Variable t0 : list event.

(** [handle_conn] starts with the line "Accepted fd". *)
Lemma handle_conn_announces (fuel : nat) (s : State E) :
  seen_since (EvStderr (DiagAccepted (fd (conn s)))) (trace (world s))
             (world (snd (handle_conn eng fuel s))).
Proof.
  assert (Hloop : preserves
                    (fun s' : State E =>
                       seen_since (EvStderr (DiagAccepted (fd (conn s))))
                                  (trace (world s)) (world s'))
                    (handle_conn_loop eng fuel READING_REQUEST)).
  { apply seen_kept. intros t. apply handle_conn_loop_keeps.
    intros; reflexivity. }
  specialize (Hloop (logged (DiagAccepted (fd (conn s))) s)
                (seen_since_now _ _ _ (grown_refl any_event (world s)))).
  unfold handle_conn. run. unfold logged in Hloop. unfold bind at 1.
  destruct (handle_conn_loop eng fuel READING_REQUEST _) as [[r| | |] s2];
    cbn [fst snd] in Hloop |- *; try exact Hloop.
  destruct (fd (conn s) >? 0); run; unfold ret; cbn [snd world];
    [apply seen_since_emit |]; exact Hloop.
Qed.

(** In the accept loop with [ret] equal to [rv]: the trace has only grown,
    and [ret] is 0 only if a connection was served. *)
Local Abbreviation status rv :=
  (fun ms : MainState E =>
     grown any_event t0 (m_world ms) /\
     (rv = 0 -> served t0 (m_world ms))).

Local Abbreviation at_exit :=
  (fun (o : outcome Z) (ms : MainState E) =>
     match o with
     | Returns v => v = 0 -> served t0 (m_world ms)
     | _ => True
     end).

Lemma status_emit (rv : Z) (e : event) :
  preserves (status rv) (@main_emit E e).
Proof.
  intros ms [Hg Hs]. cbn [main_emit fst snd m_world]. split.
  - apply grown_emit; [reflexivity | exact Hg].
  - intros H. destruct (Hs H) as [fd0 Hseen]. exists fd0.
    apply seen_since_emit, Hseen.
Qed.

Lemma status_nonblock (rv : Z) : preserves (status rv) (@nonblock E).
Proof.
  assert (Hf : preserves (status rv) (@fcntl E)).
  { intros ms Hms. exact Hms. }
  unfold nonblock.
  apply preserves_bind; [exact Hf | intros flags].
  destruct (flags <? 0).
  { apply preserves_bind; [apply status_emit |].
    intros _. apply preserves_ret. }
  apply preserves_bind; [exact Hf | intros flags'].
  destruct (flags' <? 0); [| apply preserves_ret].
  apply preserves_bind; [apply status_emit |].
  intros _. apply preserves_ret.
Qed.

Lemma status_session (rv : Z) :
  preserves (status rv) (@rustls_server_connection_new E).
Proof.
  intros ms Hms. unfold rustls_server_connection_new.
  destruct (sessions (m_listener ms) 0%nat) as [result e].
  destruct (rustls_result_eqb result RUSTLS_RESULT_OK); cbn [snd];
    [| exact Hms].
  exact (status_emit rv (EvConnectionNew (m_created ms)) ms Hms).
Qed.

Lemma status_thread (rv : Z) (fuel : nat) (c : conndata_t E) :
  hoare (status rv) (pthread_create_join eng fuel c)
        (fun o ms =>
           match o with
           | Returns r => status r ms
           | _ => True
           end).
Proof.
  intros ms [Hg Hs]. unfold pthread_create_join.
  destruct (negb (pthread_creates (m_listener ms) 0%nat =? 0)) eqn:Hr.
  { cbn [fst snd m_world]. split; [exact Hg |].
    intros H. rewrite H in Hr. discriminate. }
  pose proof (handle_conn_announces fuel (mkState c (m_world ms))) as H.
  cbn [conn world] in H.
  destruct (handle_conn eng fuel (mkState c (m_world ms)))
    as [[r| | |] s']; cbn [fst snd m_world] in H |- *; try exact I.
  pose proof (seen_since_earlier _ _ _ _ Hg H) as Hseen.
  split; [apply (seen_since_grown _ _ _ Hseen) |].
  intros _. exists (fd c). exact Hseen.
Qed.

Lemma accept_loop_status (fuel : nat) (rv : Z) :
  hoare (status rv) (accept_loop eng fuel rv) at_exit.
Proof.
  assert (Hpass : forall (A : Type) (o : outcome A) (ms : MainState E),
             at_exit (passed o) ms).
  { intros A [] ms; exact I. }
  assert (Hleave : forall (rv : Z) (e : event),
             hoare (status rv) (main_emit e;; ret rv) at_exit).
  { intros rv' e ms Hms. destruct (status_emit rv' e ms Hms) as [_ H].
    exact H. }
  revert rv. induction fuel as [|fuel IH]; intros rv; cbn [accept_loop];
    [intros ms _; exact I |].
  apply hoare_bind_inv;
    [intros ms Hms; exact Hms | intros o ms _; apply Hpass
    | intros clientfd].
  destruct (clientfd <? 0); [apply Hleave |].
  apply hoare_bind_inv;
    [apply status_nonblock | intros o ms _; apply Hpass | intros _].
  apply hoare_bind_inv;
    [apply status_session | intros o ms _; apply Hpass
    | intros [result e]].
  destruct (negb (rustls_result_eqb result RUSTLS_RESULT_OK));
    [apply Hleave |].
  apply hoare_bind with (R := fun r ms => status r ms).
  { intros ms Hms.
    match goal with
    | |- context [pthread_create_join eng fuel ?c ms] =>
        pose proof (status_thread rv fuel c ms Hms) as H;
        destruct (fst (pthread_create_join eng fuel c ms)); try exact I
    end.
    exact H. }
  intros r. destruct (negb (r =? 0)) eqn:Hr; [| apply IH].
  intros ms _. cbn. intros H. rewrite H in Hr. discriminate.
Qed.

Lemma main_serve_status (fuel : nat) (ms : MainState E) :
  grown any_event t0 (m_world ms) ->
  match main_serve eng fuel ms with
  | (Returns v, ms') => v = 0 -> served t0 (m_world ms')
  | (_, _) => True
  end.
Proof.
  intros Hg.
  assert (H0 : status 1 ms) by (split; [exact Hg | discriminate]).
  pose proof (accept_loop_status fuel 1 ms H0) as H.
  unfold main_serve. unfold bind at 1.
  destruct (accept_loop eng fuel 1 ms) as [[r| | |] ms1];
    cbn [fst snd] in H |- *; try exact I.
  cbn. intros Hr. destruct (H Hr) as [fd0 Hseen]. exists fd0.
  apply seen_since_emit, seen_since_emit, Hseen.
Qed.

End ExitStatus.

(** X9.  [main] returns 1 whenever it does not get to listen, and it
    returns 0 only after a connection was accepted and handed to
    [handle_conn], whose line "accepted conn on fd" is then on the
    diagnostic stream: how the connections ended plays no part in it.
    [main] always returns unless it got to listen. *)
Theorem main_exit_status {E : Type} (eng : rustls_engine E) (su : Setup)
  (fuel : nat) (w : World) (l : Listener E) :
  match main eng su fuel (mkProcess (mkMain w l None 0%nat) []) with
  | (Returns v, p') =>
      (ready su \/ v = 1) /\
      (v = 0 -> served (trace w) (m_world (p_serving p')))
  | (_, _) => ready su
  end.
Proof.
  apply (main_cases eng w l
           (fun res =>
              match res with
              | (Returns v, p') =>
                  (ready su \/ v = 1) /\
                  (v = 0 -> served (trace w) (m_world (p_serving p')))
              | (_, _) => ready su
              end)).
  - intros Hr _ [ms log] [e Hp] _. cbn [p_serving] in Hp. subst ms.
    unfold serving. cbn [p_serving p_log].
    pose proof (main_serve_status eng (trace w) fuel
                  (mkMain (set_errno e w) l None 0%nat)
                  (grown_refl any_event (set_errno e w))) as H.
    destruct (main_serve eng fuel (mkMain (set_errno e w) l None 0%nat))
      as [[v| | |] ms']; cbn [p_serving]; auto.
  - intros _ _ p _ _. split; [right; reflexivity | discriminate].
  - intros _ _ p _ _. rewrite serving_cleanup.
    split; [right; reflexivity | discriminate].
Qed.

Lemma main_exit_status_witness :
  let r := main Loopback.engine Scenario3.good_setup 10
             (mkProcess Scenario.two_connections []) in
  fst r = Returns 0 /\
  served [] (m_world (p_serving (snd r))).
Proof.
  cbv zeta.
  pose proof (main_exit_status Loopback.engine Scenario3.good_setup 10
                (m_world Scenario.two_connections)
                (m_listener Scenario.two_connections)) as H.
  change (mkProcess (mkMain (m_world Scenario.two_connections)
                            (m_listener Scenario.two_connections)
                            None 0%nat) [])
    with (mkProcess Scenario.two_connections []) in H.
  assert (Hrun : fst (main Loopback.engine Scenario3.good_setup 10
                        (mkProcess Scenario.two_connections [])) =
                 Returns 0) by (vm_compute; reflexivity).
  destruct (main Loopback.engine Scenario3.good_setup 10
              (mkProcess Scenario.two_connections [])) as [o p'].
  cbn [fst snd] in Hrun |- *. subst o.
  split; [reflexivity | exact (proj2 H eq_refl)].
Defined.

(** X10.  When [main] returns it has freed the server configuration and
    the engine made last (the null pointer when none was made), as its
    last two actions and after having freed nothing else, on every way out
    but one: when the certificate and the key were read but do not parse
    it returns 1 at once and frees nothing.  When it does not return it
    has freed nothing. *)
Theorem cleanup_is_skipped_when_key_does_not_parse {E : Type}
  (eng : rustls_engine E) (su : Setup) (fuel : nat) (w : World)
  (l : Listener E) :
  match main eng su fuel (mkProcess (mkMain w l None 0%nat) []) with
  | (Returns v, p') =>
      (parse_fails su /\ v = 1 /\
       trace (m_world (p_serving p')) = trace w) \/
      (~ parse_fails su /\
       exists evs,
         trace (m_world (p_serving p')) =
           EvConnectionFree (last_engine (m_created (p_serving p'))) ::
           EvServerConfigFree :: evs ++ trace w /\
         forallb frees_nothing evs = true)
  | (_, p') => grown frees_nothing (trace w) (m_world (p_serving p'))
  end.
Proof.
  apply (main_cases eng w l
           (fun res =>
              match res with
              | (Returns v, p') =>
                  (parse_fails su /\ v = 1 /\
                   trace (m_world (p_serving p')) = trace w) \/
                  (~ parse_fails su /\
                   exists evs,
                     trace (m_world (p_serving p')) =
                       EvConnectionFree
                         (last_engine (m_created (p_serving p'))) ::
                       EvServerConfigFree :: evs ++ trace w /\
                     forallb frees_nothing evs = true)
              | (_, p') =>
                  grown frees_nothing (trace w) (m_world (p_serving p'))
              end)).
  - intros _ Hnp [ms log] [e Hp] _. cbn [p_serving] in Hp. subst ms.
    unfold serving. cbn [p_serving p_log].
    pose proof (main_serve_frees eng fuel (set_errno e w) l) as H.
    destruct (main_serve eng fuel (mkMain (set_errno e w) l None 0%nat))
      as [[v| | |] ms']; cbn [p_serving]; try exact H.
    right. split; [exact Hnp | exact H].
  - intros Hpf _ [ms log] [e Hp] _. cbn [p_serving] in Hp. subst ms.
    left. split; [exact Hpf | split; reflexivity].
  - intros Hnp _ [ms log] [e Hp] _. cbn [p_serving] in Hp. subst ms.
    rewrite serving_cleanup. right. split; [exact Hnp |].
    exists []. split; reflexivity.
Qed.

(** ** Where the program aborts *)

Section Harmless.

Context {S : Type}.
Variable wof : S -> World.

Lemma harmless_returns {A : Type} (m : M S A) :
  (forall s, fst (m s) <> Aborts) -> harmless wof m.
Proof. intros H s _ Hab. destruct (H s Hab). Qed.

Lemma harmless_ret {A : Type} (a : A) : harmless wof (ret a).
Proof. apply harmless_returns. discriminate. Qed.

Lemma harmless_fault {A : Type} : harmless wof (@fault S A).
Proof. apply harmless_returns. discriminate. Qed.

Lemma harmless_out_of_fuel {A : Type} : harmless wof (@out_of_fuel S A).
Proof. apply harmless_returns. discriminate. Qed.

Lemma harmless_bind {A B : Type} (m : M S A) (k : A -> M S B) :
  harmless wof m -> (forall a, harmless wof (k a)) ->
  harmless wof (bind m k).
Proof.
  intros Hm Hk. apply hoare_bind with (R := fun _ _ => True); [| exact Hk].
  intros s Hs. specialize (Hm s Hs).
  destruct (fst (m s)); cbn [passed]; try exact I; try discriminate.
  intros _. apply Hm. reflexivity.
Qed.

End Harmless.

Create HintDb abort_db.

(** Breaks a composite computation into its parts; the two calls of
    [abort] come right after their lines. *)
Ltac dies_step :=
  match goal with
  | |- harmless _ (bind (fprintf_stderr DiagOutOfMemory) (fun _ => abort)) =>
      intros ? _ _; exact I
  | H : negb (?n =? strlen response) = true
    |- harmless _ (bind (fprintf_stderr (DiagFailedResponse ?n))
                        (fun _ => abort)) =>
      let Heq := fresh "Heq" in
      intros ? _ _; change (n <> strlen response); intros Heq;
      rewrite Heq, Z.eqb_refl in H; discriminate H
  | |- harmless _ (bind _ _) => apply harmless_bind; [| intros ?]
  | |- harmless _ (ret _) => apply harmless_ret
  | |- harmless _ fault => apply harmless_fault
  | |- harmless _ out_of_fuel => apply harmless_out_of_fuel
  | |- harmless _ (match ?x with _ => _ end) => destruct x eqn:?
  | |- harmless _ _ => solve [auto with abort_db]
  | |- harmless _ _ =>
      solve [apply harmless_returns; intros ?; discriminate]
  end.

Section AbortDiscipline.

Context {E : Type}.
Variable eng : rustls_engine E.

Local Abbreviation calm := (@harmless (State E) _ (@world E)).

Lemma sys_read_calm (fd0 len : Z) : calm (sys_read fd0 len).
Proof.
  apply harmless_returns. intros s. unfold sys_read.
  destruct (socket_reads (world s) 0%nat); discriminate.
Qed.

Lemma sys_write_calm (fd0 : Z) (buf : list Z) (n : Z) :
  calm (sys_write fd0 buf n).
Proof.
  apply harmless_returns. intros s. unfold sys_write.
  destruct (fd0 =? STDOUT_FILENO);
    [destruct (stdout_writes (world s) 0%nat)
    | destruct (socket_writes (world s) 0%nat)]; discriminate.
Qed.

Lemma select_calm (r w : bool) : calm (select r w).
Proof.
  apply harmless_returns. intros s. unfold select.
  destruct (selects (world s) 0%nat); discriminate.
Qed.

Hint Resolve sys_read_calm sys_write_calm select_calm : abort_db.

Lemma read_cb_calm (len : Z) : calm (read_cb len).
Proof. unfold read_cb. repeat dies_step. Qed.

Lemma write_cb_calm (buf : list Z) (len : Z) : calm (write_cb buf len).
Proof. unfold write_cb. repeat dies_step. Qed.

Hint Resolve read_cb_calm write_cb_calm : abort_db.

Lemma rustls_connection_read_tls_calm :
  calm (rustls_connection_read_tls eng).
Proof. unfold rustls_connection_read_tls. repeat dies_step. Qed.

Lemma rustls_connection_write_tls_calm :
  calm (rustls_connection_write_tls eng).
Proof. unfold rustls_connection_write_tls. repeat dies_step. Qed.

Lemma write_all_loop_calm (k : nat) (fd0 : Z) (buf : list Z) (n : Z) :
  calm (write_all_loop k fd0 buf n).
Proof.
  revert n. induction k as [|k IH]; intros n; cbn [write_all_loop];
    repeat dies_step.
Qed.

Lemma write_all_calm (fd0 : Z) (buf : list Z) (n : Z) :
  calm (write_all fd0 buf n).
Proof. apply write_all_loop_calm. Qed.

Hint Resolve rustls_connection_read_tls_calm
  rustls_connection_write_tls_calm write_all_calm : abort_db.

Lemma copy_plaintext_round_calm (again : M (State E) crustls_demo_result) :
  calm again -> calm (copy_plaintext_round eng again).
Proof. intros H. unfold copy_plaintext_round. repeat dies_step. Qed.

Lemma copy_plaintext_loop_calm (k : nat) :
  calm (copy_plaintext_loop eng k).
Proof.
  induction k as [|k IH]; cbn [copy_plaintext_loop];
    apply copy_plaintext_round_calm; [repeat dies_step | exact IH].
Qed.

Hint Resolve copy_plaintext_loop_calm : abort_db.

Lemma copy_plaintext_to_buffer_calm : calm (copy_plaintext_to_buffer eng).
Proof. unfold copy_plaintext_to_buffer. repeat dies_step. Qed.

Hint Resolve copy_plaintext_to_buffer_calm : abort_db.

Lemma do_read_calm : calm (do_read eng).
Proof. unfold do_read. repeat dies_step. Qed.

Hint Resolve do_read_calm : abort_db.

Lemma handle_conn_read_cycles_calm (fuel : nat) :
  calm (handle_conn_read_cycles eng fuel).
Proof.
  induction fuel as [|fuel IH]; cbn [handle_conn_read_cycles];
    repeat dies_step.
Qed.

Lemma handle_conn_write_ready_calm : calm (handle_conn_write_ready eng).
Proof. unfold handle_conn_write_ready. repeat dies_step. Qed.

Lemma request_is_finished_calm : calm (@request_is_finished E).
Proof. unfold request_is_finished. repeat dies_step. Qed.

Lemma send_response_calm : calm (send_response eng).
Proof. unfold send_response. repeat dies_step. Qed.

Hint Resolve handle_conn_read_cycles_calm handle_conn_write_ready_calm
  request_is_finished_calm send_response_calm : abort_db.

Lemma handle_conn_reply_calm (state : exchange_state) :
  calm (handle_conn_reply eng state).
Proof. unfold handle_conn_reply. repeat dies_step. Qed.

Hint Resolve handle_conn_reply_calm : abort_db.

Lemma handle_conn_loop_calm (fuel : nat) (state : exchange_state) :
  calm (handle_conn_loop eng fuel state).
Proof.
  revert state. induction fuel as [|fuel IH]; intros state;
    cbn [handle_conn_loop]; repeat dies_step.
Qed.

Hint Resolve handle_conn_loop_calm : abort_db.

Lemma handle_conn_calm (fuel : nat) : calm (handle_conn eng fuel).
Proof. unfold handle_conn. repeat dies_step. Qed.

Local Abbreviation steady := (@harmless (MainState E) _ (@m_world E)).

Lemma rustls_server_connection_new_steady :
  steady (@rustls_server_connection_new E).
Proof.
  apply harmless_returns. intros ms. unfold rustls_server_connection_new.
  destruct (sessions (m_listener ms) 0%nat) as [result e].
  destruct (rustls_result_eqb result RUSTLS_RESULT_OK); discriminate.
Qed.

Lemma pthread_create_join_steady (fuel : nat) (c : conndata_t E) :
  steady (pthread_create_join eng fuel c).
Proof.
  intros ms _. unfold pthread_create_join.
  destruct (negb (pthread_creates (m_listener ms) 0%nat =? 0));
    [discriminate |].
  pose proof (handle_conn_calm fuel (mkState c (m_world ms)) I) as H.
  destruct (handle_conn eng fuel (mkState c (m_world ms)))
    as [[r| | |] s']; cbn [fst snd m_world] in H |- *;
    try discriminate.
  intros _. apply H. reflexivity.
Qed.

Lemma nonblock_steady : steady (@nonblock E).
Proof. unfold nonblock. repeat dies_step. Qed.

Hint Resolve rustls_server_connection_new_steady pthread_create_join_steady
  nonblock_steady : abort_db.

Lemma accept_loop_steady (fuel : nat) (ret_var : Z) :
  steady (accept_loop eng fuel ret_var).
Proof.
  revert ret_var. induction fuel as [|fuel IH]; intros ret_var;
    cbn [accept_loop]; repeat dies_step.
Qed.

Hint Resolve accept_loop_steady : abort_db.

Lemma main_serve_steady (fuel : nat) : steady (main_serve eng fuel).
Proof. unfold main_serve. repeat dies_step. Qed.

End AbortDiscipline.

(** X11.  A connection is ended by [abort] only right after the line
    "out of memory", or right after the line "failed to write all
    response bytes" with a count that differs from the length of the
    reply: a failing socket, a failing sink or a failing [select] never
    abort. *)
Theorem abort_only_after_fatal_line {E : Type} (eng : rustls_engine E)
  (fuel : nat) (s : State E) :
  fst (handle_conn eng fuel s) = Aborts ->
  fatal_line (world (snd (handle_conn eng fuel s))).
Proof. intros H. apply (handle_conn_calm eng fuel s I H). Qed.

Lemma abort_only_after_fatal_line_witness :
  fst (handle_conn Loopback.engine 4 Scenario3.out_of_memory) = Aborts /\
  fatal_line
    (world (snd (handle_conn Loopback.engine 4 Scenario3.out_of_memory))).
Proof.
  assert (H : fst (handle_conn Loopback.engine 4 Scenario3.out_of_memory) =
              Aborts) by (vm_compute; reflexivity).
  split; [exact H |].
  apply (abort_only_after_fatal_line Loopback.engine 4
           Scenario3.out_of_memory H).
Defined.

(** X12.  [main] itself is ended by [abort] only while it serves, and only
    right after one of the same two lines of a connection: what aborts one
    connection ends the server, and nothing else aborts it. *)
Theorem server_dies_only_after_fatal_line {E : Type}
  (eng : rustls_engine E) (su : Setup) (fuel : nat) (w : World)
  (l : Listener E) :
  fst (main eng su fuel (mkProcess (mkMain w l None 0%nat) [])) = Aborts ->
  ready su /\
  fatal_line
    (m_world (p_serving
                (snd (main eng su fuel
                        (mkProcess (mkMain w l None 0%nat) []))))).
Proof.
  apply (main_cases eng w l
           (fun res =>
              fst res = Aborts ->
              ready su /\ fatal_line (m_world (p_serving (snd res))))).
  - intros Hr _ p _ _. unfold serving.
    pose proof (main_serve_steady eng fuel (p_serving p) I) as H.
    destruct (main_serve eng fuel (p_serving p)) as [o ms'].
    cbn [fst snd p_serving] in H |- *. intros Hab.
    split; [exact Hr | exact (H Hab)].
  - intros _ _ p _ _. discriminate.
  - intros _ _ p _ _. rewrite serving_cleanup. discriminate.
Qed.

Lemma server_dies_only_after_fatal_line_witness :
  let r := main Loopback.engine Scenario3.good_setup 10
             (mkProcess Scenario3.server_out_of_memory []) in
  fst r = Aborts /\
  ready Scenario3.good_setup /\
  fatal_line (m_world (p_serving (snd r))).
Proof.
  cbv zeta.
  assert (H : fst (main Loopback.engine Scenario3.good_setup 10
                     (mkProcess Scenario3.server_out_of_memory [])) =
              Aborts) by (vm_compute; reflexivity).
  split; [exact H |].
  apply (server_dies_only_after_fatal_line Loopback.engine
           Scenario3.good_setup 10
           (m_world Scenario3.server_out_of_memory)
           (m_listener Scenario3.server_out_of_memory) H).
Defined.
